(** * Canvas-Crawler: the crawl orchestration core

    A shallow embedding of three TypeScript classes of the extension's
    background worker and the properties of their specification:

    - [QueueManager]    (extension/src/background/queueManager.ts)
    - [IncrementalSync] (extension/src/background/incrementalSync.ts)
    - [Scheduler]       (extension/src/background/scheduler.ts)

    Conventions of the embedding.
    - A JavaScript string is a sequence of UTF-16 code units; code units below
      256 are what [string] and [list ascii] hold.
    - Integral numbers (counters, priorities, [Date.now()] readings) are [Z];
      numbers that the code makes fractional (a retry delay and the
      [scheduledFor] it is added to) are exact rationals [Q], so IEEE rounding
      is not part of the model.
    - [Date.now()], [Math.random()], [fetch], [crypto.subtle.digest] and the
      collaborators of other files are inputs of the operation that calls
      them, one argument per call, in call order.
    - [chrome.storage.local] is a record of the keys the classes use; a write
      to it succeeds. *)

From Stdlib Require Import ZArith QArith Qminmax Qpower Qround Lqa String Ascii.
From Stdlib Require Import List Lia.
From Stdlib Require Import Permutation Sorted.
From stdpp Require Import gmap strings list sorting.

Local Open Scope string_scope.
Local Open Scope Z_scope.

(** ** Numbers and strings of the host language *)

Module JS.

(** [ToInt32]: the wrap-around the bitwise operators apply to a number. *)
Definition toInt32 (z : Z) : Z := (z + 2 ^ 31) mod 2 ^ 32 - 2 ^ 31.

(** [a << n] and [a & b] on numbers. *)
Definition shl (a n : Z) : Z := toInt32 (Z.shiftl (toInt32 a) (n mod 32)).
Definition band (a b : Z) : Z := toInt32 (Z.land (toInt32 a) (toInt32 b)).

(** One digit of [Number.prototype.toString(radix)]: 0-9 then a-z. *)
Definition digitChar (d : Z) : ascii :=
  if d <? 10 then ascii_of_nat (Z.to_nat (48 + d))
  else ascii_of_nat (Z.to_nat (87 + d)).

Fixpoint digitsOf (fuel : nat) (radix n : Z) (acc : string) : string :=
  match fuel with
  | O => acc
  | S k =>
      let acc' := String (digitChar (n mod radix)) acc in
      if n / radix =? 0 then acc' else digitsOf k radix (n / radix) acc'
  end.

(** [n.toString(radix)] for an integral [n]. *)
Definition toStringRadix (radix n : Z) : string :=
  let digits m := digitsOf (S (Z.to_nat (Z.log2 m))) radix m EmptyString in
  if n <? 0 then String "-" (digits (- n)) else digits n.

(** Template-literal interpolation of an integral number. *)
Definition show (n : Z) : string := toStringRadix 10 n.

(** [str.charCodeAt(i)] for each [i], in order. *)
Definition charCodes (s : string) : list Z :=
  map (fun c => Z.of_nat (nat_of_ascii c)) (list_ascii_of_string s).

(** The whitespace of [\s] and of [trim()] among the code units below 256:
    TAB, LF, VT, FF, CR, SPACE and NBSP. *)
Definition isSpace (c : ascii) : bool :=
  let n := nat_of_ascii c in
  ((9 <=? n)%nat && (n <=? 13)%nat) || (n =? 32)%nat || (n =? 160)%nat.

(** [\d]. *)
Definition isDigit (c : ascii) : bool :=
  let n := nat_of_ascii c in (48 <=? n)%nat && (n <=? 57)%nat.

(** Case folding of the [i] flag (without [u]): only A-Z and a-z pair up
    among the code units that can match an ASCII letter. *)
Definition lower (c : ascii) : ascii :=
  let n := nat_of_ascii c in
  if (65 <=? n)%nat && (n <=? 90)%nat then ascii_of_nat (n + 32) else c.

(** A digit of base 36 as [toString(36)] writes it: [0-9a-z]. *)
Definition base36Digit (c : ascii) : bool :=
  let n := nat_of_ascii c in
  ((48 <=? n)%nat && (n <=? 57)%nat) || ((97 <=? n)%nat && (n <=? 122)%nat).

(** *** Doubles

    A number is an IEEE 754 double: zero, or a significand below [2^53] at
    an exponent that is not below [-1074].  A product or a sum of doubles
    is the double nearest to the exact result, and of two that are equally
    near the one with the even significand.  [roundDouble] is that rounding,
    on rationals.  It covers the results up to the largest double,
    [2^1024 - 2^971], in magnitude: beyond, a double is an infinity, which
    a rational cannot be. *)

(** Rounding to the nearest integer, ties to the even one. *)
Definition roundHalfEven (q : Q) : Z :=
  let f := Qfloor q in
  match (q - inject_Z f ?= 1 # 2)%Q with
  | Lt => f
  | Gt => f + 1
  | Eq => if Z.even f then f else f + 1
  end.

(** The integer [b] with [2^b <= x < 2^(b+1)], for a positive [x]. *)
Definition ilog2 (x : Q) : Z :=
  let c := Z.log2 (Qnum x) - Z.log2 (Z.pos (Qden x)) in
  if Qle_bool (2 ^ c) x then c else c - 1.

(** The exponent of the unit in the last place of the doubles around a
    positive [x]: 53 significant bits, and no exponent below that of the
    subnormal numbers. *)
Definition ulpExponent (x : Q) : Z := Z.max (ilog2 x - 52) (-1074).

Definition roundPositive (x : Q) : Q :=
  (inject_Z (roundHalfEven (x / 2 ^ ulpExponent x)) * 2 ^ ulpExponent x)%Q.

(** The double nearest to [x]. *)
Definition roundDouble (x : Q) : Q :=
  match (x ?= 0)%Q with
  | Eq => 0%Q
  | Gt => roundPositive x
  | Lt => (- roundPositive (- x))%Q
  end.

End JS.

(** ** queueManager.ts *)

Module Queue.

Inductive TaskType :=
| dashboard | course_list | announcements | assignments | discussions
| pages | files | quizzes | modules | grades | people | syllabus.

(** The string each member of the union type is at run time. *)
Definition typeName (t : TaskType) : string :=
  match t with
  | dashboard => "dashboard" | course_list => "course-list"
  | announcements => "announcements" | assignments => "assignments"
  | discussions => "discussions" | pages => "pages" | files => "files"
  | quizzes => "quizzes" | modules => "modules" | grades => "grades"
  | people => "people" | syllabus => "syllabus"
  end.

(** [interface CrawlTask]. [metadata] is opaque to the queue. *)
Module CrawlTask.
Record t := make {
  id : string;
  type : TaskType;
  url : string;
  courseId : option string;
  priority : Z;
  retryCount : Z;
  maxRetries : Z;
  createdAt : Z;
  scheduledFor : Q;
  lastAttempt : option Z;
  error : option string;
  metadata : option string
}.
End CrawlTask.

(** [Omit<CrawlTask, 'id' | 'retryCount' | 'createdAt'>], what a producer
    hands to [addTask]. *)
Module TaskInput.
Record t := make {
  type : TaskType;
  url : string;
  courseId : option string;
  priority : Z;
  maxRetries : Z;
  scheduledFor : Q;
  lastAttempt : option Z;
  error : option string;
  metadata : option string
}.
End TaskInput.

Record ConcurrencyConfig := {
  maxConcurrentTasks : Z;
  maxConcurrentGhostTabs : Z;
  taskTimeoutMs : Z;
  retryDelayMs : Z;
  maxRetries : Z
}.

Definition defaultConcurrencyConfig : ConcurrencyConfig :=
  {| maxConcurrentTasks := 4; maxConcurrentGhostTabs := 2;
     taskTimeoutMs := 30000; retryDelayMs := 1000; maxRetries := 3 |}.

(** *** Task identity *)

(** The loop body of [simpleHash]:
    [hash = ((hash << 5) - hash) + char; hash = hash & hash]. *)
Definition hashStep (hash char : Z) : Z :=
  let hash := (JS.shl hash 5 - hash) + char in
  JS.band hash hash.

Definition simpleHash (str : string) : string :=
  let hash := fold_left hashStep (JS.charCodes str) 0 in
  JS.toStringRadix 36 (Z.abs hash).

(** [generateTaskId]; [timestamp] is its [Date.now()]. *)
Definition generateTaskId (timestamp : Z) (type : TaskType) (url : string)
  : string :=
  let urlHash := simpleHash url in
  (typeName type ++ "_" ++ JS.show timestamp ++ "_" ++ urlHash)%string.

(** *** The manager and the storage area it persists to *)

(** Task objects are shared: [processQueue] hands [executeTask] the very
    object that sits in [this.queue], and [executeTask] mutates it while the
    array may be re-sorted, spliced or have the slot overwritten in the
    meantime.  [heap] holds every task object allocated so far, a reference
    is its index, and [queue] is the array of references. *)
Record QueueManager := {
  heap : list CrawlTask.t;
  queue : list nat;
  running : gset string;
  completed : gset string;
  failed : gset string;
  config : ConcurrencyConfig;
  isProcessing : bool
}.

Record StoredStats := {
  st_running : list string;
  st_completed : list string;
  st_failed : list string;
  lastUpdated : Z
}.

Record RecentError := {
  re_id : string;
  re_type : TaskType;
  re_url : string;
  re_error : option string;
  re_when : Z
}.

(** The keys of [chrome.storage.local] the manager reads and writes;
    [None] is a key that was never set. *)
Record Storage := {
  crawlQueue : option (list CrawlTask.t);
  queueStats : option StoredStats;
  recentErrors : option (list RecentError)
}.

Definition emptyStorage : Storage :=
  {| crawlQueue := None; queueStats := None; recentErrors := None |}.

Record World := { mgr : QueueManager; store : Storage }.

(** The field initialisers of the class, before the constructor's
    [loadQueue]. *)
Definition newManager (cfg : ConcurrencyConfig) : QueueManager :=
  {| heap := []; queue := []; running := ∅; completed := ∅; failed := ∅;
     config := cfg; isProcessing := false |}.

Definition withQueue (m : QueueManager) (h : list CrawlTask.t) (q : list nat)
  : QueueManager :=
  {| heap := h; queue := q; running := running m; completed := completed m;
     failed := failed m; config := config m; isProcessing := isProcessing m |}.

Definition withSets (m : QueueManager) (r c f : gset string) : QueueManager :=
  {| heap := heap m; queue := queue m; running := r; completed := c;
     failed := f; config := config m; isProcessing := isProcessing m |}.

Definition deref (m : QueueManager) (r : nat) : option CrawlTask.t :=
  heap m !! r.

(** The task objects of [this.queue], in array order. *)
Definition tasks (m : QueueManager) : list CrawlTask.t :=
  omap (deref m) (queue m).

Definition queuedIds (m : QueueManager) : list string :=
  map CrawlTask.id (tasks m).

Definition hasId (m : QueueManager) (id : string) (r : nat) : bool :=
  match deref m r with
  | Some t => bool_decide (CrawlTask.id t = id)
  | None => false
  end.

(** [this.queue.findIndex(t => t.id === id)], [None] for [-1]. *)
Fixpoint findIndexFrom (p : nat -> bool) (i : nat) (q : list nat)
  : option nat :=
  match q with
  | [] => None
  | r :: q' => if p r then Some i else findIndexFrom p (S i) q'
  end.

Definition findIndex (m : QueueManager) (id : string) : option nat :=
  findIndexFrom (hasId m id) 0 (queue m).

(** *** Persistence *)

(** [saveQueue]; [now] is the [Date.now()] of [lastUpdated]. *)
Definition saveQueue (now : Z) (w : World) : World :=
  let m := mgr w in
  {| mgr := m;
     store :=
       {| crawlQueue := Some (tasks m);
          queueStats :=
            Some {| st_running := elements (running m);
                    st_completed := elements (completed m);
                    st_failed := elements (failed m);
                    lastUpdated := now |};
          recentErrors := recentErrors (store w) |} |}.

(** [loadQueue] from its [await] on: [result] is what the read of the
    storage came back with.  An array read back from storage is made of
    fresh objects; an array, empty or not, is truthy.  The assignments
    replace the queue array and the three sets, whatever they held. *)
Definition loadFrom (result : Storage) (w : World) : World :=
  let m := mgr w in
  let m1 :=
    match crawlQueue result with
    | Some q =>
        withQueue m (heap m ++ q) (seq (length (heap m)) (length q))
    | None => m
    end in
  let m2 :=
    match queueStats result with
    | Some st =>
        withSets m1 (list_to_set (st_running st))
                    (list_to_set (st_completed st))
                    (list_to_set (st_failed st))
    | None => m1
    end in
  {| mgr := m2; store := store w |}.

(** [loadQueue] with nothing between its read and its assignments. *)
Definition loadQueue (w : World) : World := loadFrom (store w) w.

(** [new QueueManager(config)] over what storage holds.  The constructor
    starts [loadQueue] and does not wait for it: the instance begins with
    the field initialisers, and the load lands later, after whatever calls
    were made in between. *)
Definition construct (cfg : ConcurrencyConfig) (st : Storage) : World :=
  {| mgr := newManager cfg; store := st |}.

(** *** Enqueueing and removing *)

(** [startProcessing]: only the flag is state of the model, the interval
    timer it installs is what fires [processQueue]. *)
Definition startProcessing (w : World) : World :=
  let m := mgr w in
  {| mgr := {| heap := heap m; queue := queue m; running := running m;
               completed := completed m; failed := failed m;
               config := config m; isProcessing := true |};
     store := store w |}.

(** The object literal [{...task, id, retryCount: 0, createdAt: Date.now()}]. *)
Definition newCrawlTask (id : string) (createdAt : Z) (task : TaskInput.t)
  : CrawlTask.t :=
  {| CrawlTask.id := id;
     CrawlTask.type := TaskInput.type task;
     CrawlTask.url := TaskInput.url task;
     CrawlTask.courseId := TaskInput.courseId task;
     CrawlTask.priority := TaskInput.priority task;
     CrawlTask.retryCount := 0;
     CrawlTask.maxRetries := TaskInput.maxRetries task;
     CrawlTask.createdAt := createdAt;
     CrawlTask.scheduledFor := TaskInput.scheduledFor task;
     CrawlTask.lastAttempt := TaskInput.lastAttempt task;
     CrawlTask.error := TaskInput.error task;
     CrawlTask.metadata := TaskInput.metadata task |}.

(** The branch of [addTask] on [existingIndex]. *)
Definition enqueue (m : QueueManager) (crawlTask : CrawlTask.t)
  : QueueManager :=
  let fresh := length (heap m) in
  match findIndex m (CrawlTask.id crawlTask) with
  | Some existingIndex =>
      match queue m !! existingIndex ≫= deref m with
      | Some existing =>
          if CrawlTask.priority crawlTask >? CrawlTask.priority existing
          then withQueue m (heap m ++ [crawlTask])
                         (<[existingIndex := fresh]> (queue m))
          else m
      | None => m
      end
  | None => withQueue m (heap m ++ [crawlTask]) (queue m ++ [fresh])
  end.

(** [addTask].  [tId] is the [Date.now()] inside [generateTaskId],
    [tCreated] the one of [createdAt], [tSaved] the one of [saveQueue]. *)
Definition addTask (tId tCreated tSaved : Z) (task : TaskInput.t) (w : World)
  : string * World :=
  let id := generateTaskId tId (TaskInput.type task) (TaskInput.url task) in
  let crawlTask := newCrawlTask id tCreated task in
  let w1 := {| mgr := enqueue (mgr w) crawlTask; store := store w |} in
  (id, startProcessing (saveQueue tSaved w1)).

(** [this.queue.splice(index, 1)]. *)
Definition splice1 (index : nat) (q : list nat) : list nat :=
  take index q ++ drop (S index) q.

(** [removeTask]; the queue is saved only when a task was removed. *)
Definition removeTask (tSaved : Z) (taskId : string) (w : World)
  : bool * World :=
  let m := mgr w in
  match findIndex m taskId with
  | Some index =>
      let m' := withQueue m (heap m) (splice1 index (queue m)) in
      (true, saveQueue tSaved {| mgr := m'; store := store w |})
  | None => (false, w)
  end.

(** [clearQueue]. *)
Definition clearQueue (tSaved : Z) (w : World) : World :=
  let m := mgr w in
  saveQueue tSaved
    {| mgr := withSets (withQueue m (heap m) []) ∅ ∅ ∅; store := store w |}.

(** *** Retry policy *)

(** The literal [0.3]: the double nearest to three tenths, which is a
    little less. *)
Definition dotThree : Q := JS.roundDouble (3 # 10).

(** The local [exponentialDelay] of [calculateRetryDelay]:
    [baseDelay * Math.pow(2, retryCount - 1)], a product of doubles. *)
Definition exponentialDelay (cfg : ConcurrencyConfig) (retryCount : Z) : Q :=
  JS.roundDouble (inject_Z (retryDelayMs cfg)
                  * JS.roundDouble (Qpower 2 (retryCount - 1)))%Q.

(** [calculateRetryDelay]; [random] is its [Math.random()], a double in
    [0, 1).  Each product and the sum are rounded as doubles are; the
    values are those of the code as long as the exponential value stays
    below [2^1023], so that the sum is a finite double; beyond, the code
    computes with infinities. *)
Definition calculateRetryDelay (cfg : ConcurrencyConfig) (retryCount : Z)
    (random : Q) : Q :=
  let exponentialDelay := exponentialDelay cfg retryCount in
  let jitter :=
    JS.roundDouble (JS.roundDouble (random * dotThree) * exponentialDelay)%Q in
  Qmin (JS.roundDouble (exponentialDelay + jitter)%Q) 30000.

(** *** Processing *)

(** The comparator handed to [this.queue.sort]. *)
Definition compareTasks (a b : CrawlTask.t) : Q :=
  if negb (Qeq_bool (CrawlTask.scheduledFor a) (CrawlTask.scheduledFor b))
  then (CrawlTask.scheduledFor a - CrawlTask.scheduledFor b)%Q
  else inject_Z (CrawlTask.priority b - CrawlTask.priority a).

Definition sortsBefore (m : QueueManager) (r y : nat) : bool :=
  match deref m r, deref m y with
  | Some a, Some b => Qle_bool (compareTasks a b) 0
  | _, _ => true
  end.

Fixpoint insertSorted (m : QueueManager) (r : nat) (l : list nat)
  : list nat :=
  match l with
  | [] => [r]
  | y :: l' => if sortsBefore m r y then r :: l else y :: insertSorted m r l'
  end.

(** [Array.prototype.sort] is stable; so is this insertion sort. *)
Definition sortQueue (m : QueueManager) : QueueManager :=
  withQueue m (heap m) (foldr (insertSorted m) [] (queue m)).

(** [this.running.size >= this.config.maxConcurrentTasks]. *)
Definition atCapacity (m : QueueManager) : bool :=
  maxConcurrentTasks (config m) <=? Z.of_nat (size (running m)).

(** The guard of the loop of [processQueue]:
    [task.scheduledFor <= Date.now() && !this.running.has(task.id)]. *)
Definition ready (now : Z) (m : QueueManager) (task : CrawlTask.t) : bool :=
  Qle_bool (CrawlTask.scheduledFor task) (inject_Z now)
  && negb (bool_decide (CrawlTask.id task ∈ running m)).

(** A task object the loop of [processQueue] may hand to [executeTask] at
    clock reading [now].  The loop goes through the array that was
    [this.queue] when it began, and it is suspended at each [await] of an
    [executeTask]; [clearQueue] and [loadQueue] meanwhile put another array
    in the field and leave that one as it is.  So the object need not be in
    the queue array of the moment: it is any object allocated so far that
    passes the two tests. *)
Definition startable (now : Z) (m : QueueManager) (r : nat) : Prop :=
  atCapacity m = false ∧
  ∃ task, deref m r = Some task ∧ ready now m task = true.

Definition mutate (m : QueueManager) (r : nat)
    (f : CrawlTask.t → CrawlTask.t) : QueueManager :=
  withQueue m (alter f r (heap m)) (queue m).

Definition setLastAttempt (now : Z) (t : CrawlTask.t) : CrawlTask.t :=
  {| CrawlTask.id := CrawlTask.id t; CrawlTask.type := CrawlTask.type t;
     CrawlTask.url := CrawlTask.url t;
     CrawlTask.courseId := CrawlTask.courseId t;
     CrawlTask.priority := CrawlTask.priority t;
     CrawlTask.retryCount := CrawlTask.retryCount t;
     CrawlTask.maxRetries := CrawlTask.maxRetries t;
     CrawlTask.createdAt := CrawlTask.createdAt t;
     CrawlTask.scheduledFor := CrawlTask.scheduledFor t;
     CrawlTask.lastAttempt := Some now;
     CrawlTask.error := CrawlTask.error t;
     CrawlTask.metadata := CrawlTask.metadata t |}.

(** [task.error = errorMessage; task.retryCount++]. *)
Definition recordFailure (errorMessage : string) (t : CrawlTask.t)
  : CrawlTask.t :=
  {| CrawlTask.id := CrawlTask.id t; CrawlTask.type := CrawlTask.type t;
     CrawlTask.url := CrawlTask.url t;
     CrawlTask.courseId := CrawlTask.courseId t;
     CrawlTask.priority := CrawlTask.priority t;
     CrawlTask.retryCount := CrawlTask.retryCount t + 1;
     CrawlTask.maxRetries := CrawlTask.maxRetries t;
     CrawlTask.createdAt := CrawlTask.createdAt t;
     CrawlTask.scheduledFor := CrawlTask.scheduledFor t;
     CrawlTask.lastAttempt := CrawlTask.lastAttempt t;
     CrawlTask.error := Some errorMessage;
     CrawlTask.metadata := CrawlTask.metadata t |}.

Definition setScheduledFor (at_ : Q) (t : CrawlTask.t) : CrawlTask.t :=
  {| CrawlTask.id := CrawlTask.id t; CrawlTask.type := CrawlTask.type t;
     CrawlTask.url := CrawlTask.url t;
     CrawlTask.courseId := CrawlTask.courseId t;
     CrawlTask.priority := CrawlTask.priority t;
     CrawlTask.retryCount := CrawlTask.retryCount t;
     CrawlTask.maxRetries := CrawlTask.maxRetries t;
     CrawlTask.createdAt := CrawlTask.createdAt t;
     CrawlTask.scheduledFor := at_;
     CrawlTask.lastAttempt := CrawlTask.lastAttempt t;
     CrawlTask.error := CrawlTask.error t;
     CrawlTask.metadata := CrawlTask.metadata t |}.

(** [executeTask] runs in three pieces, each of which runs to its end
    without another operation in between; the [await]s of the fetch, the
    parsing and the artifact store lie between the first and the other two
    and touch no field of the manager.

    First piece: [this.running.add(task.id); task.lastAttempt = Date.now()]. *)
Definition beginTask (now : Z) (r : nat) (w : World) : World :=
  let m := mgr w in
  match deref m r with
  | Some task =>
      let m1 := withSets m ({[CrawlTask.id task]} ∪ running m)
                         (completed m) (failed m) in
      {| mgr := mutate m1 r (setLastAttempt now); store := store w |}
  | None => w
  end.

(** The end of the [try] block and the final [saveQueue]. *)
Definition completeTask (tRemoved tSaved : Z) (r : nat) (w : World) : World :=
  let m := mgr w in
  match deref m r with
  | Some task =>
      let id := CrawlTask.id task in
      let m1 := withSets m (running m ∖ {[id]}) ({[id]} ∪ completed m)
                         (failed m) in
      let w1 := snd (removeTask tRemoved id
                       {| mgr := m1; store := store w |}) in
      saveQueue tSaved w1
  | None => w
  end.

(** The read-modify-write of the ["recentErrors"] key. *)
Definition recordRecentError (task : CrawlTask.t) (when : Z) (st : Storage)
  : Storage :=
  let recent := default [] (recentErrors st) in
  let entry := {| re_id := CrawlTask.id task; re_type := CrawlTask.type task;
                  re_url := CrawlTask.url task;
                  re_error := CrawlTask.error task; re_when := when |} in
  let trimmed := take 50 (entry :: recent) in
  {| crawlQueue := crawlQueue st; queueStats := queueStats st;
     recentErrors := Some trimmed |}.

(** The [catch] block and the final [saveQueue].  [random] and [tNow] are
    read on the retry branch, [tRemoved] and [tWhen] on the other. *)
Definition failTask (errorMessage : string) (random : Q)
    (tNow tRemoved tWhen tSaved : Z) (r : nat) (w : World) : World :=
  let m := mutate (mgr w) r (recordFailure errorMessage) in
  match deref m r with
  | Some task =>
      let id := CrawlTask.id task in
      if CrawlTask.retryCount task >=? maxRetries (config m) then
        let m1 := withSets m (running m ∖ {[id]}) (completed m)
                           ({[id]} ∪ failed m) in
        let w1 := snd (removeTask tRemoved id
                         {| mgr := m1; store := store w |}) in
        let w2 := {| mgr := mgr w1;
                     store := recordRecentError task tWhen (store w1) |} in
        saveQueue tSaved w2
      else
        let delay :=
          calculateRetryDelay (config m) (CrawlTask.retryCount task) random in
        let m1 := mutate m r (setScheduledFor (inject_Z tNow + delay)%Q) in
        let m2 := withSets m1 (running m1 ∖ {[id]}) (completed m1)
                           (failed m1) in
        saveQueue tSaved {| mgr := m2; store := store w |}
  | None => w
  end.

(** *** Statistics *)

Record QueueStats := {
  total : Z; pending : Z; stat_running : Z; stat_completed : Z;
  stat_failed : Z; retries : Z
}.

Definition getStats (m : QueueManager) : QueueStats :=
  let n (s : gset string) := Z.of_nat (size s) in
  let len := Z.of_nat (length (queue m)) in
  {| total := len + n (running m) + n (completed m) + n (failed m);
     pending := len;
     stat_running := n (running m);
     stat_completed := n (completed m);
     stat_failed := n (failed m);
     retries := fold_left (fun sum task => sum + CrawlTask.retryCount task)
                          (tasks m) 0 |}.

(** *** Executions *)

(** One step of a manager whose load has landed: an [addTask] or
    [clearQueue] from outside, the sort at the head of [processQueue], or
    one of the three pieces of an [executeTask].  The pieces of different
    tasks interleave, since [processQueue] is fired by a timer while earlier
    firings still await.  A task is started from any array a loop of
    [processQueue] may still hold (see [startable]), and the two closing
    pieces are not tied to an opening one: the relation allows more than
    the class does, not less.  The landing of the constructor's load is
    not among these steps; [move] adds it. *)
Inductive step (w : World) : World → Prop :=
| step_addTask tId tCreated tSaved task :
    step w (addTask tId tCreated tSaved task w).2
| step_clearQueue tSaved :
    step w (clearQueue tSaved w)
| step_sort :
    atCapacity (mgr w) = false →
    step w {| mgr := sortQueue (mgr w); store := store w |}
| step_begin now r :
    startable now (mgr w) r →
    step w (beginTask now r w)
| step_complete tRemoved tSaved r :
    is_Some (deref (mgr w) r) →
    step w (completeTask tRemoved tSaved r w)
| step_fail errorMessage random tNow tRemoved tWhen tSaved r :
    is_Some (deref (mgr w) r) →
    step w (failTask errorMessage random tNow tRemoved tWhen tSaved r w).

(** A step, or the landing of the load that the constructor started, with
    whatever the read of the storage came back with. *)
Inductive move (w : World) : World → Prop :=
| move_step w' : step w w' → move w w'
| move_load result : move w (loadFrom result w).

(** A task with identifier [id] is in the queue array. *)
Definition queued (m : QueueManager) (id : string) : Prop :=
  ∃ r task, r ∈ queue m ∧ deref m r = Some task ∧ CrawlTask.id task = id.

(** Every reference of the queue array is to an allocated object. *)
Definition wellFormed (m : QueueManager) : Prop :=
  Forall (fun r => (r < length (heap m))%nat) (queue m).

Local Open Scope list_scope.

(** The objects that the references of [q] point to in [h]. *)
Definition derefs (h : list CrawlTask.t) (q : list nat) : list CrawlTask.t :=
  omap (fun r => h !! r) q.


(** *** Concrete inputs *)

Definition dashboardTask (priority maxRetries scheduledFor : Z)
  : TaskInput.t :=
  {| TaskInput.type := dashboard;
     TaskInput.url := "https://canvas.example/dashboard";
     TaskInput.courseId := None; TaskInput.priority := priority;
     TaskInput.maxRetries := maxRetries;
     TaskInput.scheduledFor := inject_Z scheduledFor;
     TaskInput.lastAttempt := None; TaskInput.error := None;
     TaskInput.metadata := None |}.

Definition coursesTask : TaskInput.t :=
  {| TaskInput.type := course_list;
     TaskInput.url := "https://canvas.example/courses";
     TaskInput.courseId := None; TaskInput.priority := 9;
     TaskInput.maxRetries := 3; TaskInput.scheduledFor := 2000;
     TaskInput.lastAttempt := None; TaskInput.error := None;
     TaskInput.metadata := None |}.

(** A fresh process over empty storage. *)
Definition fresh : World := construct defaultConcurrencyConfig emptyStorage.

(** One task enqueued at clock reading 1000 and handed to [executeTask]. *)
Definition oneQueued : World :=
  (addTask 1000 1000 1000 (dashboardTask 5 3 1000) fresh).2.
Definition oneInFlight : World := beginTask 1000 0 oneQueued.

(** The queue as [addTask] saved it while the dashboard task was in
    flight. *)
Definition savedInFlight : World :=
  (addTask 1002 1002 1002 coursesTask oneInFlight).2.

(** Four dashboard tasks, enqueued one millisecond apart and all handed to
    [executeTask], and the queue as [addTask] saved it while they were in
    flight. *)
Definition fourQueued : World :=
  (addTask 1003 1003 1003 (dashboardTask 5 3 1000)
     (addTask 1002 1002 1002 (dashboardTask 5 3 1000)
        (addTask 1001 1001 1001 (dashboardTask 5 3 1000) oneQueued).2).2).2.
Definition fourInFlight : World :=
  beginTask 1004 3
    (beginTask 1004 2 (beginTask 1004 1 (beginTask 1004 0 fourQueued))).
Definition savedFourInFlight : World :=
  (addTask 1005 1005 1005 coursesTask fourInFlight).2.

(** A task that carries its own limit of one attempt, enqueued under the
    default configuration (limit 3) and failed twice. *)
Definition failedOnce : World :=
  failTask "HTTP 500: Internal Server Error" 0 2000 2000 2000 2000 0
    (beginTask 1000 0
       (addTask 1000 1000 1000 (dashboardTask 5 1 1000) fresh).2).
Definition failedTwice : World :=
  failTask "HTTP 500: Internal Server Error" 0 4000 4000 4000 4000 0
    (beginTask 3000 0 failedOnce).

(** The order [processQueue] sorts by: an earlier [scheduledFor] first,
    and among equal ones the higher priority first. *)
Definition inOrder (a b : CrawlTask.t) : Prop :=
  (CrawlTask.scheduledFor a < CrawlTask.scheduledFor b)%Q ∨
  ((CrawlTask.scheduledFor a == CrawlTask.scheduledFor b)%Q ∧
   CrawlTask.priority b ≤ CrawlTask.priority a).


(** The running set is within the limit of the configuration. *)
Definition withinCapacity (m : QueueManager) : Prop :=
  Z.of_nat (size (running m)) ≤ maxConcurrentTasks (config m).

(** References are allocated and no two queued tasks share an
    identifier. *)
Definition distinctIds (m : QueueManager) : Prop :=
  wellFormed m ∧ NoDup (queuedIds m).


(** [getTask]: the first queued task with the identifier, [None] for
    [null]. *)
Definition getTask (m : QueueManager) (taskId : string)
  : option CrawlTask.t :=
  List.find (fun t => bool_decide (CrawlTask.id t = taskId)) (tasks m).




(** Two dashboard tasks scheduled for the same time, the second with the
    higher priority. *)
Definition twoQueued : World :=
  (addTask 1001 1001 1001 (dashboardTask 9 3 1000)
     (addTask 1000 1000 1000 (dashboardTask 5 3 1000) fresh).2).2.

(** The task object that is in flight in [oneInFlight]. *)
Definition taskInFlight : CrawlTask.t :=
  setLastAttempt 1000
    (newCrawlTask "dashboard_1000_ndclwo" 1000 (dashboardTask 5 3 1000)).

(** A configuration that allows one attempt, and the dashboard task in
    flight under it. *)
Definition oneAttempt : ConcurrencyConfig :=
  {| maxConcurrentTasks := 4; maxConcurrentGhostTabs := 2;
     taskTimeoutMs := 30000; retryDelayMs := 1000; maxRetries := 1 |}.
Definition lastAttemptInFlight : World :=
  beginTask 1000 0
    (addTask 1000 1000 1000 (dashboardTask 5 3 1000)
       (construct oneAttempt emptyStorage)).2.

End Queue.

(** ** incrementalSync.ts: content normalisation *)

Module Normalize.

(** What a regular expression of [normalizeContent] does at one position:
    the length of its match starting at the head of the text, if it has
    one.  None of the expressions has an anchor or looks behind, so the
    text before the position plays no part. *)
Definition Matcher := list ascii → option nat.

(** [text.replace(/re/g, rep)]: leftmost matches, none overlapping, the
    search resuming behind each match.  [skip] counts the code units of the
    current match still to be dropped. *)
Fixpoint replaceFrom (m : Matcher) (rep : list ascii) (skip : nat)
    (s : list ascii) : list ascii :=
  match s with
  | [] => []
  | c :: t =>
      match skip with
      | S k => replaceFrom m rep k t
      | O =>
          match m s with
          | Some (S k) => rep ++ replaceFrom m rep k t
          | _ => c :: replaceFrom m rep O t
          end
      end
  end.

Definition replaceAll (m : Matcher) (rep : list ascii) (s : list ascii)
  : list ascii :=
  replaceFrom m rep O s.

(** A sequence of one-unit items ([\d], a literal, a class), all of which
    must match in order. *)
Fixpoint matchSeq (pat : list (ascii → bool)) (s : list ascii) : bool :=
  match pat, s with
  | [], _ => true
  | p :: pat', c :: s' => p c && matchSeq pat' s'
  | _ :: _, [] => false
  end.

(** The length of the longest prefix whose units all satisfy [p]: a greedy
    [p*]. *)
Fixpoint spanLen (p : ascii → bool) (s : list ascii) : nat :=
  match s with
  | c :: s' => if p c then S (spanLen p s') else O
  | [] => O
  end.

Definition lit (a : ascii) : ascii → bool := fun c => bool_decide (c = a).

(** A literal under the [i] flag. *)
Definition litCI (a : ascii) : ascii → bool :=
  fun c => bool_decide (JS.lower c = JS.lower a).

Definition d : ascii → bool := JS.isDigit.

(** [/\d{4}-\d{2}-\d{2}T\d{2}:\d{2}:\d{2}/] *)
Definition isoPattern : list (ascii → bool) :=
  [d; d; d; d; lit "-"; d; d; lit "-"; d; d; lit "T";
   d; d; lit ":"; d; d; lit ":"; d; d].

Definition isoTimestamp : Matcher :=
  fun s => if matchSeq isoPattern s then Some (length isoPattern) else None.

(** [/\d{13,}/] *)
Definition epochRun : Matcher :=
  fun s => let n := spanLen d s in if (13 <=? n)%nat then Some n else None.

(** The double quote. *)
Definition dquote : ascii := "034"%char.

(** The class of the token expressions: any unit but an ampersand, white
    space and the double quote. *)
Definition tokenChar (c : ascii) : bool :=
  negb (bool_decide (c = "&"%char) || JS.isSpace c
        || bool_decide (c = dquote)).

(** [/w1[_-]w2C*/i] with [C] the class above, for the two words of a token
    name: [session], [id]; [csrf], [token]; [authenticity], [token]. *)
Definition tokenPattern (w1 w2 : string) : list (ascii → bool) :=
  map litCI (list_ascii_of_string w1)
  ++ [fun c => bool_decide (c = "_"%char) || bool_decide (c = "-"%char)]
  ++ map litCI (list_ascii_of_string w2).

Definition token (w1 w2 : string) : Matcher :=
  fun s =>
    let pat := tokenPattern w1 w2 in
    if matchSeq pat s
    then Some (length pat + spanLen tokenChar (drop (length pat) s))%nat
    else None.

(** Whether [s] has [n] digits in a row; [run] counts the digits that end
    at the current position. *)
Fixpoint hasDigitRunFrom (n run : nat) (s : list ascii) : bool :=
  (n <=? run)%nat ||
  match s with
  | c :: s' => if d c then hasDigitRunFrom n (S run) s'
               else hasDigitRunFrom n O s'
  | [] => false
  end.

Definition notQuote (c : ascii) : bool := negb (bool_decide (c = dquote)).

(** [/id=Q[^Q]*\d{10,}[^Q]*Q/] with [Q] the double quote.  Whatever the two
    stars give back to each other, a match spans [id=Q], the whole run of
    units up to the next double quote, and that quote; it exists when the
    run holds ten digits in a row. *)
Definition dynamicId : Matcher :=
  fun s =>
    let opening := [lit "i"; lit "d"; lit "="; lit dquote] in
    if matchSeq opening s then
      let rest := drop 4 s in
      let n := spanLen notQuote rest in
      match drop n rest with
      | q :: _ => if hasDigitRunFrom 10 0 (take n rest)
                  then Some (4 + n + 1)%nat else None
      | [] => None
      end
    else None.

(** [/\s+/] *)
Definition spaces : Matcher :=
  fun s => let n := spanLen JS.isSpace s in
           if (1 <=? n)%nat then Some n else None.

Fixpoint trimStart (s : list ascii) : list ascii :=
  match s with
  | c :: s' => if JS.isSpace c then trimStart s' else s
  | [] => []
  end.

(** [String.prototype.trim]. *)
Definition trim (s : list ascii) : list ascii :=
  rev (trimStart (rev (trimStart s))).

(** The replacement texts. *)
Definition TIMESTAMP : list ascii := list_ascii_of_string "TIMESTAMP".
Definition SESSION_ID : list ascii := list_ascii_of_string "SESSION_ID".
Definition CSRF_TOKEN : list ascii := list_ascii_of_string "CSRF_TOKEN".
Definition AUTH_TOKEN : list ascii := list_ascii_of_string "AUTH_TOKEN".
Definition DYNAMIC_ID : list ascii :=
  list_ascii_of_string "id=" ++ dquote :: list_ascii_of_string "DYNAMIC_ID"
  ++ [dquote].

(** [normalizeContent], the replacements in source order. *)
Definition normalizeContent (content : list ascii) : list ascii :=
  let s := replaceAll isoTimestamp TIMESTAMP content in
  let s := replaceAll epochRun TIMESTAMP s in
  let s := replaceAll (token "session" "id") SESSION_ID s in
  let s := replaceAll (token "csrf" "token") CSRF_TOKEN s in
  let s := replaceAll (token "authenticity" "token") AUTH_TOKEN s in
  let s := replaceAll dynamicId DYNAMIC_ID s in
  let s := replaceAll spaces [" "%char] s in
  trim s.

Local Open Scope list_scope.

(** *** Fields and the texts around them *)

(** A unit that no match of [m] contains and at which every match attempt
    stops as it does at the end of the text. *)
Definition barrier (m : Matcher) (c : ascii) : Prop :=
  ∀ a x, m (a ++ c :: x) = m a.

(** A match is no longer than the text. *)
Definition bounded (m : Matcher) : Prop :=
  ∀ a n, m a = Some n → (n ≤ length a)%nat.

(** The units that end a token: the complement of [tokenChar]. *)
Definition stop (c : ascii) : Prop := tokenChar c = false.

(** A text that [/\d{4}-\d{2}-\d{2}T\d{2}:\d{2}:\d{2}/] matches as a
    whole. *)
Definition isoField (v : list ascii) : Prop :=
  matchSeq isoPattern v = true ∧ length v = length isoPattern.

(** Thirteen digits or more. *)
Definition epochField (v : list ascii) : Prop :=
  Forall (fun c => d c = true) v ∧ (13 ≤ length v)%nat.

(** The two words of a token name with their separator, in any case,
    followed by units of the token class. *)
Definition tokenField (w1 w2 : string) (v : list ascii) : Prop :=
  ∃ name value,
    v = name ++ value ∧
    matchSeq (tokenPattern w1 w2) name = true ∧
    length name = length (tokenPattern w1 w2) ∧
    Forall (fun c => tokenChar c = true) value.

(** Every code unit below 256. *)
Definition allChars : list ascii := map ascii_of_nat (seq 0 256).

(** Some unit satisfies both items. *)
Definition compatible (p q : ascii → bool) : bool :=
  existsb (fun c => p c && q c) allChars.

(** [pat'] can match at the head of a text whose first units match [pat],
    as far as the two overlap. *)
Fixpoint canBeginAt (pat pat' : list (ascii → bool)) : bool :=
  match pat, pat' with
  | p :: pat, q :: pat' => compatible p q && canBeginAt pat pat'
  | _, _ => true
  end.

(** [pat'] matches at no position inside a text that [pat] matches as a
    whole, whatever follows that text. *)
Definition neverBeginsInside (pat pat' : list (ascii → bool)) : bool :=
  forallb (fun i => negb (canBeginAt (drop i pat) pat'))
          (seq 0 (length pat)).

(** A unit of an identifier around its number: no digit, double quote,
    hyphen or underscore. *)
Definition plain (c : ascii) : bool :=
  negb (d c) && notQuote c && negb (bool_decide (c = "-"%char))
  && negb (bool_decide (c = "_"%char)).

(** The opening of an [id] attribute. *)
Definition idOpening : list ascii := list_ascii_of_string "id=" ++ [dquote].

(** An [id] attribute whose value holds one number of ten to twelve
    digits among plain units. *)
Definition dynamicIdField (v : list ascii) : Prop :=
  ∃ a digits b,
    v = idOpening ++ (a ++ digits ++ b) ++ [dquote] ∧
    Forall (fun c => plain c = true) a ∧
    Forall (fun c => plain c = true) b ∧
    Forall (fun c => d c = true) digits ∧
    (10 ≤ length digits ≤ 12)%nat.

Definition delimitedLeft (pre : list ascii) : Prop :=
  pre = [] ∨ ∃ l b, pre = l ++ [b] ∧ stop b.
Definition delimitedRight (post : list ascii) : Prop :=
  post = [] ∨ ∃ b r, post = b :: r ∧ stop b.

(** A function on texts that works on each side of a delimiter
    separately and keeps the delimiter. *)
Definition splits (f : list ascii → list ascii) : Prop :=
  (∀ pre x, delimitedLeft pre → f (pre ++ x) = f pre ++ f x) ∧
  (∀ x post, delimitedRight post → f (x ++ post) = f x ++ f post) ∧
  (∀ pre, delimitedLeft pre → delimitedLeft (f pre)) ∧
  (∀ post, delimitedRight post → delimitedRight (f post)).

(** The replacements of [normalizeContent], one by one. *)
Definition pass1 := replaceAll isoTimestamp TIMESTAMP.
Definition pass2 := replaceAll epochRun TIMESTAMP.
Definition pass3 := replaceAll (token "session" "id") SESSION_ID.
Definition pass4 := replaceAll (token "csrf" "token") CSRF_TOKEN.
Definition pass5 := replaceAll (token "authenticity" "token") AUTH_TOKEN.
Definition pass6 := replaceAll dynamicId DYNAMIC_ID.
Definition pass7 := replaceAll spaces [" "%char].

(** Two contents that differ in one volatile field only: a timestamp, an
    epoch number, a session, CSRF or authenticity token, or an [id]
    attribute, set off from the text around it. *)
Inductive volatileVariant : list ascii → list ascii → Prop :=
| variant_iso pre v1 v2 post :
    delimitedLeft pre → isoField v1 → isoField v2 →
    volatileVariant (pre ++ v1 ++ post) (pre ++ v2 ++ post)
| variant_epoch pre v1 v2 post :
    delimitedLeft pre → delimitedRight post →
    epochField v1 → epochField v2 →
    volatileVariant (pre ++ v1 ++ post) (pre ++ v2 ++ post)
| variant_session pre v1 v2 post :
    delimitedLeft pre → delimitedRight post →
    tokenField "session" "id" v1 → tokenField "session" "id" v2 →
    volatileVariant (pre ++ v1 ++ post) (pre ++ v2 ++ post)
| variant_csrf pre v1 v2 post :
    delimitedLeft pre → delimitedRight post →
    tokenField "csrf" "token" v1 → tokenField "csrf" "token" v2 →
    volatileVariant (pre ++ v1 ++ post) (pre ++ v2 ++ post)
| variant_authenticity pre v1 v2 post :
    delimitedLeft pre → delimitedRight post →
    tokenField "authenticity" "token" v1 →
    tokenField "authenticity" "token" v2 →
    volatileVariant (pre ++ v1 ++ post) (pre ++ v2 ++ post)
| variant_dynamicId pre v1 v2 post :
    delimitedLeft pre → Forall (fun c => notQuote c = true) pre →
    dynamicIdField v1 → dynamicIdField v2 →
    volatileVariant (pre ++ v1 ++ post) (pre ++ v2 ++ post).

(** The units that end a token, listed. *)
Definition stopChars : list ascii :=
  ["&"%char; dquote; "009"%char; "010"%char; "011"%char; "012"%char;
   "013"%char; " "%char; "160"%char].

(** No item of [pat] accepts a unit that ends a token. *)
Definition rejectsStops (pat : list (ascii → bool)) : bool :=
  forallb (fun p => forallb (fun c => negb (p c)) stopChars) pat.

(** A text of units of the token class. *)
Definition tokenChars (s : list ascii) : Prop :=
  Forall (fun c => tokenChar c = true) s.

(** A unit that no token name, timestamp or attribute opening needs. *)
Definition quiet (c : ascii) : Prop :=
  c ≠ "-"%char ∧ c ≠ "_"%char ∧ c ≠ dquote.

(** The first five replacements together. *)
Definition pass12345 (s : list ascii) : list ascii :=
  pass5 (pass4 (pass3 (pass2 (pass1 s)))).

(** *** White space and static text *)

(** White space in normal form: every white-space unit is a space, and
    none follows another; [afterSpace] tells whether the unit before the
    text is one. *)
Fixpoint tidy (afterSpace : bool) (s : list ascii) : bool :=
  match s with
  | [] => true
  | c :: t =>
      if JS.isSpace c
      then bool_decide (c = " "%char) && negb afterSpace && tidy true t
      else tidy false t
  end.

(** A unit that no timestamp, number or token name is made of: no digit,
    hyphen or underscore. *)
Definition static (c : ascii) : bool :=
  negb (d c) && negb (bool_decide (c = "-"%char))
  && negb (bool_decide (c = "_"%char)).

(** Content made of such units only. *)
Definition allStatic (s : list ascii) : Prop :=
  Forall (fun c => static c = true) s.

End Normalize.

(** ** incrementalSync.ts: the cache and [syncUrl] *)

Module Sync.

Record EntryMetadata := {
  contentLength : Z;
  responseETag : option string;
  responseLastModified : option string
}.

Record CacheEntry := {
  url : string;
  etag : option string;
  lastModified : option string;
  contentHash : string;
  lastChecked : Z;
  lastUpdated : Z;
  hitCount : Z;
  metadata : option EntryMetadata
}.

Inductive ChangeType := added | modified | removed.

Record SignalMetadata := {
  oldETag : option string;
  newETag : option string;
  oldLastModified : option string;
  newLastModified : option string
}.

Record ChangeSignal := {
  sig_url : string;
  changeType : ChangeType;
  detectedAt : Z;
  previousHash : option string;
  currentHash : option string;
  sig_metadata : SignalMetadata
}.

Record Timing := { cacheCheck : Z; download : Z; processing : Z; total : Z }.

Record SyncResult := {
  res_url : string;
  changed : bool;
  cached : bool;
  res_etag : option string;
  res_lastModified : option string;
  res_contentHash : string;
  timing : Timing
}.

Record IncrementalSyncConfig := {
  enableLogging : bool;
  maxCacheAge : Z;
  maxCacheEntries : Z;
  enableETagCaching : bool;
  enableLastModified : bool;
  enableContentHashing : bool;
  forceRefreshInterval : Z
}.

(** The defaults of the constructor. *)
Definition defaultConfig : IncrementalSyncConfig :=
  {| enableLogging := true;
     maxCacheAge := 24 * 60 * 60 * 1000;
     maxCacheEntries := 10000;
     enableETagCaching := true;
     enableLastModified := true;
     enableContentHashing := true;
     forceRefreshInterval := 7 * 24 * 60 * 60 * 1000 |}.

(** *** [Map<string, V>]: keys in insertion order, each once *)

Section JsMap.
Context {V : Type}.

Fixpoint mapGet (k : string) (m : list (string * V)) : option V :=
  match m with
  | [] => None
  | (k', v) :: m' => if bool_decide (k' = k) then Some v else mapGet k m'
  end.

(** [set] keeps the position of a key that is present. *)
Fixpoint mapSet (k : string) (v : V) (m : list (string * V))
  : list (string * V) :=
  match m with
  | [] => [(k, v)]
  | (k', v') :: m' =>
      if bool_decide (k' = k) then (k, v) :: m'
      else (k', v') :: mapSet k v m'
  end.

Definition mapDelete (k : string) (m : list (string * V))
  : list (string * V) :=
  filter (fun kv => kv.1 ≠ k) m.
End JsMap.

(** *** The instance, its storage keys and the clock *)

Record SyncStorage := {
  incrementalSyncCache : option (list CacheEntry);
  storedSignals : option (list (string * list ChangeSignal))
}.

(** [time k] is what the [k]-th call of [Date.now()] returns; [tick] counts
    the calls made so far. *)
Record World := {
  time : nat → Z;
  tick : nat;
  cache : list (string * CacheEntry);
  changeSignals : list (string * list ChangeSignal);
  stored : SyncStorage
}.

(** *** Computations that read the clock, change the instance, or throw *)

Inductive Outcome (A : Type) :=
| Returned (a : A)
| Thrown (message : string).
Arguments Returned {A} a.
Arguments Thrown {A} message.

Definition M (A : Type) : Type := World → Outcome A * World.

#[global] Instance M_ret : MRet M := fun A a w => (Returned a, w).

#[global] Instance M_bind : MBind M := fun A B k c w =>
  match c w with
  | (Returned a, w') => k a w'
  | (Thrown e, w') => (Thrown e, w')
  end.

Definition throw {A} (message : string) : M A := fun w => (Thrown message, w).

(** [try { body } catch (error) { handler }] *)
Definition tryCatch {A} (body : M A) (handler : string → M A) : M A :=
  fun w => match body w with
           | (Returned a, w') => (Returned a, w')
           | (Thrown e, w') => handler e w'
           end.

(** [Date.now()] *)
Definition now : M Z :=
  fun w => (Returned (time w (tick w)),
            {| time := time w; tick := S (tick w); cache := cache w;
               changeSignals := changeSignals w; stored := stored w |}).

Definition getCache : M (list (string * CacheEntry)) :=
  fun w => (Returned (cache w), w).

Definition putCache (c : list (string * CacheEntry)) : M unit :=
  fun w => (Returned tt,
            {| time := time w; tick := tick w; cache := c;
               changeSignals := changeSignals w; stored := stored w |}).

Definition getSignals : M (list (string * list ChangeSignal)) :=
  fun w => (Returned (changeSignals w), w).

Definition putSignals (s : list (string * list ChangeSignal)) : M unit :=
  fun w => (Returned tt,
            {| time := time w; tick := tick w; cache := cache w;
               changeSignals := s; stored := stored w |}).

Definition putStored (st : SyncStorage) : M unit :=
  fun w => (Returned tt,
            {| time := time w; tick := tick w; cache := cache w;
               changeSignals := changeSignals w; stored := st |}).

Definition getStored : M SyncStorage := fun w => (Returned (stored w), w).

(** *** The network *)

Record Request := {
  req_url : string;
  ifNoneMatch : option string;
  ifModifiedSince : option string
}.

(** A [Response]: [hdrETag] and [hdrLastModified] are what
    [headers.get] returns, [body] what [text()] resolves to, [None] when it
    rejects. *)
Record Response := {
  status : Z;
  statusText : string;
  hdrETag : option string;
  hdrLastModified : option string;
  body : option (list ascii)
}.

Inductive FetchOutcome :=
| Rejected (message : string)
| Responded (response : Response).

(** [response.ok] *)
Definition ok (r : Response) : bool := (200 <=? status r) && (status r <=? 299).

(** The truth value of an optional string: [undefined], [null] and the
    empty string are falsy. *)
Definition truthy (o : option string) : bool :=
  match o with
  | Some s => negb (String.eqb s EmptyString)
  | None => false
  end.

(** [x || undefined] *)
Definition orUndefined (o : option string) : option string :=
  if truthy o then o else None.

Record FetchResult := {
  content : list ascii;
  fr_etag : option string;
  fr_lastModified : option string;
  notModified : bool
}.

Section Instance.

(** [crypto.subtle.digest('SHA-256', ...)] over the encoded text,
    rendered in hexadecimal; [None] when the platform call throws. *)
Variable sha256Hex : list ascii → option string.

Variable config : IncrementalSyncConfig.

(** [shouldRefreshUrl] *)
Definition shouldRefreshUrl (url : string) (cacheEntry : option CacheEntry)
    (forceRefresh : bool) : M bool :=
  if forceRefresh then mret true
  else match cacheEntry with
       | None => mret true
       | Some cacheEntry =>
           now_ ← now;
           let age := now_ - lastUpdated cacheEntry in
           if age >? maxCacheAge config then mret true
           else if age >? forceRefreshInterval config then mret true
           else mret false
       end.

(** The conditional headers that [conditionalFetch] sends. *)
Definition conditionalHeaders (url : string)
    (cacheEntry : option CacheEntry) : Request :=
  {| req_url := url;
     ifNoneMatch :=
       match cacheEntry with
       | Some e => if enableETagCaching config && truthy (etag e)
                   then etag e else None
       | None => None
       end;
     ifModifiedSince :=
       match cacheEntry with
       | Some e => if enableLastModified config && truthy (lastModified e)
                   then lastModified e else None
       | None => None
       end |}.

(** [conditionalFetch]; its own [catch] logs and rethrows. *)
Definition conditionalFetch (fetch : Request → FetchOutcome) (url : string)
    (cacheEntry : option CacheEntry) : M FetchResult :=
  let headers := conditionalHeaders url cacheEntry in
  match fetch headers with
  | Rejected message => throw message
  | Responded response =>
      if status response =? 304 then
        mret {| content := [];
                fr_etag := cacheEntry ≫= etag;
                fr_lastModified := cacheEntry ≫= lastModified;
                notModified := true |}
      else if negb (ok response) then
        throw ("HTTP " ++ JS.show (status response) ++ ": "
               ++ statusText response)%string
      else
        match body response with
        | None => throw "text() rejected"
        | Some content =>
            mret {| content := content;
                    fr_etag := orUndefined (hdrETag response);
                    fr_lastModified := orUndefined (hdrLastModified response);
                    notModified := false |}
        end
  end.

(** [generateContentHash] *)
Definition generateContentHash (content : list ascii) : M string :=
  if negb (enableContentHashing config) then
    now_ ← now; mret ("no-hash-" ++ JS.show now_)%string
  else
    let normalizedContent := Normalize.normalizeContent content in
    match sha256Hex normalizedContent with
    | Some hex => mret hex
    | None =>
        now_ ← now;
        mret ("fallback-" ++ JS.show (Z.of_nat (length content)) ++ "-"
              ++ JS.show now_)%string
    end.

(** [createCacheEntry] *)
Definition createCacheEntry (url : string) (fetchResult : FetchResult)
    (contentHash : string) : M CacheEntry :=
  now_ ← now;
  mret {| url := url;
          etag := fr_etag fetchResult;
          lastModified := fr_lastModified fetchResult;
          contentHash := contentHash;
          lastChecked := now_;
          lastUpdated := now_;
          hitCount := 0;
          metadata :=
            Some {| contentLength := Z.of_nat (length (content fetchResult));
                    responseETag := fr_etag fetchResult;
                    responseLastModified := fr_lastModified fetchResult |} |}.

Definition differ (a b : option string) : bool :=
  truthy a && truthy b && negb (bool_decide (a = b)).

(** [detectChanges] *)
Definition detectChanges (oldEntry : option CacheEntry)
    (newEntry : CacheEntry) : bool :=
  match oldEntry with
  | None => true
  | Some oldEntry =>
      if negb (String.eqb (contentHash oldEntry) (contentHash newEntry))
      then true
      else if differ (etag oldEntry) (etag newEntry) then true
      else if differ (lastModified oldEntry) (lastModified newEntry)
      then true
      else false
  end.

(** [saveCache] and [saveChangeSignals] *)
Definition saveCache : M unit :=
  c ← getCache; st ← getStored;
  putStored {| incrementalSyncCache := Some (map snd c);
               storedSignals := storedSignals st |}.

Definition saveChangeSignals : M unit :=
  sg ← getSignals; st ← getStored;
  putStored {| incrementalSyncCache := incrementalSyncCache st;
               storedSignals := Some sg |}.

(** [recordChangeSignal] *)
Definition recordChangeSignal (url : string) (oldEntry : option CacheEntry)
    (newEntry : CacheEntry) : M unit :=
  detected ← now;
  let changeSignal :=
    {| sig_url := url;
       changeType := if oldEntry is Some _ then modified else added;
       detectedAt := detected;
       previousHash := contentHash <$> oldEntry;
       currentHash := Some (contentHash newEntry);
       sig_metadata :=
         {| oldETag := oldEntry ≫= etag;
            newETag := etag newEntry;
            oldLastModified := oldEntry ≫= lastModified;
            newLastModified := lastModified newEntry |} |} in
  sg ← getSignals;
  let signals := (default [] (mapGet url sg) ++ [changeSignal])%list in
  let signals :=
    if (100 <? length signals)%nat
    then drop (length signals - 100) signals else signals in
  putSignals (mapSet url signals sg);;
  saveChangeSignals.

(** [Array.prototype.slice(0, n)] *)
Definition sliceTo {A} (n : Z) (l : list A) : list A :=
  if n <? 0 then take (length l - Z.to_nat (- n)) l else take (Z.to_nat n) l.

Fixpoint insertByLastChecked (x : string * CacheEntry)
    (l : list (string * CacheEntry)) : list (string * CacheEntry) :=
  match l with
  | [] => [x]
  | y :: l' =>
      if lastChecked x.2 <=? lastChecked y.2 then x :: l
      else y :: insertByLastChecked x l'
  end.

(** [cleanupCache] *)
Definition cleanupCache : M unit :=
  c ← getCache;
  let entries := foldr insertByLastChecked [] c in
  let toRemove :=
    sliceTo (Z.of_nat (length entries) - maxCacheEntries config + 1000)
            entries in
  putCache (fold_left (fun c kv => mapDelete kv.1 c) toRemove c);;
  saveCache.

(** [updateCacheEntry] *)
Definition updateCacheEntry (url : string) (entry : CacheEntry) : M unit :=
  c ← getCache;
  putCache (mapSet url entry c);;
  c ← getCache;
  (if Z.of_nat (length c) >? maxCacheEntries config
   then cleanupCache else mret tt);;
  saveCache.

(** [getCacheEntry] *)
Definition getCacheEntry (url : string) : M (option CacheEntry) :=
  c ← getCache; mret (mapGet url c).

(** [cacheEntry.hitCount++; cacheEntry.lastChecked = Date.now()] *)
Definition touch (cacheEntry : CacheEntry) (now_ : Z) : CacheEntry :=
  {| url := url cacheEntry; etag := etag cacheEntry;
     lastModified := lastModified cacheEntry;
     contentHash := contentHash cacheEntry;
     lastChecked := now_; lastUpdated := lastUpdated cacheEntry;
     hitCount := hitCount cacheEntry + 1;
     metadata := metadata cacheEntry |}.

(** [syncUrl].  Only [conditionalFetch] can throw, and the local
    variables [downloadTime] and [processingTime] still hold 0 when it
    does. *)
Definition syncUrl (fetch : Request → FetchOutcome) (url : string)
    (forceRefresh : bool) : M SyncResult :=
  startTime ← now;
  cacheStart ← now;
  cacheEntry ← getCacheEntry url;
  shouldRefresh ← shouldRefreshUrl url cacheEntry forceRefresh;
  cacheEnd ← now;
  let cacheCheckTime := cacheEnd - cacheStart in
  tryCatch
    (match shouldRefresh, cacheEntry with
     | false, Some cacheEntry =>
         checked ← now;
         let cacheEntry := touch cacheEntry checked in
         updateCacheEntry url cacheEntry;;
         finish ← now;
         mret {| res_url := url; changed := false; cached := true;
                 res_etag := etag cacheEntry;
                 res_lastModified := lastModified cacheEntry;
                 res_contentHash := contentHash cacheEntry;
                 timing := {| cacheCheck := cacheCheckTime; download := 0;
                              processing := 0;
                              total := finish - startTime |} |}
     | _, _ =>
         downloadStart ← now;
         fetchResult ← conditionalFetch fetch url cacheEntry;
         downloadEnd ← now;
         let downloadTime := downloadEnd - downloadStart in
         match notModified fetchResult, cacheEntry with
         | true, Some cacheEntry =>
             checked ← now;
             let cacheEntry := touch cacheEntry checked in
             updateCacheEntry url cacheEntry;;
             finish ← now;
             mret {| res_url := url; changed := false; cached := true;
                     res_etag := etag cacheEntry;
                     res_lastModified := lastModified cacheEntry;
                     res_contentHash := contentHash cacheEntry;
                     timing := {| cacheCheck := cacheCheckTime;
                                  download := downloadTime;
                                  processing := 0;
                                  total := finish - startTime |} |}
         | _, _ =>
             processingStart ← now;
             contentHash_ ← generateContentHash (content fetchResult);
             newCacheEntry ← createCacheEntry url fetchResult contentHash_;
             processingEnd ← now;
             let processingTime := processingEnd - processingStart in
             let hasChanged := detectChanges cacheEntry newCacheEntry in
             updateCacheEntry url newCacheEntry;;
             (if hasChanged
              then recordChangeSignal url cacheEntry newCacheEntry
              else mret tt);;
             finish ← now;
             mret {| res_url := url; changed := hasChanged; cached := false;
                     res_etag := etag newCacheEntry;
                     res_lastModified := lastModified newCacheEntry;
                     res_contentHash := contentHash_;
                     timing := {| cacheCheck := cacheCheckTime;
                                  download := downloadTime;
                                  processing := processingTime;
                                  total := finish - startTime |} |}
         end
     end)
    (fun error =>
       finish ← now;
       mret {| res_url := url; changed := false; cached := false;
               res_etag := None; res_lastModified := None;
               res_contentHash := EmptyString;
               timing := {| cacheCheck := cacheCheckTime; download := 0;
                            processing := 0;
                            total := finish - startTime |} |}).

(** Whether a call of [syncUrl] goes to the network rather than answer
    from the cache: the test [!shouldRefresh && cacheEntry] fails.  The
    clock reading of [shouldRefreshUrl], when it makes one, is the third
    of the call. *)
Definition goesToNetwork (url : string) (forceRefresh : bool) (w : World)
  : bool :=
  match mapGet url (cache w) with
  | None => true
  | Some e =>
      forceRefresh ||
      let age := time w (2 + tick w) - lastUpdated e in
      (age >? maxCacheAge config) || (age >? forceRefreshInterval config)
  end.

End Instance.

(** The fetch, or the handling of its response, raises an error:
    [fetch] rejects, the status is neither 304 nor in the 2xx range, or
    [text()] rejects. *)
Definition raises (o : FetchOutcome) : Prop :=
  match o with
  | Rejected _ => True
  | Responded r => status r ≠ 304 ∧ (ok r = false ∨ body r = None)
  end.

(** A computation that comes back with a value from every state. *)
Definition returns {A} (c : M A) : Prop :=
  ∀ w, ∃ a w', c w = (Returned a, w').

Local Open Scope list_scope.

(** The state after [n] more readings of the clock. *)
Definition advance (n : nat) (w : World) : World :=
  {| time := time w; tick := n + tick w; cache := cache w;
     changeSignals := changeSignals w; stored := stored w |}.


(** *** Concrete inputs *)

Definition hour : Z := 60 * 60 * 1000.

(** A clock that reads 0 for ten readings, then 23 h for six, then 25 h. *)
Definition clock3 (k : nat) : Z :=
  if (k <? 10)%nat then 0 else if (k <? 16)%nat then 23 * hour else 25 * hour.

Definition emptyWorld (time : nat → Z) : World :=
  {| time := time; tick := 0; cache := []; changeSignals := [];
     stored := {| incrementalSyncCache := None; storedSignals := None |} |}.

Definition page : list ascii := list_ascii_of_string "<html>hello</html>".

Definition firstResponse (_ : Request) : FetchOutcome :=
  Responded {| status := 200; statusText := "OK"; hdrETag := Some "v1";
               hdrLastModified := None; body := Some page |}.

Definition notModifiedResponse (_ : Request) : FetchOutcome :=
  Responded {| status := 304; statusText := "Not Modified"; hdrETag := None;
               hdrLastModified := None; body := Some [] |}.

(** A digest for evaluations: the text itself, so that distinct texts have
    distinct digests, as is taken of SHA-256. *)
Definition sampleDigest (s : list ascii) : option string :=
  Some (string_of_list_ascii s).

Definition url0 : string := "https://canvas.example/courses/1".

(** The refresh test as the specification words it: the force flag, no
    entry, [now - lastChecked > maxCacheAge], or
    [now - lastUpdated > forceRefreshInterval]. *)
Definition shouldRefreshStated (config : IncrementalSyncConfig)
    (cacheEntry : option CacheEntry) (forceRefresh : bool) (now_ : Z) : bool :=
  forceRefresh ||
  match cacheEntry with
  | None => true
  | Some e =>
      (now_ - lastChecked e >? maxCacheAge config)
      || (now_ - lastUpdated e >? forceRefreshInterval config)
  end.

(** A server that answers 200 with [content] and the ETag [tag]. *)
Definition serve (content : list ascii) (tag : string) (_ : Request)
  : FetchOutcome :=
  Responded {| status := 200; statusText := "OK"; hdrETag := Some tag;
               hdrLastModified := None; body := Some content |}.

(** A network that is down. *)
Definition unreachable (_ : Request) : FetchOutcome :=
  Rejected "Failed to fetch".

(** The state after a first sync of [url0] at time 0, which downloads
    [page], and a second one at 23 h, which is answered from the cache. *)
Definition afterFirstSync : World :=
  (syncUrl sampleDigest defaultConfig firstResponse url0 false
     (emptyWorld clock3)).2.

Definition afterSecondSync : World :=
  (syncUrl sampleDigest defaultConfig firstResponse url0 false
     afterFirstSync).2.

(** A configuration with content hashing switched off. *)
Definition withoutHashing : IncrementalSyncConfig :=
  {| enableLogging := true; maxCacheAge := maxCacheAge defaultConfig;
     maxCacheEntries := maxCacheEntries defaultConfig;
     enableETagCaching := true; enableLastModified := true;
     enableContentHashing := false;
     forceRefreshInterval := forceRefreshInterval defaultConfig |}.

(** A clock that advances by one millisecond at each reading. *)
Definition ticking (k : nat) : Z := Z.of_nat k.

(** Two pages that differ in the value of a session token only. *)
Definition sessionPage (value : string) : list ascii :=
  (list_ascii_of_string "<a href=" ++ [Normalize.dquote])
  ++ list_ascii_of_string ("session_id=" ++ value)
  ++ (Normalize.dquote :: list_ascii_of_string ">next</a>").

(** A form field that carries a token in its [value] attribute, and the
    same field with the name of the token replaced and the value kept. *)
Definition tokenInput (value : string) : list ascii :=
  list_ascii_of_string "<input name=" ++ [Normalize.dquote]
  ++ list_ascii_of_string "authenticity_token" ++ [Normalize.dquote]
  ++ list_ascii_of_string " value=" ++ [Normalize.dquote]
  ++ list_ascii_of_string value
  ++ (Normalize.dquote :: list_ascii_of_string ">").

Definition tokenInputReplaced (value : string) : list ascii :=
  list_ascii_of_string "<input name=" ++ [Normalize.dquote]
  ++ list_ascii_of_string "AUTH_TOKEN" ++ [Normalize.dquote]
  ++ list_ascii_of_string " value=" ++ [Normalize.dquote]
  ++ list_ascii_of_string value
  ++ (Normalize.dquote :: list_ascii_of_string ">").

(** The state after a first sync of [url0] that downloads the form field
    with the token value [abc123] under the ETag [v1]. *)
Definition afterTokenSync : World :=
  (syncUrl sampleDigest defaultConfig (serve (tokenInput "abc123") "v1")
     url0 false (emptyWorld ticking)).2.

(** Two texts that differ in a run of thirteen digits only, which follows
    a digit, a colon and the rest of a timestamp. *)
Definition stampedRun (digits : string) : list ascii :=
  list_ascii_of_string ("2024-01-01T00:00:0" ++ digits).

(** An [id] attribute whose value is [prefix] and a number of thirteen
    digits. *)
Definition idAttribute (prefix : string) : list ascii :=
  Normalize.idOpening
  ++ list_ascii_of_string (prefix ++ "1700000000000")
  ++ [Normalize.dquote].

(** The state after a first sync of [url0] that downloads the session page
    with the token value [abc123] under the ETag [v1]. *)
Definition afterSessionSync : World :=
  (syncUrl sampleDigest defaultConfig (serve (sessionPage "abc123") "v1")
     url0 false (emptyWorld ticking)).2.

(** The keys of the cache are distinct, as those of a [Map] are. *)
Definition distinctKeys {V} (m : list (string * V)) : Prop :=
  NoDup (map fst m).

(** [a] was checked no later than [b]. *)
Definition checkedBefore (a b : string * CacheEntry) : Prop :=
  lastChecked a.2 ≤ lastChecked b.2.


(** *** Planning a recrawl *)

(** The URLs, in the order of the map, with a signal detected after
    [sinceTime]: the loop of [getChangedUrls]. *)
Definition changedSince (sinceTime : Z)
    (sg : list (string * list ChangeSignal)) : list string :=
  map fst
    (filter (fun us => existsb (fun signal => detectedAt signal >? sinceTime)
                               us.2 = true) sg).

(** [getChangedUrls]; a [since] that is missing or zero is falsy and is
    replaced by the clock reading less 24 hours. *)
Definition getChangedUrls (since : option Z) : M (list string) :=
  sinceTime ← match since with
              | Some t => if t =? 0
                          then n ← now; mret (n - 24 * 60 * 60 * 1000)
                          else mret t
              | None => n ← now; mret (n - 24 * 60 * 60 * 1000)
              end;
  sg ← getSignals;
  mret (changedSince sinceTime sg).

Record PlanItem := {
  plan_url : string;
  plan_priority : Z;
  plan_reason : string
}.

(** [Math.round(x / y)] for integral [x] and positive [y]: halves go
    up. *)
Definition roundDiv (x y : Z) : Z := (2 * x + y) / (2 * y).

Definition recentItem (url : string) : PlanItem :=
  {| plan_url := url; plan_priority := 10;
     plan_reason := "Recent content changes detected" |}.

(** The second loop of [planTargetedRecrawl], over the cache. *)
Definition expiredItems (config : IncrementalSyncConfig) (now_ : Z)
    (c : list (string * CacheEntry)) : list PlanItem :=
  omap (fun kv : string * CacheEntry =>
          let timeSinceCheck := now_ - lastChecked kv.2 in
          if timeSinceCheck >? maxCacheAge config
          then Some {| plan_url := kv.1; plan_priority := 5;
                       plan_reason :=
                         "Cache expired ("
                         ++ JS.show (roundDiv timeSinceCheck (60 * 60 * 1000))
                         ++ " hours old)" |}
          else None) c.

Fixpoint insertByPriority (x : PlanItem) (l : list PlanItem)
  : list PlanItem :=
  match l with
  | [] => [x]
  | y :: l' =>
      if plan_priority y - plan_priority x <=? 0 then x :: l
      else y :: insertByPriority x l'
  end.

(** [planTargetedRecrawl]; the sort is stable. *)
Definition planTargetedRecrawl (config : IncrementalSyncConfig)
  : M (list PlanItem) :=
  t ← now;
  recentChanges ← getChangedUrls (Some (t - 60 * 60 * 1000));
  let high := map recentItem recentChanges in
  now_ ← now;
  c ← getCache;
  let recrawlPlan := high ++ expiredItems config now_ c in
  mret (foldr insertByPriority [] recrawlPlan).

(** *** Starting over *)

(** A canonical array index: the decimal numeral of a number below
    [2^32 - 1].  Such keys come first, in numeric order, when the
    properties of an object are listed. *)
Definition arrayIndex (key : string) : option Z :=
  let cs := list_ascii_of_string key in
  let n := fold_left (fun acc c => 10 * acc + (Z.of_nat (nat_of_ascii c) - 48))
                     cs 0 in
  if forallb JS.isDigit cs && String.eqb (JS.show n) key
     && (n <? 2 ^ 32 - 1)
  then Some n else None.

Section ObjectEntries.
Context {V : Type}.

Fixpoint insertByIndex (x : Z * (string * V)) (l : list (Z * (string * V)))
  : list (Z * (string * V)) :=
  match l with
  | [] => [x]
  | y :: l' => if x.1 <=? y.1 then x :: l else y :: insertByIndex x l'
  end.

(** [Object.entries] of an object whose string keys were created in the
    order of [o]. *)
Definition objectEntries (o : list (string * V)) : list (string * V) :=
  let indexed := omap (fun kv => (fun n => (n, kv)) <$> arrayIndex kv.1) o in
  map snd (foldr insertByIndex [] indexed)
  ++ filter (fun kv => arrayIndex kv.1 = None) o.

End ObjectEntries.

(** [loadCache]; reading the storage succeeds. *)
Definition loadCache : M unit :=
  st ← getStored;
  (match incrementalSyncCache st with
   | Some entries =>
       c ← getCache;
       putCache (fold_left (fun c entry => mapSet (url entry) entry c)
                           entries c)
   | None => mret tt
   end);;
  match storedSignals st with
  | Some o =>
      sg ← getSignals;
      putSignals (fold_left (fun sg us => mapSet us.1 us.2 sg)
                            (objectEntries o) sg)
  | None => mret tt
  end.

(** [new IncrementalSync()] over what storage holds, with the clock of the
    new process, once the [loadCache] that the constructor starts has
    run. *)
Definition construct (time : nat → Z) (st : SyncStorage) : World :=
  (loadCache {| time := time; tick := 0; cache := []; changeSignals := [];
                stored := st |}).2.

(** [clearAll] *)
Definition clearAll : M unit :=
  putCache [];; putSignals [];;
  putStored {| incrementalSyncCache := None; storedSignals := None |}.

(** Every entry is filed under its own URL. *)
Definition keyedByUrl (c : list (string * CacheEntry)) : Prop :=
  Forall (fun kv => url kv.2 = kv.1) c.

(** What the calls keep of an instance: the cache has distinct keys,
    each entry under its own URL, within the ceiling; the signal map has
    distinct keys and at most a hundred signals for each; and storage holds
    the entries of the cache in their order and the signal lists of the
    map. *)
Definition coherent (config : IncrementalSyncConfig) (w : World) : Prop :=
  distinctKeys (cache w) ∧ keyedByUrl (cache w) ∧
  Z.of_nat (length (cache w)) ≤ maxCacheEntries config ∧
  distinctKeys (changeSignals w) ∧
  Forall (fun us => (length us.2 ≤ 100)%nat) (changeSignals w) ∧
  default [] (incrementalSyncCache (stored w)) = map snd (cache w) ∧
  default [] (storedSignals (stored w)) ≡ₚ changeSignals w.

(** A computation that keeps [P], whether it returns or throws. *)
Definition keeps (P : World → Prop) {A} (c : M A) : Prop :=
  ∀ w o w', P w → c w = (o, w') → P w'.

(** A computation that keeps [P] and returns only values with [Q]. *)
Definition yields (P : World → Prop) {A} (c : M A) (Q : A → Prop) : Prop :=
  ∀ w o w', P w → c w = (o, w') → P w' ∧ ∀ a, o = Returned a → Q a.

(** One call on the instance. *)
Inductive step (sha256Hex : list ascii → option string)
    (config : IncrementalSyncConfig) (w : World) : World → Prop :=
| step_syncUrl fetch url force :
    step sha256Hex config w (syncUrl sha256Hex config fetch url force w).2
| step_planTargetedRecrawl :
    step sha256Hex config w (planTargetedRecrawl config w).2
| step_getChangedUrls since :
    step sha256Hex config w (getChangedUrls since w).2
| step_clearAll :
    step sha256Hex config w (clearAll w).2.

(** A configuration whose cache may hold nothing. *)
Definition noRoom : IncrementalSyncConfig :=
  {| enableLogging := true; maxCacheAge := maxCacheAge defaultConfig;
     maxCacheEntries := 0; enableETagCaching := true;
     enableLastModified := true; enableContentHashing := true;
     forceRefreshInterval := forceRefreshInterval defaultConfig |}.

(** The entry that the first sync of [url0] leaves in the cache. *)
Definition firstEntry : CacheEntry :=
  {| url := url0; etag := Some "v1"; lastModified := None;
     contentHash := "<html>hello</html>"; lastChecked := 0;
     lastUpdated := 0; hitCount := 0;
     metadata := Some {| contentLength := 18; responseETag := Some "v1";
                         responseLastModified := None |} |}.

End Sync.

(** ** scheduler.ts *)

Module Scheduler.

Inductive Status := running | completed | failed | cancelled.

#[global] Instance Status_eq_dec : EqDecision Status.
Proof. solve_decision. Defined.

Record CrawlSession := {
  id : string;
  startTime : Z;
  endTime : option Z;
  status : Status;
  tasksScheduled : Z;
  tasksCompleted : Z;
  tasksFailed : Z;
  error : option string
}.

Inductive SyncFrequency := startup_only | hourly | daily | manual.

Record SchedulerConfig := {
  enabled : bool;
  syncFrequency : SyncFrequency;
  crawlDelayMs : Z;
  maxCrawlDurationMs : Z;
  enableIncrementalSync : bool
}.

(** The instance, the singletons and storage keys it works on, and the
    clock ([time] and [tick] as in [Sync.World]).  [crawlSessions] is the
    session history in [chrome.storage.local], [lastCrawl] the field of the
    student index that [endCrawlSession] updates. *)
Record State := {
  currentSession : option CrawlSession;
  isRunning : bool;
  config : SchedulerConfig;
  crawlSessions : option (list CrawlSession);
  lastCrawl : option Z;
  queueManager : Queue.World;
  time : nat → Z;
  tick : nat
}.

Definition withSession (s : State) (c : option CrawlSession) : State :=
  {| currentSession := c; isRunning := isRunning s; config := config s;
     crawlSessions := crawlSessions s; lastCrawl := lastCrawl s;
     queueManager := queueManager s; time := time s; tick := tick s |}.

Definition withRunning (s : State) (b : bool) : State :=
  {| currentSession := currentSession s; isRunning := b; config := config s;
     crawlSessions := crawlSessions s; lastCrawl := lastCrawl s;
     queueManager := queueManager s; time := time s; tick := tick s |}.

Definition withQueue (s : State) (q : Queue.World) : State :=
  {| currentSession := currentSession s; isRunning := isRunning s;
     config := config s; crawlSessions := crawlSessions s;
     lastCrawl := lastCrawl s; queueManager := q; time := time s;
     tick := tick s |}.

(** [Date.now()] *)
Definition now (s : State) : Z * State :=
  (time s (tick s),
   {| currentSession := currentSession s; isRunning := isRunning s;
      config := config s; crawlSessions := crawlSessions s;
      lastCrawl := lastCrawl s; queueManager := queueManager s;
      time := time s; tick := S (tick s) |}).

(** [saveCrawlSession]: push, then keep the last ten. *)
Definition saveCrawlSession (s : State) : State :=
  match currentSession s with
  | None => s
  | Some session =>
      let sessions := (default [] (crawlSessions s) ++ [session])%list in
      let sessions :=
        if (10 <? length sessions)%nat
        then drop (length sessions - 10) sessions else sessions in
      {| currentSession := currentSession s; isRunning := isRunning s;
         config := config s; crawlSessions := Some sessions;
         lastCrawl := lastCrawl s; queueManager := queueManager s;
         time := time s; tick := tick s |}
  end.

(** [endCrawlSession]; an empty [error] is falsy and leaves the field. *)
Definition endCrawlSession (st : Status) (err : option string) (s : State)
  : State :=
  match currentSession s with
  | None => s
  | Some session =>
      let '(ended, s) := now s in
      let session :=
        {| id := id session; startTime := startTime session;
           endTime := Some ended; status := st;
           tasksScheduled := tasksScheduled session;
           tasksCompleted := tasksCompleted session;
           tasksFailed := tasksFailed session;
           error := if Sync.truthy err then err else error session |} in
      let s := withRunning (withSession s (Some session)) false in
      let s := saveCrawlSession s in
      let '(crawled, s) := now s in
      let s :=
        {| currentSession := currentSession s; isRunning := isRunning s;
           config := config s; crawlSessions := crawlSessions s;
           lastCrawl := Some crawled; queueManager := queueManager s;
           time := time s; tick := tick s |} in
      withSession s None
  end.

Definition bumpScheduled (s : State) : State :=
  match currentSession s with
  | Some session =>
      withSession s
        (Some {| id := id session; startTime := startTime session;
                 endTime := endTime session; status := status session;
                 tasksScheduled := tasksScheduled session + 1;
                 tasksCompleted := tasksCompleted session;
                 tasksFailed := tasksFailed session;
                 error := error session |})
  | None => s
  end.

(** [queueManager.addTask] with the scheduler's clock: the readings of
    [generateTaskId], [createdAt] and [saveQueue], in that order. *)
Definition addTask (task : Queue.TaskInput.t) (s : State) : State :=
  let '(tId, s) := now s in
  let '(tCreated, s) := now s in
  let '(tSaved, s) := now s in
  withQueue s (snd (Queue.addTask tId tCreated tSaved task (queueManager s))).

Definition seed (type : Queue.TaskType) (url : string) (priority : Z)
    (scheduledFor : Z) : Queue.TaskInput.t :=
  {| Queue.TaskInput.type := type; Queue.TaskInput.url := url;
     Queue.TaskInput.courseId := None;
     Queue.TaskInput.priority := priority;
     Queue.TaskInput.maxRetries := 3;
     Queue.TaskInput.scheduledFor := inject_Z scheduledFor;
     Queue.TaskInput.lastAttempt := None; Queue.TaskInput.error := None;
     Queue.TaskInput.metadata := None |}.

(** [scheduleInitialTasks]; [hosts] is [configManager.getHosts()].  The
    result is the message of the error thrown, if one is. *)
Definition scheduleInitialTasks (hosts : list string) (s : State)
  : option string * State :=
  match currentSession s with
  | None => (None, s)
  | Some _ =>
      match hosts with
      | [] => (Some "No Canvas hosts configured", s)
      | primaryHost :: _ =>
          let '(t, s) := now s in
          let s := addTask (seed Queue.dashboard
                              (primaryHost ++ "/dashboard")%string 10 t) s in
          let s := bumpScheduled s in
          let '(t, s) := now s in
          let s := addTask (seed Queue.course_list
                              (primaryHost ++ "/courses")%string 9
                              (t + 1000)) s in
          let s := bumpScheduled s in
          (None, s)
      end
  end.

(** What [authManager.performAuthProbe()] comes back with. *)
Inductive AuthProbe :=
| Authenticated
| NotAuthenticated
| ProbeFailed (message : string).

(** The first lines of [startCrawlSession], up to its first [await]: the
    check of the guard and its setting. *)
Definition enterStart (s : State) : Sync.Outcome unit * State :=
  if isRunning s then (Sync.Thrown "Crawl session already running", s)
  else (Sync.Returned tt, withRunning s true).

(** The [catch] block of [startCrawlSession]. *)
Definition startFailed (message : string) (s : State)
  : Sync.Outcome string * State :=
  let s := withRunning s false in
  let s := match currentSession s with
           | Some _ => endCrawlSession failed (Some message) s
           | None => s
           end in
  (Sync.Thrown message, s).

(** [startCrawlSession] from the return of the auth probe up to the call of
    [monitorCrawlProgress], whose loop is [monitorTick] below; the session
    id is what the call returns once that loop ends. *)
Definition resumeStart (auth : AuthProbe) (hosts : list string) (s : State)
  : Sync.Outcome string * State :=
  match auth with
  | ProbeFailed message => startFailed message s
  | NotAuthenticated =>
      startFailed "User not authenticated" (withRunning s false)
  | Authenticated =>
      let '(t, s) := now s in
      let sessionId := ("crawl_" ++ JS.show t)%string in
      let '(started, s) := now s in
      let s := withSession s
                 (Some {| id := sessionId; startTime := started;
                          endTime := None; status := running;
                          tasksScheduled := 0; tasksCompleted := 0;
                          tasksFailed := 0; error := None |}) in
      match scheduleInitialTasks hosts s with
      | (Some message, s) => startFailed message s
      | (None, s) => (Sync.Returned sessionId, s)
      end
  end.

Definition startCrawlSession (auth : AuthProbe) (hosts : list string)
    (s : State) : Sync.Outcome string * State :=
  match enterStart s with
  | (Sync.Thrown message, s) => (Sync.Thrown message, s)
  | (Sync.Returned _, s) => resumeStart auth hosts s
  end.

(** One turn of the loop of [monitorCrawlProgress], from the test of the
    [while] to the 2-second sleep; [monitorStart] is the loop's local
    [startTime].  [true] when the loop goes on.  A missing session makes
    the assignment to its field throw, into the [catch] block of the
    [startCrawlSession] that awaits the loop. *)
Definition monitorTick (monitorStart : Z) (s : State) : bool * State :=
  let maxDuration := maxCrawlDurationMs (config s) in
  if negb (isRunning s) then (false, s)
  else
    let '(t, s) := now s in
    if negb (t - monitorStart <? maxDuration) then (false, s)
    else
      match currentSession s with
      | None =>
          (false, snd (startFailed "TypeError: this.currentSession is null" s))
      | Some session =>
          let stats := Queue.getStats (Queue.mgr (queueManager s)) in
          let session :=
            {| id := id session; startTime := startTime session;
               endTime := endTime session; status := status session;
               tasksScheduled := tasksScheduled session;
               tasksCompleted := Queue.stat_completed stats;
               tasksFailed := Queue.stat_failed stats;
               error := error session |} in
          let s := withSession s (Some session) in
          if (Queue.pending stats =? 0) && (Queue.stat_running stats =? 0)
          then (false, endCrawlSession completed None s)
          else
            let '(t, s) := now s in
            if t - monitorStart >=? maxDuration
            then (false, endCrawlSession cancelled
                           (Some "Session timed out") s)
            else (true, s)
      end.

(** [cancelCrawl] *)
Definition cancelCrawl (s : State) : State :=
  match currentSession s with
  | Some _ => endCrawlSession cancelled (Some "Cancelled by user") s
  | None => s
  end.

Local Open Scope list_scope.

(** *** Executions *)

Inductive step (s : State) : State → Prop :=
| step_enter : step s (enterStart s).2
| step_resume auth hosts : step s (resumeStart auth hosts s).2
| step_monitor monitorStart : step s (monitorTick monitorStart s).2
| step_cancel : step s (cancelCrawl s)
| step_queue q : Queue.step (queueManager s) q → step s (withQueue s q).

(** Every session record there is: the current one and the saved ones. *)
Definition records (s : State) : list CrawlSession :=
  option_list (currentSession s) ++ default [] (crawlSessions s).

Definition historyEnded (s : State) : Prop :=
  Forall (fun c => status c ≠ running) (default [] (crawlSessions s)).

Definition defaultSchedulerConfig : SchedulerConfig :=
  {| enabled := true; syncFrequency := startup_only; crawlDelayMs := 1000;
     maxCrawlDurationMs := 300000; enableIncrementalSync := true |}.

Definition initial : State :=
  {| currentSession := None; isRunning := false;
     config := defaultSchedulerConfig; crawlSessions := None;
     lastCrawl := None;
     queueManager := Queue.construct Queue.defaultConcurrencyConfig Queue.emptyStorage;
     time := fun k => 1000 + Z.of_nat k; tick := 0 |}.

(** The state in which a start call has seeded the queue for one host. *)
Definition started : State :=
  (resumeStart Authenticated ["https://canvas.example"]
     (enterStart initial).2).2.

(** The start call of [started] has gone through one turn of its
    monitoring loop and sleeps; [cancelCrawl] has ended its session; a
    second start call has passed the guard and awaits its auth probe. *)
Definition secondEntered : State :=
  (enterStart (cancelCrawl (monitorTick 1010 started).2)).2.

(** The loop of the first call has woken: it found the guard up and no
    session, and the [catch] block of the first call has lowered the
    guard. *)
Definition guardLowered : State := (monitorTick 1010 secondEntered).2.

(** The auth probe of the second call has returned: its session is the
    current one, and the guard is down. *)
Definition unguarded : State :=
  (resumeStart Authenticated ["https://canvas.example"] guardLowered).2.

(** The identifier and the status of the current session. *)
Definition sessionOf (s : State) : option (string * Status) :=
  option_map (fun c => (id c, status c)) (currentSession s).

(** *** Course tasks and the saved sessions *)

(** The saved sessions, none when the key was never set. *)
Definition history (s : State) : list CrawlSession :=
  default [] (crawlSessions s).

(** The state after [n] more readings of the clock. *)
Definition later (n : nat) (s : State) : State :=
  {| currentSession := currentSession s; isRunning := isRunning s;
     config := config s; crawlSessions := crawlSessions s;
     lastCrawl := lastCrawl s; queueManager := queueManager s;
     time := time s; tick := (n + tick s)%nat |}.

(** An element of the array literal of [scheduleCourseTasks]. *)
Definition courseTask (type : Queue.TaskType) (url courseId : string)
    (priority : Z) (scheduledFor : Z) : Queue.TaskInput.t :=
  {| Queue.TaskInput.type := type; Queue.TaskInput.url := url;
     Queue.TaskInput.courseId := Some courseId;
     Queue.TaskInput.priority := priority;
     Queue.TaskInput.maxRetries := 3;
     Queue.TaskInput.scheduledFor := inject_Z scheduledFor;
     Queue.TaskInput.lastAttempt := None; Queue.TaskInput.error := None;
     Queue.TaskInput.metadata := None |}.

(** The array literal of [scheduleCourseTasks], given the ten clock
    readings that its elements make, in order. *)
Definition courseTasks (courseId courseUrl : string) (t : nat → Z)
  : list Queue.TaskInput.t :=
  [ courseTask Queue.announcements (courseUrl ++ "/announcements")%string
      courseId 8 (t 0%nat);
    courseTask Queue.assignments (courseUrl ++ "/assignments")%string
      courseId 8 (t 1%nat + 1000);
    courseTask Queue.discussions (courseUrl ++ "/discussions")%string
      courseId 7 (t 2%nat + 2000);
    courseTask Queue.pages (courseUrl ++ "/pages")%string
      courseId 6 (t 3%nat + 3000);
    courseTask Queue.files (courseUrl ++ "/files")%string
      courseId 5 (t 4%nat + 4000);
    courseTask Queue.quizzes (courseUrl ++ "/quizzes")%string
      courseId 5 (t 5%nat + 5000);
    courseTask Queue.modules (courseUrl ++ "/modules")%string
      courseId 6 (t 6%nat + 6000);
    courseTask Queue.grades (courseUrl ++ "/grades")%string
      courseId 7 (t 7%nat + 7000);
    courseTask Queue.people (courseUrl ++ "/users")%string
      courseId 4 (t 8%nat + 8000);
    courseTask Queue.syllabus (courseUrl ++ "/syllabus")%string
      courseId 8 (t 9%nat + 9000) ].

(** The loop of [scheduleCourseTasks]. *)
Definition addCourseTasks (tasks : list Queue.TaskInput.t) (s : State)
  : State :=
  fold_left (fun s task => bumpScheduled (addTask task s)) tasks s.

(** [scheduleCourseTasks] *)
Definition scheduleCourseTasks (courseId courseUrl : string) (s : State)
  : State :=
  let tasks := courseTasks courseId courseUrl
                 (fun k => time s (k + tick s)%nat) in
  addCourseTasks tasks (later 10 s).

(** The task objects that the loop of [scheduleCourseTasks] creates: the
    identifier of each is made at the first clock reading of its
    [addTask], [createdAt] is the second. *)
Fixpoint createdTasks (tasks : list Queue.TaskInput.t) (time : nat → Z)
    (tick : nat) : list Queue.CrawlTask.t :=
  match tasks with
  | [] => []
  | task :: rest =>
      Queue.newCrawlTask
        (Queue.generateTaskId (time tick) (Queue.TaskInput.type task)
           (Queue.TaskInput.url task))
        (time (S tick)) task
      :: createdTasks rest time (3 + tick)
  end.

(** A session with [n] more tasks scheduled. *)
Definition scheduledMore (n : Z) (c : CrawlSession) : CrawlSession :=
  {| id := id c; startTime := startTime c; endTime := endTime c;
     status := status c; tasksScheduled := tasksScheduled c + n;
     tasksCompleted := tasksCompleted c; tasksFailed := tasksFailed c;
     error := error c |}.

(** A step keeps the configuration, and the saved sessions unless it
    leaves at most ten. *)
Definition tame (s s' : State) : Prop :=
  config s' = config s ∧
  (history s' = history s ∨ (length (history s') ≤ 10)%nat).

(** A clock that advances by a minute at each reading. *)
Definition minuteClock (k : nat) : Z := 1000 + 60000 * Z.of_nat k.

(** A running session opened at clock reading 1000 over an empty queue,
    [k] readings of [minuteClock] later. *)
Definition monitored (k : nat) : State :=
  {| currentSession :=
       Some {| id := "crawl_1000"; startTime := 1000; endTime := None;
               status := running; tasksScheduled := 2; tasksCompleted := 0;
               tasksFailed := 0; error := None |};
     isRunning := true; config := defaultSchedulerConfig;
     crawlSessions := None; lastCrawl := None;
     queueManager :=
       Queue.construct Queue.defaultConcurrencyConfig Queue.emptyStorage;
     time := minuteClock; tick := k |}.

End Scheduler.

(** * Properties *)

Local Open Scope list_scope.
#[local] Set Warnings "-clear-no-such-hyp".

(** ** Doubles *)

Module DoubleFacts.
Import JS.

Lemma two_pow_pos (k : Z) : (0 < 2 ^ k)%Q.
Proof. by apply Qpower_0_lt. Qed.

Lemma two_pow_plus (a b : Z) : (2 ^ (a + b) == 2 ^ a * 2 ^ b)%Q.
Proof. by apply Qpower_plus. Qed.

Lemma two_pow_le (a b : Z) : a ≤ b → (2 ^ a <= 2 ^ b)%Q.
Proof. intros H. by apply Qpower_le_compat_l. Qed.

Lemma two_pow_lt_inv (a b : Z) : (2 ^ a < 2 ^ b)%Q → a < b.
Proof. intros H. by apply (Qpower_lt_compat_l_inv 2). Qed.

Lemma two_pow_Z (k : Z) : 0 ≤ k → (2 ^ k == inject_Z (2 ^ k))%Q.
Proof. intros H. symmetry. by apply (Zpower_Qpower 2). Qed.

Lemma two_pow_split (a b : Z) : (2 ^ a == 2 ^ (a - b) * 2 ^ b)%Q.
Proof. rewrite <- two_pow_plus. by replace (a - b + b) with a by lia. Qed.

(** *** The binade of a positive rational *)

Lemma log2_bounds (p : Z) :
  0 < p →
  (2 ^ Z.log2 p <= inject_Z p)%Q ∧ (inject_Z p < 2 * 2 ^ Z.log2 p)%Q.
Proof.
  intros Hp. destruct (Z.log2_spec p Hp) as [Hlo Hhi].
  pose proof (Z.log2_nonneg p) as H0.
  rewrite two_pow_Z by done. split.
  - by rewrite <- Zle_Qle.
  - change 2%Q with (inject_Z 2). rewrite <- inject_Z_mult, <- Zlt_Qlt.
    replace (Z.succ (Z.log2 p)) with (1 + Z.log2 p) in Hhi by lia.
    rewrite Z.pow_add_r in Hhi by lia. lia.
Qed.

Lemma ilog2_spec (x : Q) :
  (0 < x)%Q → (2 ^ ilog2 x <= x)%Q ∧ (x < 2 ^ (ilog2 x + 1))%Q.
Proof.
  intros Hx. destruct x as [p q].
  assert (Hp : 0 < p).
  { unfold Qlt in Hx. simpl in Hx. lia. }
  unfold ilog2. simpl Qnum. simpl Qden.
  set (lp := Z.log2 p). set (lq := Z.log2 (Z.pos q)).
  destruct (log2_bounds p Hp) as [Hp1 Hp2]. fold lp in Hp1, Hp2.
  destruct (log2_bounds (Z.pos q) ltac:(lia)) as [Hq1 Hq2].
  fold lq in Hq1, Hq2.
  pose proof (two_pow_pos lp) as HA. pose proof (two_pow_pos lq) as HB.
  pose proof (two_pow_pos (lp - lq)) as HC.
  pose proof (two_pow_split lp lq) as Hsplit.
  assert (HxD : (Qmake p q * inject_Z (Z.pos q) == inject_Z p)%Q).
  { rewrite Qmake_Qdiv. field. intros H. unfold Qeq in H. simpl in H. lia. }
  set (x := Qmake p q) in *. set (P := inject_Z p) in *.
  set (D := inject_Z (Z.pos q)) in *.
  set (A := (2 ^ lp)%Q) in *. set (B := (2 ^ lq)%Q) in *.
  set (C := (2 ^ (lp - lq))%Q) in *.
  assert (Hup : (x < 2 * C)%Q).
  { apply Qnot_le_lt. intros Hle.
    assert (2 * C * D <= x * D)%Q by (apply Qmult_le_compat_r; lra).
    assert (C * B <= C * D)%Q by (apply Qmult_le_l; lra).
    lra. }
  assert (Hlow : (C <= 2 * x)%Q).
  { apply Qnot_lt_le. intros Hlt.
    assert (2 * x * B < C * B)%Q by (apply Qmult_lt_compat_r; lra).
    assert (x * D <= x * (2 * B))%Q by (apply Qmult_le_l; lra).
    lra. }
  destruct (Qle_bool C x) eqn:E.
  - apply Qle_bool_iff in E. split; [done|].
    rewrite two_pow_plus. change (2 ^ 1)%Q with 2%Q. fold C. lra.
  - assert (Hlt : (x < C)%Q).
    { apply Qnot_le_lt. intros H. apply Qle_bool_iff in H. congruence. }
    replace (lp - lq - 1 + 1) with (lp - lq) by lia. fold C.
    split; [|done].
    assert (H2 : (C == 2 ^ (lp - lq - 1) * 2)%Q).
    { unfold C. rewrite (two_pow_split (lp - lq) 1).
      replace (lp - lq - 1) with (lp - lq - 1) by lia. reflexivity. }
    lra.
Qed.

Lemma ilog2_lt (x : Q) (k : Z) : (0 < x)%Q → (x < 2 ^ k)%Q → ilog2 x < k.
Proof.
  intros Hx Hk. destruct (ilog2_spec x Hx) as [Hlo _].
  apply two_pow_lt_inv. lra.
Qed.

Lemma ilog2_ge (x : Q) (k : Z) : (2 ^ k <= x)%Q → k ≤ ilog2 x.
Proof.
  intros Hk. pose proof (two_pow_pos k).
  destruct (ilog2_spec x ltac:(lra)) as [_ Hhi].
  assert (k < ilog2 x + 1) by (apply two_pow_lt_inv; lra). lia.
Qed.

Lemma ilog2_mono (x y : Q) : (0 < x)%Q → (x <= y)%Q → ilog2 x ≤ ilog2 y.
Proof.
  intros Hx Hxy. destruct (ilog2_spec x Hx) as [Hlo _].
  apply ilog2_ge. lra.
Qed.

Lemma ulpExponent_mono (x y : Q) :
  (0 < x)%Q → (x <= y)%Q → ulpExponent x ≤ ulpExponent y.
Proof.
  intros Hx Hxy. unfold ulpExponent.
  pose proof (ilog2_mono x y Hx Hxy). lia.
Qed.

(** *** Rounding to an integer *)

Lemma roundHalfEven_bounds (q : Q) :
  Qfloor q ≤ roundHalfEven q ≤ Qfloor q + 1.
Proof.
  unfold roundHalfEven. destruct (_ ?= _)%Q; [destruct (Z.even _)|..]; lia.
Qed.

Lemma roundHalfEven_Z (z : Z) : roundHalfEven (inject_Z z) = z.
Proof.
  unfold roundHalfEven. rewrite Qfloor_Z.
  replace (_ ?= _)%Q with Lt; [done|].
  symmetry. apply Qlt_alt.
  assert (H : (inject_Z z - inject_Z z == 0)%Q) by ring.
  rewrite H. reflexivity.
Qed.

Lemma roundHalfEven_mono (a b : Q) :
  (a <= b)%Q → roundHalfEven a ≤ roundHalfEven b.
Proof.
  intros Hab. pose proof (Qfloor_resp_le a b Hab) as Hf.
  pose proof (roundHalfEven_bounds a). pose proof (roundHalfEven_bounds b).
  destruct (Z.eq_dec (Qfloor a) (Qfloor b)) as [Heq|Hne]; [|lia].
  unfold roundHalfEven. rewrite <- Heq.
  destruct (Qcompare_spec (a - inject_Z (Qfloor a)) (1 # 2)) as [Ha|Ha|Ha];
    destruct (Qcompare_spec (b - inject_Z (Qfloor a)) (1 # 2)) as [Hb|Hb|Hb];
    try destruct (Z.even _); try lia; lra.
Qed.

Lemma roundHalfEven_le (q : Q) (z : Z) :
  (q <= inject_Z z)%Q → roundHalfEven q ≤ z.
Proof.
  intros H. rewrite <- (roundHalfEven_Z z). by apply roundHalfEven_mono.
Qed.

Lemma roundHalfEven_ge (q : Q) (z : Z) :
  (inject_Z z <= q)%Q → z ≤ roundHalfEven q.
Proof.
  intros H. rewrite <- (roundHalfEven_Z z) at 1. by apply roundHalfEven_mono.
Qed.

Lemma roundHalfEven_comp (a b : Q) :
  (a == b)%Q → roundHalfEven a = roundHalfEven b.
Proof.
  intros H. apply Z.le_antisymm; apply roundHalfEven_mono; lra.
Qed.

(** *** Rounding to a double *)

(** A positive double: a significand below [2^53] at an exponent that is
    not below [-1074]. *)
Lemma scaled_lt (x : Q) (u : Z) :
  (0 < x)%Q → ilog2 x - 52 ≤ u → (x / 2 ^ u < inject_Z (2 ^ 53))%Q.
Proof.
  intros Hx Hu. destruct (ilog2_spec x Hx) as [_ Hhi].
  pose proof (two_pow_pos u) as Hpu.
  apply Qlt_shift_div_r; [done|].
  rewrite <- two_pow_Z by lia. rewrite <- two_pow_plus.
  eapply Qlt_le_trans; [exact Hhi|]. apply two_pow_le. lia.
Qed.

Lemma roundPositive_nonneg (x : Q) : (0 < x)%Q → (0 <= roundPositive x)%Q.
Proof.
  intros Hx. unfold roundPositive. pose proof (two_pow_pos (ulpExponent x)).
  apply Qmult_le_0_compat; [|lra].
  change 0%Q with (inject_Z 0). rewrite <- Zle_Qle.
  apply roundHalfEven_ge. change (inject_Z 0) with 0%Q.
  apply Qle_shift_div_l; [done|]. lra.
Qed.

Lemma roundPositive_mono (x y : Q) :
  (0 < x)%Q → (x <= y)%Q → (roundPositive x <= roundPositive y)%Q.
Proof.
  intros Hx Hxy. assert (Hy : (0 < y)%Q) by lra.
  pose proof (ulpExponent_mono x y Hx Hxy) as Hu.
  unfold roundPositive.
  set (ux := ulpExponent x) in *. set (uy := ulpExponent y) in *.
  pose proof (two_pow_pos ux) as Hpx. pose proof (two_pow_pos uy) as Hpy.
  destruct (Z.eq_dec ux uy) as [Heq|Hne].
  - rewrite <- Heq. apply Qmult_le_compat_r; [|lra].
    rewrite <- Zle_Qle. apply roundHalfEven_mono.
    apply Qmult_le_compat_r; [done|]. apply Qinv_le_0_compat. lra.
  - assert (Hlt : ux + 1 ≤ uy) by lia.
    assert (Hny : uy = ilog2 y - 52).
    { unfold uy, ux, ulpExponent in *. lia. }
    (* the rounded [x] is at most [2^(ux+53)] *)
    assert (Hxr : (inject_Z (roundHalfEven (x / 2 ^ ux)) * 2 ^ ux
                   <= 2 ^ (uy + 52))%Q).
    { apply Qle_trans with (inject_Z (2 ^ 53) * 2 ^ ux)%Q.
      - apply Qmult_le_compat_r; [|lra]. rewrite <- Zle_Qle.
        apply roundHalfEven_le. apply Qlt_le_weak, scaled_lt; [done|].
        unfold ux, ulpExponent. lia.
      - rewrite <- two_pow_Z by lia. rewrite <- two_pow_plus.
        apply two_pow_le. lia. }
    (* the rounded [y] is at least [2^(uy+52)] *)
    assert (Hyr : (2 ^ (uy + 52)
                   <= inject_Z (roundHalfEven (y / 2 ^ uy)) * 2 ^ uy)%Q).
    { rewrite (Qmult_comm _ (2 ^ uy)), (Z.add_comm uy 52).
      rewrite two_pow_plus, (Qmult_comm (2 ^ 52)).
      apply Qmult_le_l; [done|]. rewrite two_pow_Z by lia.
      rewrite <- Zle_Qle. apply roundHalfEven_ge.
      rewrite <- two_pow_Z by lia.
      apply Qle_shift_div_l; [done|]. rewrite <- two_pow_plus.
      destruct (ilog2_spec y Hy) as [Hlo _].
      replace (52 + uy) with (ilog2 y) by lia. done. }
    lra.
Qed.

Lemma roundPositive_exact (m k : Z) :
  0 < m < 2 ^ 53 → -1074 ≤ k →
  (roundPositive (inject_Z m * 2 ^ k) == inject_Z m * 2 ^ k)%Q.
Proof.
  intros Hm Hk. set (x := (inject_Z m * 2 ^ k)%Q).
  pose proof (two_pow_pos k) as Hpk.
  assert (Hx : (0 < x)%Q).
  { unfold x. apply Qmult_lt_0_compat; [|done].
    change 0%Q with (inject_Z 0). rewrite <- Zlt_Qlt. lia. }
  assert (Hu : ulpExponent x ≤ k).
  { unfold ulpExponent.
    assert (ilog2 x < k + 53); [|lia].
    apply ilog2_lt; [done|]. unfold x.
    rewrite (Z.add_comm k 53), two_pow_plus, (two_pow_Z 53) by lia.
    apply Qmult_lt_compat_r; [done|]. rewrite <- Zlt_Qlt. lia. }
  unfold roundPositive. set (u := ulpExponent x) in *.
  pose proof (two_pow_pos u) as Hpu.
  assert (Hscaled : (x / 2 ^ u == inject_Z (m * 2 ^ (k - u)))%Q).
  { unfold x. rewrite inject_Z_mult, <- (two_pow_Z (k - u)) by lia.
    rewrite (two_pow_split k u). field. lra. }
  rewrite (roundHalfEven_comp _ _ Hscaled), roundHalfEven_Z.
  unfold x. rewrite inject_Z_mult, <- (two_pow_Z (k - u)) by lia.
  rewrite (two_pow_split k u). ring.
Qed.

(** What rounding gives is zero or a double. *)
Lemma roundPositive_form (x : Q) :
  (0 < x)%Q →
  (roundPositive x == 0)%Q ∨
  ∃ m k, 0 < m < 2 ^ 53 ∧ -1074 ≤ k ∧
         (roundPositive x == inject_Z m * 2 ^ k)%Q.
Proof.
  intros Hx. unfold roundPositive.
  set (u := ulpExponent x). set (n := roundHalfEven (x / 2 ^ u)).
  pose proof (two_pow_pos u) as Hpu.
  assert (Hu : -1074 ≤ u) by (unfold u, ulpExponent; lia).
  assert (Hn0 : 0 ≤ n).
  { apply roundHalfEven_ge. change (inject_Z 0) with 0%Q.
    apply Qle_shift_div_l; [done|]. lra. }
  assert (Hn1 : n ≤ 2 ^ 53).
  { apply roundHalfEven_le, Qlt_le_weak, scaled_lt; [done|].
    unfold u, ulpExponent. lia. }
  destruct (Z.eq_dec n 0) as [->|Hne0]; [left; ring|]. right.
  destruct (Z.eq_dec n (2 ^ 53)) as [->|Hne1].
  - exists (2 ^ 52), (u + 1). split; [lia|]. split; [lia|].
    rewrite two_pow_plus. change (2 ^ 1)%Q with 2%Q.
    change (2 ^ 53) with (2 ^ 52 * 2). rewrite inject_Z_mult.
    change (inject_Z 2) with 2%Q. ring.
  - exists n, u. split; [lia|]. split; [done|]. reflexivity.
Qed.

Lemma roundDouble_pos (x : Q) : (0 < x)%Q → roundDouble x = roundPositive x.
Proof.
  intros Hx. unfold roundDouble.
  replace (x ?= 0)%Q with Gt; [done|]. symmetry. by apply Qgt_alt.
Qed.

Lemma roundDouble_zero (x : Q) : (x == 0)%Q → roundDouble x = 0%Q.
Proof.
  intros Hx. unfold roundDouble.
  replace (x ?= 0)%Q with Eq; [done|]. symmetry. by apply Qeq_alt.
Qed.

Lemma roundDouble_nonneg (x : Q) : (0 <= x)%Q → (0 <= roundDouble x)%Q.
Proof.
  intros Hx. destruct (Qeq_dec x 0) as [H0|H0].
  - rewrite roundDouble_zero by done. lra.
  - assert (0 < x)%Q by (apply Qle_lteq in Hx as [?|?]; [done|]; by symmetry in H; contradiction).
    rewrite roundDouble_pos by done. by apply roundPositive_nonneg.
Qed.

Lemma roundDouble_mono (x y : Q) :
  (0 <= x)%Q → (x <= y)%Q → (roundDouble x <= roundDouble y)%Q.
Proof.
  intros Hx Hxy. destruct (Qeq_dec x 0) as [H0|H0].
  - rewrite (roundDouble_zero x) by done. apply roundDouble_nonneg. lra.
  - assert (0 < x)%Q.
    { apply Qle_lteq in Hx as [?|He]; [done|]. symmetry in He. contradiction. }
    rewrite !roundDouble_pos by lra. by apply roundPositive_mono.
Qed.

Lemma roundDouble_comp (x y : Q) :
  (0 <= x)%Q → (x == y)%Q → (roundDouble x == roundDouble y)%Q.
Proof.
  intros Hx Hxy. apply Qle_antisym; apply roundDouble_mono; lra.
Qed.

Lemma roundDouble_exact (m k : Z) :
  0 ≤ m < 2 ^ 53 → -1074 ≤ k →
  (roundDouble (inject_Z m * 2 ^ k) == inject_Z m * 2 ^ k)%Q.
Proof.
  intros Hm Hk. destruct (Z.eq_dec m 0) as [->|Hne].
  - rewrite roundDouble_zero by ring. ring.
  - pose proof (two_pow_pos k).
    rewrite roundDouble_pos.
    + apply roundPositive_exact; [lia|done].
    + apply Qmult_lt_0_compat; [|done].
      change 0%Q with (inject_Z 0). rewrite <- Zlt_Qlt. lia.
Qed.

Lemma roundDouble_Z (z : Z) :
  0 ≤ z < 2 ^ 53 → (roundDouble (inject_Z z) == inject_Z z)%Q.
Proof.
  intros Hz. pose proof (roundDouble_exact z 0 Hz ltac:(lia)) as H.
  change (2 ^ 0)%Q with 1%Q in H.
  rewrite <- (roundDouble_comp (inject_Z z * 1) (inject_Z z)) ; [|..].
  - rewrite H. ring.
  - apply Qmult_le_0_compat; [|lra].
    change 0%Q with (inject_Z 0). rewrite <- Zle_Qle. lia.
  - ring.
Qed.

Lemma roundDouble_idem (x : Q) :
  (0 <= x)%Q → (roundDouble (roundDouble x) == roundDouble x)%Q.
Proof.
  intros Hx. destruct (Qeq_dec x 0) as [H0|H0].
  - rewrite (roundDouble_zero x) by done. by rewrite roundDouble_zero.
  - assert (Hpos : (0 < x)%Q).
    { apply Qle_lteq in Hx as [?|He]; [done|]. symmetry in He. contradiction. }
    rewrite (roundDouble_pos x) by done.
    destruct (roundPositive_form x Hpos) as [Hz|(m & k & Hm & Hk & Hf)].
    + rewrite roundDouble_zero by done. by rewrite Hz.
    + pose proof (roundPositive_nonneg x Hpos).
      rewrite (roundDouble_comp _ _ ltac:(done) Hf).
      rewrite roundDouble_exact by (done || lia). by rewrite Hf.
Qed.

End DoubleFacts.

(** ** The task queue *)

Module QueueFacts.
Import Queue.

Lemma findIndexFrom_Some p i q j :
  findIndexFrom p i q = Some j →
  ∃ k r, j = (i + k)%nat ∧ q !! k = Some r ∧ p r = true ∧
         ∀ k' r', (k' < k)%nat → q !! k' = Some r' → p r' = false.
Proof.
  revert i. induction q as [|r q IH]; intros i H; simpl in H; [discriminate|].
  destruct (p r) eqn:Hp.
  - inversion H; subst. exists 0%nat, r. split; [lia|]. split; [done|].
    split; [done|]. intros; lia.
  - apply IH in H as (k & r0 & -> & Hk & Hr0 & Hmin).
    exists (S k), r0. split; [lia|]. split; [done|]. split; [done|].
    intros [|k'] r' Hlt Hl; simpl in Hl.
    + by inversion Hl; subst.
    + eapply Hmin; [|done]. lia.
Qed.

Lemma findIndexFrom_None p i q :
  findIndexFrom p i q = None ↔ Forall (fun r => p r = false) q.
Proof.
  revert i. induction q as [|r q IH]; intros i; simpl.
  - split; [constructor|done].
  - destruct (p r) eqn:Hp.
    + split; [done|]. intros H. inversion H; congruence.
    + rewrite IH. split; [by constructor|]. by inversion 1.
Qed.

Lemma hasId_true m id r :
  hasId m id r = true ↔ ∃ t, deref m r = Some t ∧ CrawlTask.id t = id.
Proof.
  unfold hasId. destruct (deref m r) as [t|].
  - rewrite bool_decide_eq_true. naive_solver.
  - naive_solver.
Qed.

Lemma findIndex_Some m id i :
  findIndex m id = Some i →
  ∃ r t, queue m !! i = Some r ∧ deref m r = Some t ∧ CrawlTask.id t = id.
Proof.
  intros H. apply findIndexFrom_Some in H as (k & r & -> & Hk & Hp & _).
  apply hasId_true in Hp as (t & ? & ?). by exists r, t.
Qed.

Lemma findIndex_None m id : findIndex m id = None ↔ ¬ queued m id.
Proof.
  unfold findIndex. rewrite findIndexFrom_None, Forall_forall. split.
  - intros H (r & t & Hr & Hd & Hid).
    specialize (H r Hr). apply not_true_iff_false in H. apply H.
    apply hasId_true. eauto.
  - intros H r Hr. apply not_true_iff_false. intros Ht.
    apply hasId_true in Ht as (t & ? & ?). apply H. by exists r, t.
Qed.

Lemma queued_withSets m r c f id :
  queued (withSets m r c f) id ↔ queued m id.
Proof. done. Qed.

Lemma queued_mutate m r f id :
  (∀ t, CrawlTask.id (f t) = CrawlTask.id t) →
  queued (mutate m r f) id ↔ queued m id.
Proof.
  intros Hf. unfold queued, mutate, deref; simpl. split.
  - intros (r' & t & Hr & Hd & Hid). exists r'.
    destruct (decide (r = r')) as [->|Hne].
    + rewrite list_lookup_alter_eq in Hd.
      destruct (heap m !! r') as [t0|] eqn:Ht0; simpl in Hd; [|done].
      inversion Hd; subst. exists t0. by rewrite <- Hf.
    + rewrite list_lookup_alter_ne in Hd by done. exists t. done.
  - intros (r' & t & Hr & Hd & Hid). exists r'.
    destruct (decide (r = r')) as [->|Hne].
    + exists (f t). rewrite list_lookup_alter_eq, Hd. by rewrite Hf.
    + exists t. by rewrite list_lookup_alter_ne.
Qed.

Lemma queued_enqueue m c id :
  queued m id → queued (enqueue m c) id.
Proof.
  intros (r & t & Hr & Hd & Hid). unfold enqueue.
  destruct (findIndex m (CrawlTask.id c)) as [i|] eqn:Hfi.
  - apply findIndex_Some in Hfi as (ri & ti & Hqi & Hdi & Hidi).
    rewrite Hqi; simpl. rewrite Hdi.
    destruct (CrawlTask.priority c >? CrawlTask.priority ti); [|by exists r, t].
    unfold queued, deref; simpl.
    apply list_elem_of_lookup in Hr as [k Hk].
    destruct (decide (k = i)) as [->|Hne].
    + assert (r = ri) as -> by congruence.
      exists (length (heap m)), c. split.
      * apply list_elem_of_lookup. exists i.
        apply list_lookup_insert_eq. by eapply lookup_lt_Some.
      * split; [by rewrite lookup_app_r, Nat.sub_diag by lia|]. congruence.
    + exists r, t. split.
      * apply list_elem_of_lookup. exists k.
        by rewrite list_lookup_insert_ne.
      * split; [|done]. by apply lookup_app_l_Some.
  - unfold queued, deref; simpl. exists r, t. split; [set_solver|].
    split; [|done]. by apply lookup_app_l_Some.
Qed.

Lemma elem_of_splice1 (q : list nat) k i r :
  q !! k = Some r → k ≠ i → r ∈ splice1 i q.
Proof.
  intros Hk Hne. unfold splice1. apply elem_of_app.
  destruct (decide (k < i)%nat).
  - left. apply list_elem_of_lookup. exists k. by rewrite lookup_take_lt.
  - right. apply list_elem_of_lookup. exists (k - S i)%nat.
    rewrite lookup_drop. by replace (S i + (k - S i))%nat with k by lia.
Qed.

Lemma queued_removeTask tSaved id id' w :
  id' ≠ id → queued (mgr w) id' → queued (mgr (removeTask tSaved id w).2) id'.
Proof.
  intros Hne Hq. unfold removeTask.
  destruct (findIndex (mgr w) id) as [i|] eqn:Hfi; [|done]. simpl.
  apply findIndex_Some in Hfi as (ri & ti & Hqi & Hdi & Hidi).
  destruct Hq as (r & t & Hr & Hd & Hid).
  apply list_elem_of_lookup in Hr as [k Hk].
  exists r, t. split; [|done]. simpl. eapply elem_of_splice1; [done|].
  intros ->. congruence.
Qed.

Lemma running_removeTask tSaved id w :
  running (mgr (removeTask tSaved id w).2) = running (mgr w).
Proof. unfold removeTask. by destruct (findIndex (mgr w) id). Qed.

Lemma elem_of_insertSorted m r x l : x ∈ insertSorted m r l ↔ x = r ∨ x ∈ l.
Proof.
  induction l as [|y l IH]; simpl; [set_solver|].
  destruct (sortsBefore m r y); set_solver.
Qed.

Lemma elem_of_sorted m x (q : list nat) :
  x ∈ foldr (insertSorted m) [] q ↔ x ∈ q.
Proof.
  induction q as [|y q IH]; simpl; [done|].
  rewrite elem_of_insertSorted. set_solver.
Qed.

Lemma startable_oneQueued : startable 1000 (mgr oneQueued) 0.
Proof.
  split; [by vm_compute|].
  eexists. split; [by vm_compute|]. by vm_compute.
Qed.

(** *** Task identity and re-submission *)

Lemma derefs_cons h r q :
  derefs h (r :: q)
  = match h !! r with Some t => t :: derefs h q | None => derefs h q end.
Proof. done. Qed.

Lemma derefs_alloc h c q :
  Forall (fun r => (r < length h)%nat) q → derefs (h ++ [c]) q = derefs h q.
Proof.
  induction 1 as [|r q Hr _ IH]; [done|].
  rewrite !derefs_cons, IH. by rewrite lookup_app_l.
Qed.

Lemma derefs_push h c q :
  Forall (fun r => (r < length h)%nat) q →
  derefs (h ++ [c]) (q ++ [length h]) = derefs h q ++ [c].
Proof.
  intros Hwf. unfold derefs. rewrite omap_app. f_equal.
  - by apply derefs_alloc.
  - simpl. by rewrite lookup_app_r, Nat.sub_diag by lia.
Qed.

Lemma findIndexFrom_app p i q q' :
  Forall (fun r => p r = false) q →
  findIndexFrom p i (q ++ q') = findIndexFrom p (i + length q) q'.
Proof.
  intros H. revert i. induction H as [|r q Hr _ IH]; intros i; simpl.
  - by rewrite Nat.add_0_r.
  - rewrite Hr, IH. f_equal. lia.
Qed.

Lemma not_queued_filter m id :
  ¬ queued m id → filter (fun t => CrawlTask.id t = id) (tasks m) = [].
Proof.
  intros Hnq.
  destruct (filter _ (tasks m)) as [|t l] eqn:Hf; [done|]. exfalso.
  assert (Ht : t ∈ filter (fun t => CrawlTask.id t = id) (tasks m))
    by (rewrite Hf; left).
  apply list_elem_of_filter in Ht as [Hid Ht].
  apply list_elem_of_omap in Ht as (r & Hr & Hd).
  apply Hnq. by exists r, t.
Qed.

Lemma tasks_withQueue m h q : tasks (withQueue m h q) = derefs h q.
Proof. done. Qed.

Lemma enqueue_fresh m c :
  ¬ queued m (CrawlTask.id c) →
  enqueue m c = withQueue m (heap m ++ [c]) (queue m ++ [length (heap m)]).
Proof. intros H. unfold enqueue. by apply findIndex_None in H as ->. Qed.

Lemma enqueue_again m c c' :
  wellFormed m → ¬ queued m (CrawlTask.id c) →
  CrawlTask.id c' = CrawlTask.id c →
  tasks (enqueue (enqueue m c) c')
  = tasks m ++ [if CrawlTask.priority c' >? CrawlTask.priority c
                then c' else c].
Proof.
  intros Hwf Hnq Hid. rewrite (enqueue_fresh m c Hnq).
  set (m1 := withQueue m _ _).
  assert (Hfi : findIndex m1 (CrawlTask.id c') = Some (length (queue m))).
  { unfold findIndex, m1; simpl. rewrite findIndexFrom_app; simpl.
    - replace (hasId _ _ _) with true; [done|]. symmetry.
      apply hasId_true. exists c. unfold deref; simpl.
      by rewrite lookup_app_r, Nat.sub_diag by lia.
    - apply Forall_forall. intros r Hr. apply not_true_iff_false.
      intros Ht. apply hasId_true in Ht as (t & Hd & Ht). apply Hnq.
      exists r, t. unfold deref in *; simpl in Hd.
      unfold wellFormed in Hwf. rewrite Forall_forall in Hwf.
      rewrite lookup_app_l in Hd by auto. split; [done|]. split; [done|].
      congruence. }
  unfold enqueue. rewrite Hfi.
  assert (Hq : queue m1 !! length (queue m) = Some (length (heap m))).
  { unfold m1; simpl. by rewrite lookup_app_r, Nat.sub_diag by lia. }
  rewrite Hq; simpl.
  assert (Hd : deref m1 (length (heap m)) = Some c).
  { unfold deref, m1; simpl. by rewrite lookup_app_r, Nat.sub_diag by lia. }
  rewrite Hd.
  destruct (CrawlTask.priority c' >? CrawlTask.priority c).
  - unfold m1; simpl. rewrite tasks_withQueue.
    rewrite insert_app_r_alt, Nat.sub_diag by lia. simpl.
    replace (length (heap m ++ [c])) with (S (length (heap m)))
      by (rewrite length_app; simpl; lia).
    unfold derefs. rewrite omap_app. f_equal.
    + fold (derefs ((heap m ++ [c]) ++ [c']) (queue m)).
      rewrite derefs_alloc.
      * by apply derefs_alloc.
      * eapply Forall_impl; [exact Hwf|]. intros r Hr; simpl in *.
        rewrite length_app; simpl. lia.
    + simpl.
      replace (S (length (heap m))) with (length (heap m ++ [c]))
        by (rewrite length_app; simpl; lia).
      by rewrite lookup_app_r, Nat.sub_diag by lia.
  - unfold m1. rewrite tasks_withQueue. by apply derefs_push.
Qed.

Lemma tasks_addTask tId tC tS task w :
  tasks (mgr (addTask tId tC tS task w).2)
  = tasks (enqueue (mgr w)
             (newCrawlTask
                (generateTaskId tId (TaskInput.type task) (TaskInput.url task))
                tC task)).
Proof. done. Qed.

Lemma tasks_enqueue_isProcessing m b c :
  tasks (enqueue {| heap := heap m; queue := queue m; running := running m;
                    completed := completed m; failed := failed m;
                    config := config m; isProcessing := b |} c)
  = tasks (enqueue m c).
Proof.
  unfold enqueue, findIndex, hasId, deref; simpl.
  destruct (findIndexFrom _ 0 (queue m)) as [i|]; [|done].
  destruct (queue m !! i ≫= _) as [t|]; [|done].
  by destruct (_ >? _).
Qed.

(** Whenever a second submission derives the
    identifier of a task that a first submission put in the queue, the queue
    keeps one entry with that identifier, in the same place, and its priority
    is the larger of the two.  The entry is the first submission, untouched,
    unless the second has the strictly higher priority: then it is the
    second submission as a whole (its schedule, retry limit, metadata and
    creation time, with a retry count of zero).  The identifier is the same
    for every submission of one kind and URL at one reading of the clock,
    and what [saveQueue] wrote is the queue after the second submission. *)
Theorem resubmission_keeps_one_entry
    (tId1 tC1 tS1 tId2 tC2 tS2 : Z) (a b : TaskInput.t) (w : World) :
  wellFormed (mgr w) →
  generateTaskId tId2 (TaskInput.type b) (TaskInput.url b)
  = generateTaskId tId1 (TaskInput.type a) (TaskInput.url a) →
  ¬ queued (mgr w)
      (generateTaskId tId1 (TaskInput.type a) (TaskInput.url a)) →
  let first := addTask tId1 tC1 tS1 a w in
  let second := addTask tId2 tC2 tS2 b first.2 in
  let kept :=
    if TaskInput.priority b >? TaskInput.priority a
    then newCrawlTask second.1 tC2 b else newCrawlTask first.1 tC1 a in
  second.1 = first.1 ∧
  (∀ tC tS (a' : TaskInput.t) w',
      TaskInput.type a' = TaskInput.type a →
      TaskInput.url a' = TaskInput.url a →
      (addTask tId1 tC tS a' w').1 = first.1) ∧
  tasks (mgr second.2) = tasks (mgr w) ++ [kept] ∧
  filter (fun t => CrawlTask.id t = first.1) (tasks (mgr second.2)) = [kept] ∧
  CrawlTask.priority kept
  = Z.max (TaskInput.priority a) (TaskInput.priority b) ∧
  crawlQueue (store second.2) = Some (tasks (mgr second.2)).
Proof.
  intros Hwf Hid Hnq first second kept.
  assert (Htasks : tasks (mgr second.2) = tasks (mgr w) ++ [kept]).
  { unfold second. rewrite tasks_addTask. unfold first at 1.
    unfold addTask at 1. cbv zeta. simpl snd.
    unfold startProcessing, saveQueue; simpl mgr.
    rewrite tasks_enqueue_isProcessing.
    rewrite enqueue_again; [|done|done|by simpl].
    simpl. unfold kept. simpl. by destruct (_ >? _). }
  split; [exact Hid|]. split.
  { intros tC tS a' w' Ht Hu. simpl. by rewrite Ht, Hu. }
  split; [exact Htasks|]. split; [|split].
  - rewrite Htasks, filter_app, not_queued_filter by done. simpl.
    rewrite filter_singleton_True; [done|exact []|].
    unfold kept. destruct (_ >? _); simpl; [exact Hid|done].
  - unfold kept. destruct (_ >? _) eqn:Hgt; simpl; lia.
  - done.
Qed.

Lemma wellFormed_fresh : wellFormed (mgr fresh).
Proof. constructor. Qed.

Lemma not_queued_fresh id : ¬ queued (mgr fresh) id.
Proof. intros (r & t & Hr & _). by apply elem_of_nil in Hr. Qed.

(** The theorem at two submissions of the dashboard at clock reading 1000,
    with priorities 5 and 9. *)
Lemma resubmission_keeps_one_entry_witness :
  map CrawlTask.priority
    (tasks (mgr (addTask 1000 1001 1001 (dashboardTask 9 3 2000)
                   (addTask 1000 1000 1000 (dashboardTask 5 3 1000)
                      fresh).2).2))
  = [9].
Proof.
  pose proof (resubmission_keeps_one_entry 1000 1000 1000 1000 1001 1001
                (dashboardTask 5 3 1000) (dashboardTask 9 3 2000) fresh
                wellFormed_fresh eq_refl (not_queued_fresh _))
    as (_ & _ & H & _).
  rewrite H. reflexivity.
Defined.

(** C1 at that input: [generateTaskId] puts the reading of the clock in the
    identifier, so the look-up of [addTask] does not find the first
    submission when the same kind and URL is submitted one millisecond
    later: there are two identifiers and two queue entries, with priorities
    5 and 9.  When the two submissions do fall in the same millisecond the
    identifiers agree, and the entry with the higher priority replaces the
    other in full: the schedule of the surviving entry is the second
    one. *)
Theorem resubmission_not_idempotent :
  let a := dashboardTask 5 3 1000 in
  let b := dashboardTask 9 3 2000 in
  let first := addTask 1000 1000 1000 a fresh in
  let later := addTask 1001 1001 1001 b first.2 in
  let atOnce := addTask 1000 1001 1001 b first.2 in
  TaskInput.type a = TaskInput.type b ∧ TaskInput.url a = TaskInput.url b ∧
  later.1 ≠ first.1 ∧
  map CrawlTask.priority (tasks (mgr later.2)) = [5; 9] ∧
  atOnce.1 = first.1 ∧
  map CrawlTask.scheduledFor (tasks (mgr first.2)) = [1000%Q] ∧
  map CrawlTask.scheduledFor (tasks (mgr atOnce.2)) = [2000%Q].
Proof. by vm_compute. Qed.

(** *** Persistence across a restart *)

Lemma derefs_seq (q : list CrawlTask.t) (h : list CrawlTask.t) :
  derefs (h ++ q) (seq (length h) (length q)) = q.
Proof.
  revert h. induction q as [|t q IH]; intros h; [done|].
  change (seq (length h) (length (t :: q)))
    with (length h :: seq (S (length h)) (length q)).
  rewrite derefs_cons, lookup_app_r, Nat.sub_diag by lia. simpl. f_equal.
  specialize (IH (h ++ [t])).
  rewrite length_app, <- app_assoc in IH. simpl in IH.
  by replace (length h + 1)%nat with (S (length h)) in IH by lia.
Qed.

(** A process started over what [saveQueue] wrote has, once its load has
    landed, the same tasks in its queue, in the same order, and the same
    running, completed and failed sets.  A task that was in flight at save
    time is therefore still in the running set, and the guard of
    [processQueue] holds it back at every clock reading. *)
Theorem restart_restores_saved_state
    (w : World) (now : Z) (cfg : ConcurrencyConfig) :
  let restarted := loadQueue (construct cfg (store (saveQueue now w))) in
  tasks (mgr restarted) = tasks (mgr w) ∧
  running (mgr restarted) = running (mgr w) ∧
  completed (mgr restarted) = completed (mgr w) ∧
  failed (mgr restarted) = failed (mgr w) ∧
  ∀ task, task ∈ tasks (mgr w) → CrawlTask.id task ∈ running (mgr w) →
          task ∈ tasks (mgr restarted) ∧
          CrawlTask.id task ∈ running (mgr restarted) ∧
          ∀ now', ready now' (mgr restarted) task = false.
Proof.
  intros restarted.
  assert (Ht : tasks (mgr restarted) = tasks (mgr w)).
  { unfold restarted, construct, loadQueue, loadFrom, saveQueue; simpl.
    apply (derefs_seq (tasks (mgr w)) []). }
  assert (Hr : running (mgr restarted) = running (mgr w)).
  { unfold restarted, construct, loadQueue, loadFrom, saveQueue; simpl.
    apply list_to_set_elements_L. }
  split; [done|]. split; [done|].
  split.
  { unfold restarted, construct, loadQueue, loadFrom, saveQueue; simpl.
    apply list_to_set_elements_L. }
  split.
  { unfold restarted, construct, loadQueue, loadFrom, saveQueue; simpl.
    apply list_to_set_elements_L. }
  intros task Hin Hrun. rewrite Ht, Hr. split; [done|]. split; [done|].
  intros now'. unfold ready. rewrite Hr.
  rewrite bool_decide_eq_true_2 by done. apply andb_false_r.
Qed.

Lemma restart_restores_saved_state_witness :
  elements (running (mgr (loadQueue
                            (construct defaultConcurrencyConfig
                               (store (saveQueue 1003 savedInFlight))))))
  = ["dashboard_1000_ndclwo"].
Proof.
  pose proof (restart_restores_saved_state savedInFlight 1003
                defaultConcurrencyConfig) as (_ & H & _).
  rewrite H. by vm_compute.
Defined.

(** C2 at that input: [loadQueue] puts the saved running set back and
    nothing of the new process clears it.  The dashboard task that was in
    flight when the queue was saved comes back in the queue and in the
    running set, so the guard of [processQueue] holds it back at every
    clock reading.  With four tasks in flight at save time the restored
    running set fills the concurrency limit of the new process, in which no
    execution is under way: no task can be started, the courses task that
    was waiting included. *)
Theorem restart_keeps_in_flight_running :
  let restarted :=
    loadQueue (construct defaultConcurrencyConfig (store savedInFlight)) in
  let wedged :=
    loadQueue (construct defaultConcurrencyConfig (store savedFourInFlight)) in
  crawlQueue (store savedInFlight) = Some (tasks (mgr savedInFlight)) ∧
  (∃ task, task ∈ tasks (mgr savedInFlight) ∧
           CrawlTask.id task ∈ running (mgr savedInFlight) ∧
           task ∈ tasks (mgr restarted) ∧
           CrawlTask.id task ∈ running (mgr restarted) ∧
           ∀ now, ready now (mgr restarted) task = false) ∧
  crawlQueue (store savedFourInFlight) = Some (tasks (mgr savedFourInFlight)) ∧
  map CrawlTask.type (tasks (mgr wedged))
  = [dashboard; dashboard; dashboard; dashboard; course_list] ∧
  size (running (mgr wedged)) = 4%nat ∧
  atCapacity (mgr wedged) = true ∧
  ∀ now r, ¬ startable now (mgr wedged) r.
Proof.
  intros restarted wedged.
  split; [done|]. split.
  { eexists. split; [vm_compute; left|]. split; [by vm_compute|].
    split; [vm_compute; left|]. split; [by vm_compute|].
    intros now. unfold ready.
    rewrite bool_decide_eq_true_2 by (by vm_compute).
    apply andb_false_r. }
  split; [done|]. split; [by vm_compute|].
  assert (Hcap : atCapacity (mgr wedged) = true) by (by vm_compute).
  split; [by vm_compute|]. split; [done|].
  intros now r [Hfree _]. by rewrite Hcap in Hfree.
Qed.

(** *** Failure and the retry limit *)

(** C3 at that input: the code compares the attempt count with the limit of
    the configuration, never with the task's.  After the first failure the
    count has reached the task's limit and after the second it exceeds it,
    yet the task is still queued, is not in the failed set, and no error was
    logged. *)
Theorem task_limit_not_consulted :
  map (fun t => (CrawlTask.retryCount t, CrawlTask.maxRetries t))
      (tasks (mgr failedOnce)) = [(1, 1)] ∧
  map (fun t => (CrawlTask.retryCount t, CrawlTask.maxRetries t))
      (tasks (mgr failedTwice)) = [(2, 1)] ∧
  elements (failed (mgr failedTwice)) = [] ∧
  recentErrors (store failedTwice) = None.
Proof. by vm_compute. Qed.

(** What the code does at the limit of the configuration: the failure that
    brings the count to [maxRetries (config _)] takes the task out of the
    queue and the running set, puts it in the failed set and logs it first
    in a list of at most 50. *)
Lemma failTask_exhausted msg random tNow tRemoved tWhen tSaved r w task :
  deref (mgr w) r = Some task →
  (maxRetries (config (mgr w)) <= CrawlTask.retryCount task + 1)%Z →
  let w' := failTask msg random tNow tRemoved tWhen tSaved r w in
  let cur := recordFailure msg task in
  CrawlTask.id task ∈ failed (mgr w') ∧
  (CrawlTask.id task ∉ running (mgr w')) ∧
  (length (queue (mgr w')) ≤ length (queue (mgr w)))%nat ∧
  recentErrors (store w')
  = Some (take 50 ({| re_id := CrawlTask.id task;
                      re_type := CrawlTask.type task;
                      re_url := CrawlTask.url task;
                      re_error := Some msg; re_when := tWhen |}
                   :: default [] (recentErrors (store w)))) ∧
  (∀ l, recentErrors (store w') = Some l → (length l ≤ 50)%nat).
Proof.
  intros Hd Hle w' cur.
  assert (Hd' : deref (mutate (mgr w) r (recordFailure msg)) r = Some cur).
  { unfold deref, mutate in *; simpl. by rewrite list_lookup_alter_eq, Hd. }
  assert (Hst : ∀ v, store (removeTask tRemoved (CrawlTask.id task) v).2
                     = {| crawlQueue := crawlQueue
                            (store (removeTask tRemoved (CrawlTask.id task) v).2);
                          queueStats := queueStats
                            (store (removeTask tRemoved (CrawlTask.id task) v).2);
                          recentErrors := recentErrors (store v) |}).
  { intros v. unfold removeTask.
    destruct (findIndex (mgr v) _); simpl; [done|by destruct (store v)]. }
  unfold w', failTask. cbv zeta. rewrite Hd'. simpl CrawlTask.retryCount.
  replace (_ >=? _) with true by (symmetry; apply Z.geb_le; simpl; lia).
  simpl. rewrite running_removeTask. simpl.
  split; [|split; [set_solver|split]].
  - unfold removeTask. destruct (findIndex _ _); simpl; set_solver.
  - unfold removeTask. destruct (findIndex _ _); simpl; [|done].
    unfold splice1. rewrite length_app, length_take, length_drop. lia.
  - rewrite Hst. simpl. split; [done|].
    intros l [= <-]. simpl. rewrite length_take. lia.
Qed.

(** *** The queue array and the running set *)

Lemma beginTask_Some now r w task :
  deref (mgr w) r = Some task →
  beginTask now r w
  = {| mgr := mutate (withSets (mgr w)
                        ({[CrawlTask.id task]} ∪ running (mgr w))
                        (completed (mgr w)) (failed (mgr w)))
                     r (setLastAttempt now);
       store := store w |}.
Proof. intros Hd. unfold beginTask. by rewrite Hd. Qed.

Lemma running_addTask tId tC tS task w :
  running (mgr (addTask tId tC tS task w).2) = running (mgr w).
Proof.
  simpl. unfold enqueue.
  destruct (findIndex (mgr w) _); [|done].
  destruct (_ ≫= _); [|done]. by destruct (_ >? _).
Qed.

Lemma deref_recordFailure m r msg task :
  deref m r = Some task →
  deref (mutate m r (recordFailure msg)) r = Some (recordFailure msg task).
Proof.
  intros Hd. unfold deref, mutate in *; simpl.
  by rewrite list_lookup_alter_eq, Hd.
Qed.

(** The moves that take an identifier out of the running set. *)
Lemma leaves_running w w' id :
  move w w' → id ∈ running (mgr w) → id ∉ running (mgr w') →
  (∃ tSaved, w' = clearQueue tSaved w) ∨
  (∃ result, w' = loadFrom result w) ∨
  ∃ r task, deref (mgr w) r = Some task ∧ CrawlTask.id task = id ∧
    ((∃ tRemoved tSaved, w' = completeTask tRemoved tSaved r w) ∨
     (∃ msg random tNow tRemoved tWhen tSaved,
         w' = failTask msg random tNow tRemoved tWhen tSaved r w)).
Proof.
  intros [w2 Hstep|result] Hin Hout; [|right; left; by exists result].
  destruct Hstep as [tId tC tS task|tS|Hcap|now r Hst|tR tS r Hr
                    |msg rnd tN tR tW tS r Hr].
  - by rewrite running_addTask in Hout.
  - left. by exists tS.
  - done.
  - destruct Hst as (_ & task & Hd & _).
    rewrite (beginTask_Some _ _ _ _ Hd) in Hout. simpl in Hout. set_solver.
  - destruct Hr as [task Hd]. right; right. exists r, task.
    split; [done|]. split; [|left; by exists tR, tS].
    unfold completeTask in Hout. cbv zeta in Hout. rewrite Hd in Hout.
    simpl in Hout. rewrite running_removeTask in Hout. simpl in Hout.
    destruct (decide (CrawlTask.id task = id)); [done|set_solver].
  - destruct Hr as [task Hd]. right; right. exists r, task.
    split; [done|]. split; [|right; by exists msg, rnd, tN, tR, tW, tS].
    unfold failTask in Hout. cbv zeta in Hout.
    rewrite (deref_recordFailure _ _ _ _ Hd) in Hout.
    simpl in Hout.
    destruct (CrawlTask.retryCount task + 1 >=? maxRetries (config (mgr w)));
      simpl in Hout; rewrite ?running_removeTask in Hout; simpl in Hout;
      (destruct (decide (CrawlTask.id task = id)); [done|set_solver]).
Qed.

(** The moves that take an identifier out of the queue array. *)
Lemma leaves_queue w w' id :
  move w w' → queued (mgr w) id → ¬ queued (mgr w') id →
  (∃ tSaved, w' = clearQueue tSaved w) ∨
  (∃ result, w' = loadFrom result w) ∨
  ∃ r task, deref (mgr w) r = Some task ∧ CrawlTask.id task = id ∧
    ((∃ tRemoved tSaved, w' = completeTask tRemoved tSaved r w) ∨
     (∃ msg random tNow tRemoved tWhen tSaved,
         w' = failTask msg random tNow tRemoved tWhen tSaved r w)).
Proof.
  intros [w2 Hstep|result] Hin Hout; [|right; left; by exists result].
  destruct Hstep as [tId tC tS task|tS|Hcap|now r Hst|tR tS r Hr
                    |msg rnd tN tR tW tS r Hr].
  - exfalso. apply Hout. simpl. by apply queued_enqueue.
  - left. by exists tS.
  - exfalso. apply Hout. simpl. destruct Hin as (r & t & ? & ? & ?).
    exists r, t. split; [by apply elem_of_sorted|done].
  - exfalso. apply Hout. destruct Hst as (_ & task & Hd & _).
    rewrite (beginTask_Some _ _ _ _ Hd). simpl.
    apply queued_mutate; [done|]. by apply queued_withSets.
  - destruct Hr as [task Hd]. right; right. exists r, task.
    split; [done|]. split; [|left; by exists tR, tS].
    destruct (decide (CrawlTask.id task = id)) as [|Hne]; [done|].
    exfalso. apply Hout. unfold completeTask. cbv zeta. rewrite Hd. simpl.
    apply queued_removeTask; [done|]. by apply queued_withSets.
  - destruct Hr as [task Hd]. right; right. exists r, task.
    split; [done|]. split; [|right; by exists msg, rnd, tN, tR, tW, tS].
    destruct (decide (CrawlTask.id task = id)) as [|Hne]; [done|].
    exfalso. apply Hout. unfold failTask. cbv zeta.
    rewrite (deref_recordFailure _ _ _ _ Hd). simpl.
    destruct (CrawlTask.retryCount task + 1 >=? maxRetries (config (mgr w)));
      simpl.
    + apply queued_removeTask; [done|].
      apply queued_withSets, queued_mutate; done.
    + apply queued_withSets. apply queued_mutate; [done|].
      by apply queued_mutate.
Qed.

(** C6, as the code has it.  Handing a task to [executeTask] adds its
    identifier to the running set and leaves the queue array as it is, so a
    task started from the queue is in both at once.  [processQueue] starts
    a task only when its identifier is not in the running set, and while
    the identifier is there no task that bears it can be started.  An
    identifier leaves the running set, and a queued identifier the queue
    array, only when an execution of a task with that identifier completes
    or fails, when the queue is cleared, or when the load that the
    constructor started lands. *)
Theorem in_flight_marked_in_place (w : World) (now : Z) (r : nat) :
  startable now (mgr w) r →
  (∃ task, deref (mgr w) r = Some task ∧
     (CrawlTask.id task ∉ running (mgr w)) ∧
     queue (mgr (beginTask now r w)) = queue (mgr w) ∧
     running (mgr (beginTask now r w))
     = {[CrawlTask.id task]} ∪ running (mgr w) ∧
     (r ∈ queue (mgr w) →
      queued (mgr (beginTask now r w)) (CrawlTask.id task)) ∧
     (∀ now' r' task',
        deref (mgr (beginTask now r w)) r' = Some task' →
        CrawlTask.id task' = CrawlTask.id task →
        ¬ startable now' (mgr (beginTask now r w)) r')) ∧
  ∀ v v' id,
    move v v' →
    (id ∈ running (mgr v) ∧ id ∉ running (mgr v')) ∨
    (queued (mgr v) id ∧ ¬ queued (mgr v') id) →
    (∃ tSaved, v' = clearQueue tSaved v) ∨
    (∃ result, v' = loadFrom result v) ∨
    ∃ r task, deref (mgr v) r = Some task ∧ CrawlTask.id task = id ∧
      ((∃ tRemoved tSaved, v' = completeTask tRemoved tSaved r v) ∨
       (∃ msg random tNow tRemoved tWhen tSaved,
           v' = failTask msg random tNow tRemoved tWhen tSaved r v)).
Proof.
  intros (Hcap & task & Hd & Hready). split.
  - exists task. split; [done|].
    apply andb_true_iff in Hready as [_ Hnot].
    apply negb_true_iff, bool_decide_eq_false in Hnot. split; [done|].
    rewrite (beginTask_Some _ _ _ _ Hd). simpl.
    split; [done|]. split; [done|]. split.
    + intros Hr. apply queued_mutate; [done|]. by exists r, task.
    + intros now' r' task' Hd' Hid (_ & task'' & Hd'' & Hready').
      rewrite Hd' in Hd''. injection Hd'' as <-.
      apply andb_true_iff in Hready' as [_ Hnot'].
      apply negb_true_iff, bool_decide_eq_false in Hnot'.
      apply Hnot'. simpl. rewrite Hid. set_solver.
  - intros v v' id Hmove [[Hin Hout]|[Hin Hout]].
    + by apply (leaves_running v v' id).
    + by apply (leaves_queue v v' id).
Qed.

Lemma in_flight_marked_in_place_witness :
  running (mgr (beginTask 1000 0 oneQueued))
  = {["dashboard_1000_ndclwo"]} ∪ running (mgr oneQueued) ∧
  queue (mgr (beginTask 1000 0 oneQueued)) = queue (mgr oneQueued).
Proof.
  destruct (in_flight_marked_in_place oneQueued 1000 0 startable_oneQueued)
    as [(task & Hd & _ & Hq & Hr & _) _].
  assert (Ht : task = newCrawlTask "dashboard_1000_ndclwo" 1000
                        (dashboardTask 5 3 1000)).
  { vm_compute in Hd. by injection Hd as <-. }
  rewrite Ht in Hr. split; [exact Hr|exact Hq].
Defined.

(** C6 as stated fails: after [processQueue] has handed the one queued task
    to [executeTask], its identifier is in the running set and in the queue
    array at once. *)
Lemma in_flight_task_still_queued :
  rtc step fresh oneInFlight ∧
  "dashboard_1000_ndclwo" ∈ running (mgr oneInFlight) ∧
  "dashboard_1000_ndclwo" ∈ queuedIds (mgr oneInFlight).
Proof.
  split; [|split; [by vm_compute|vm_compute; left]].
  eapply rtc_l; [apply (step_addTask fresh 1000 1000 1000
                          (dashboardTask 5 3 1000))|].
  eapply rtc_l; [|apply rtc_refl].
  apply (step_begin _ 1000 0), startable_oneQueued.
Qed.

(** *** Retry delay *)

Lemma pow2_pos (z : Z) : (0 < Qpower 2 z)%Q.
Proof. by apply Qpower_0_lt. Qed.

Lemma exponentialDelay_exact cfg n :
  0 < retryDelayMs cfg < 2 ^ 53 → 1 ≤ n →
  (exponentialDelay cfg n == inject_Z (retryDelayMs cfg) * Qpower 2 (n - 1))%Q.
Proof.
  intros Hb Hn. unfold exponentialDelay.
  assert (Hp : (JS.roundDouble (2 ^ (n - 1)) == 2 ^ (n - 1))%Q).
  { pose proof (DoubleFacts.roundDouble_exact 1 (n - 1) ltac:(lia) ltac:(lia)) as H.
    pose proof (DoubleFacts.two_pow_pos (n - 1)).
    rewrite <- (DoubleFacts.roundDouble_comp (inject_Z 1 * 2 ^ (n - 1)) (2 ^ (n - 1)));
      [rewrite H; ring| |ring].
    change (inject_Z 1) with 1%Q. lra. }
  pose proof (DoubleFacts.two_pow_pos (n - 1)).
  assert (Hb0 : (0 < inject_Z (retryDelayMs cfg))%Q).
  { change 0%Q with (inject_Z 0). rewrite <- Zlt_Qlt. lia. }
  rewrite (DoubleFacts.roundDouble_comp _ (inject_Z (retryDelayMs cfg) * 2 ^ (n - 1))).
  - apply DoubleFacts.roundDouble_exact; lia.
  - rewrite Hp. nra.
  - by rewrite Hp.
Qed.

Lemma exponentialDelay_pos cfg n :
  0 < retryDelayMs cfg < 2 ^ 53 → 1 ≤ n → (0 < exponentialDelay cfg n)%Q.
Proof.
  intros Hb Hn. rewrite exponentialDelay_exact by done.
  apply Qmult_lt_0_compat; [|apply DoubleFacts.two_pow_pos].
  change 0%Q with (inject_Z 0). rewrite <- Zlt_Qlt. lia.
Qed.

Lemma exponentialDelay_succ cfg n :
  0 < retryDelayMs cfg < 2 ^ 53 → 1 ≤ n →
  (exponentialDelay cfg (n + 1) == 2 * exponentialDelay cfg n)%Q.
Proof.
  intros Hb Hn. rewrite !exponentialDelay_exact by lia.
  replace (n + 1 - 1) with (n - 1 + 1) by lia.
  rewrite Qpower_plus by discriminate. change (Qpower 2 1) with 2%Q. ring.
Qed.

Lemma exponentialDelay_double cfg n :
  0 < retryDelayMs cfg < 2 ^ 53 → 1 ≤ n →
  (JS.roundDouble (exponentialDelay cfg n) == exponentialDelay cfg n)%Q.
Proof.
  intros Hb Hn. unfold exponentialDelay. apply DoubleFacts.roundDouble_idem.
  apply Qmult_le_0_compat.
  - change 0%Q with (inject_Z 0). rewrite <- Zle_Qle. lia.
  - apply DoubleFacts.roundDouble_nonneg. pose proof (DoubleFacts.two_pow_pos (n - 1)). lra.
Qed.

(** The literal [0.3] as a fraction: a little less than three tenths. *)
Lemma dotThree_value : dotThree = (5404319552844595 # 18014398509481984)%Q.
Proof. by vm_compute. Qed.

Lemma dotThree_double : (JS.roundDouble dotThree == dotThree)%Q.
Proof. unfold dotThree. by apply DoubleFacts.roundDouble_idem. Qed.

(** The jitter of [calculateRetryDelay]. *)
Lemma jitter_bounds (e random : Q) :
  (0 <= e)%Q → (0 <= random)%Q → (random < 1)%Q →
  let jitter := JS.roundDouble (JS.roundDouble (random * dotThree) * e) in
  (0 <= jitter)%Q ∧ (jitter <= JS.roundDouble ((3 # 10) * e))%Q.
Proof.
  intros He Hr0 Hr1 jitter.
  assert (Hd : (0 <= dotThree)%Q) by (rewrite dotThree_value; done).
  assert (H3 : (dotThree <= 3 # 10)%Q) by (rewrite dotThree_value; done).
  assert (Hrd : (0 <= JS.roundDouble (random * dotThree))%Q).
  { apply DoubleFacts.roundDouble_nonneg. nra. }
  assert (Hle : (JS.roundDouble (random * dotThree) <= dotThree)%Q).
  { rewrite <- dotThree_double at 2. apply DoubleFacts.roundDouble_mono; nra. }
  split.
  - apply DoubleFacts.roundDouble_nonneg. nra.
  - apply DoubleFacts.roundDouble_mono; nra.
Qed.

Lemma jitter_zero (e : Q) :
  (JS.roundDouble (JS.roundDouble (0 * dotThree) * e) == 0)%Q.
Proof.
  rewrite (DoubleFacts.roundDouble_zero (0 * dotThree)) by ring.
  rewrite DoubleFacts.roundDouble_zero by ring. reflexivity.
Qed.

Lemma calculateRetryDelay_zero cfg n :
  0 < retryDelayMs cfg < 2 ^ 53 → 1 ≤ n →
  (calculateRetryDelay cfg n 0 == Qmin (exponentialDelay cfg n) 30000)%Q.
Proof.
  intros Hb Hn. unfold calculateRetryDelay.
  fold (exponentialDelay cfg n).
  pose proof (exponentialDelay_pos cfg n Hb Hn) as He.
  set (e := exponentialDelay cfg n) in *.
  assert (H : (JS.roundDouble (e + JS.roundDouble (JS.roundDouble (0 * dotThree) * e))
               == e)%Q).
  { pose proof (exponentialDelay_double cfg n Hb Hn) as Hd. fold e in Hd.
    pose proof (jitter_zero e) as Hz.
    apply Qeq_trans with (JS.roundDouble e); [|exact Hd].
    apply DoubleFacts.roundDouble_comp; lra. }
  by rewrite H.
Qed.

(** C8, as the code has it.  For a base delay that is a positive integer
    below [2^53], an attempt number from 1 to 970 (so that no value on the
    way leaves the range of the doubles) and a random number in [0, 1): the
    exponential value is [base * 2^(n-1)], exactly; the jitter added to it
    is not negative and is at most 30% of it, rounded to the nearest
    double; and the delay is their sum, rounded, cut off at 30000 ms, so it
    is never below the exponential value cut off at 30000 ms.  Without the
    jitter it never decreases from one attempt to the next, and grows
    strictly as long as the exponential value is below the ceiling. *)
Theorem retry_delay_bounds (cfg : ConcurrencyConfig) (n : Z) (random : Q) :
  0 < retryDelayMs cfg < 2 ^ 53 → 1 ≤ n ≤ 970 →
  (0 <= random)%Q → (random < 1)%Q →
  let e := exponentialDelay cfg n in
  let jitter := JS.roundDouble (JS.roundDouble (random * dotThree) * e) in
  (e == inject_Z (retryDelayMs cfg) * Qpower 2 (n - 1))%Q ∧
  (calculateRetryDelay cfg n random
   == Qmin (JS.roundDouble (e + jitter)) 30000)%Q ∧
  (0 <= jitter)%Q ∧ (jitter <= JS.roundDouble ((3 # 10) * e))%Q ∧
  (Qmin e 30000 <= calculateRetryDelay cfg n random)%Q ∧
  (calculateRetryDelay cfg n random <= 30000)%Q ∧
  (calculateRetryDelay cfg n 0 == Qmin e 30000)%Q ∧
  (calculateRetryDelay cfg n 0 <= calculateRetryDelay cfg (n + 1) 0)%Q ∧
  ((e < 30000)%Q →
   (calculateRetryDelay cfg n 0 < calculateRetryDelay cfg (n + 1) 0)%Q).
Proof.
  intros Hb [Hn Hn'] Hr0 Hr1 e jitter.
  pose proof (exponentialDelay_pos cfg n Hb Hn) as He. fold e in He.
  pose proof (exponentialDelay_succ cfg n Hb Hn) as Hs. fold e in Hs.
  pose proof (jitter_bounds e random ltac:(lra) Hr0 Hr1) as [Hj0 Hj1].
  fold jitter in Hj0, Hj1.
  split; [by apply exponentialDelay_exact|].
  split; [reflexivity|]. split; [done|]. split; [done|].
  split.
  { unfold calculateRetryDelay. fold (exponentialDelay cfg n). fold e.
    fold jitter. apply Q.min_le_compat_r.
    pose proof (exponentialDelay_double cfg n Hb Hn) as Hd. fold e in Hd.
    apply Qle_trans with (JS.roundDouble e); [lra|].
    apply DoubleFacts.roundDouble_mono; lra. }
  split; [apply Q.le_min_r|].
  split; [by apply calculateRetryDelay_zero|].
  rewrite !calculateRetryDelay_zero by lia. fold e. rewrite Hs.
  split.
  - apply Q.min_le_compat_r. lra.
  - intros Hlt. rewrite (Q.min_l e) by lra.
    apply Q.min_glb_lt; lra.
Qed.

Lemma retry_delay_bounds_witness :
  (calculateRetryDelay defaultConcurrencyConfig 1 0
   < calculateRetryDelay defaultConcurrencyConfig 2 0)%Q.
Proof.
  refine (proj2 (proj2 (proj2 (proj2 (proj2 (proj2 (proj2 (proj2
    (retry_delay_bounds defaultConcurrencyConfig 1 0 _ _ _ _)))))))) _);
    by vm_compute.
Defined.

(** C8 as stated fails: once the exponential value has passed the ceiling
    the delay stays at 30000 ms, so from the sixth to the seventh attempt
    of the default configuration it does not grow. *)
Lemma retry_delay_not_strictly_increasing :
  ¬ (calculateRetryDelay defaultConcurrencyConfig 6 0
     < calculateRetryDelay defaultConcurrencyConfig 7 0)%Q.
Proof. by vm_compute. Qed.

(** The jitter does reach 30%: with the largest random number below 1 the
    first two delays of the default configuration are 1300 and 2600 ms. *)
Lemma retry_delay_full_jitter :
  (calculateRetryDelay defaultConcurrencyConfig 1
     (9007199254740991 # 9007199254740992) == 1300)%Q ∧
  (calculateRetryDelay defaultConcurrencyConfig 2
     (9007199254740991 # 9007199254740992) == 2600)%Q.
Proof. by vm_compute. Qed.
End QueueFacts.

(** ** Normalisation of page content *)

Module NormalizeFacts.
Import Normalize.

Section Pass.
Variable m : Matcher.
Variable rep : list ascii.

Lemma replaceFrom_skip a x :
  replaceFrom m rep (length a) (a ++ x) = replaceFrom m rep 0 x.
Proof.
  induction a as [|c a IH]; simpl; [|done].
  destruct x; done.
Qed.

Lemma replaceFrom_match a x :
  a ≠ [] → m (a ++ x) = Some (length a) →
  replaceFrom m rep 0 (a ++ x) = rep ++ replaceFrom m rep 0 x.
Proof.
  destruct a as [|c a]; [done|]. intros _ Hm. simpl in *.
  rewrite Hm. by rewrite replaceFrom_skip.
Qed.

Lemma replaceFrom_inert a x :
  (∀ a1 a2, a = a1 ++ a2 → a2 ≠ [] → m (a2 ++ x) = None) →
  replaceFrom m rep 0 (a ++ x) = a ++ replaceFrom m rep 0 x.
Proof.
  induction a as [|c a IH]; intros H; [done|].
  change ((c :: a) ++ x) with (c :: (a ++ x)).
  cbn [replaceFrom].
  pose proof (H [] (c :: a) eq_refl ltac:(done)) as H0. simpl in H0.
  rewrite H0. simpl. f_equal. apply IH.
  intros a1 a2 -> Hne. by apply (H (c :: a1) a2).
Qed.

Lemma replaceFrom_barrier c k a x :
  barrier m c → bounded m → (k ≤ length a)%nat →
  replaceFrom m rep k (a ++ c :: x)
  = replaceFrom m rep k a ++ c :: replaceFrom m rep 0 x.
Proof.
  intros Hb Hbd. revert k. induction a as [|a0 a IH]; intros k Hk.
  - simpl in Hk. replace k with 0%nat by lia. simpl.
    specialize (Hb [] x). simpl in Hb. rewrite Hb.
    destruct (m []) as [[|n]|] eqn:Hm; try done.
    apply Hbd in Hm. simpl in Hm. lia.
  - change ((a0 :: a) ++ c :: x) with (a0 :: (a ++ c :: x)).
    destruct k as [|k]; cbn [replaceFrom].
    + specialize (Hb (a0 :: a) x). simpl in Hb. rewrite Hb.
      destruct (m (a0 :: a)) as [[|n]|] eqn:Hm.
      * simpl. f_equal. apply IH. lia.
      * apply Hbd in Hm. simpl in Hm. rewrite IH by lia.
        by rewrite app_assoc.
      * simpl. f_equal. apply IH. lia.
    + apply IH. simpl in Hk. lia.
Qed.

Lemma replaceFrom_barrier_head c x :
  barrier m c → bounded m →
  replaceFrom m rep 0 (c :: x) = c :: replaceFrom m rep 0 x.
Proof.
  intros Hb Hbd.
  by pose proof (replaceFrom_barrier c 0 [] x Hb Hbd (le_n 0)).
Qed.

Lemma replaceFrom_Forall (P : ascii → Prop) k s :
  Forall P rep → Forall P s → Forall P (replaceFrom m rep k s).
Proof.
  intros Hrep Hs. revert k.
  induction Hs as [|c s Hc Hs IH]; intros k; [done|].
  cbn [replaceFrom]. destruct k as [|k]; [|apply IH].
  destruct (m (c :: s)) as [[|n]|].
  - constructor; [done|apply IH].
  - apply Forall_app. split; [done|apply IH].
  - constructor; [done|apply IH].
Qed.

Hypothesis stops : ∀ c, stop c → barrier m c.
Hypothesis bound : bounded m.

Lemma replaceAll_nil : replaceAll m rep [] = [].
Proof. done. Qed.

Lemma replaceAll_left pre x :
  delimitedLeft pre →
  replaceAll m rep (pre ++ x) = replaceAll m rep pre ++ replaceAll m rep x.
Proof.
  intros [-> | (l & b & -> & Hb)]; [done|]. unfold replaceAll.
  rewrite <- app_assoc. simpl.
  rewrite !replaceFrom_barrier by (auto; lia).
  by rewrite <- app_assoc.
Qed.

Lemma replaceAll_right x post :
  delimitedRight post →
  replaceAll m rep (x ++ post) = replaceAll m rep x ++ replaceAll m rep post.
Proof.
  intros [-> | (b & r & -> & Hb)].
  - by rewrite !app_nil_r.
  - unfold replaceAll. rewrite replaceFrom_barrier by (auto; lia).
    by rewrite (replaceFrom_barrier_head b r) by auto.
Qed.

Lemma delimitedLeft_replaceAll pre :
  delimitedLeft pre → delimitedLeft (replaceAll m rep pre).
Proof.
  intros [-> | (l & b & -> & Hb)]; [by left|]. right.
  exists (replaceAll m rep l), b. split; [|done]. unfold replaceAll.
  by rewrite replaceFrom_barrier by (auto; lia).
Qed.

Lemma delimitedRight_replaceAll post :
  delimitedRight post → delimitedRight (replaceAll m rep post).
Proof.
  intros [-> | (b & r & -> & Hb)]; [by left|]. right.
  exists b, (replaceAll m rep r). split; [|done]. unfold replaceAll.
  by rewrite (replaceFrom_barrier_head b r) by auto.
Qed.
End Pass.

(** *** The matchers *)

Lemma matchSeq_length pat s :
  matchSeq pat s = true → (length pat ≤ length s)%nat.
Proof.
  revert s. induction pat as [|p pat IH]; intros [|c s] H; simpl in *;
    try done; try lia.
  apply andb_true_iff in H as [_ H]. apply IH in H. lia.
Qed.

Lemma matchSeq_app pat a x :
  matchSeq pat a = true → matchSeq pat (a ++ x) = true.
Proof.
  revert a. induction pat as [|p pat IH]; intros [|c a] H; simpl in *;
    try done.
  apply andb_true_iff in H as [-> H]. by apply IH.
Qed.

Lemma matchSeq_barrier pat a c x :
  Forall (fun p => p c = false) pat →
  matchSeq pat (a ++ c :: x) = matchSeq pat a.
Proof.
  intros Hpat. revert a.
  induction Hpat as [|p pat Hp _ IH]; intros [|a0 a]; simpl; try done.
  - by rewrite Hp.
  - by rewrite IH.
Qed.

Lemma matchSeq_item pat s i p :
  matchSeq pat s = true → pat !! i = Some p →
  ∃ c, s !! i = Some c ∧ p c = true.
Proof.
  revert s i. induction pat as [|q pat IH]; intros [|c s] [|i] H Hp;
    simpl in *; try done.
  - injection Hp as ->. apply andb_true_iff in H as [H _]. by exists c.
  - apply andb_true_iff in H as [_ H]. by eapply IH.
Qed.

Lemma spanLen_le p s : (spanLen p s ≤ length s)%nat.
Proof. induction s as [|c s IH]; simpl; [lia|]. destruct (p c); simpl; lia. Qed.

Lemma spanLen_barrier p a c x :
  p c = false → spanLen p (a ++ c :: x) = spanLen p a.
Proof.
  intros Hc. induction a as [|a0 a IH]; simpl; [by rewrite Hc|].
  by rewrite IH.
Qed.

Lemma spanLen_all p a x :
  Forall (fun c => p c = true) a →
  spanLen p (a ++ x) = (length a + spanLen p x)%nat.
Proof. induction 1 as [|c a Hc _ IH]; simpl; [done|]. by rewrite Hc, IH. Qed.

Lemma spanLen_all_nil p a :
  Forall (fun c => p c = true) a → spanLen p a = length a.
Proof.
  intros H. rewrite <- (app_nil_r a) at 1. rewrite spanLen_all by done.
  simpl. lia.
Qed.

(** Every item of the patterns rejects the units that end a token. *)
Lemma stop_stopChars c : stop c → In c stopChars.
Proof.
  unfold stop.
  destruct c as [[] [] [] [] [] [] [] []]; vm_compute; intros H;
    first [discriminate H | clear H; tauto].
Qed.

Lemma rejectsStops_spec pat c :
  rejectsStops pat = true → stop c → Forall (fun p => p c = false) pat.
Proof.
  intros H Hc. apply stop_stopChars in Hc.
  unfold rejectsStops in H. rewrite forallb_forall in H.
  apply Forall_forall. intros p Hp. apply list_elem_of_In in Hp.
  specialize (H p Hp). rewrite forallb_forall in H.
  apply negb_true_iff. by apply H.
Qed.

Lemma isoTimestamp_bounded : bounded isoTimestamp.
Proof.
  intros a n. unfold isoTimestamp.
  destruct (matchSeq isoPattern a) eqn:H; [|done].
  intros [= <-]. by apply (matchSeq_length isoPattern).
Qed.

Lemma isoTimestamp_barrier c : stop c → barrier isoTimestamp c.
Proof.
  intros Hc a x. unfold isoTimestamp.
  by rewrite matchSeq_barrier
    by (apply rejectsStops_spec; [by vm_compute|done]).
Qed.

Lemma epochRun_bounded : bounded epochRun.
Proof.
  intros a n. unfold epochRun. destruct (_ <=? _)%nat; [|done].
  intros [= <-]. apply spanLen_le.
Qed.

Lemma epochRun_barrier c : stop c → barrier epochRun c.
Proof.
  intros Hc a x. unfold epochRun. rewrite spanLen_barrier; [done|].
  apply stop_stopChars in Hc. simpl in Hc.
  repeat (destruct Hc as [<- | Hc]; [done|]). done.
Qed.

Lemma token_bounded w1 w2 : bounded (token w1 w2).
Proof.
  intros a n. unfold token.
  destruct (matchSeq _ a) eqn:H; [|done]. intros [= <-].
  apply matchSeq_length in H.
  pose proof (spanLen_le tokenChar (drop (length (tokenPattern w1 w2)) a)).
  rewrite length_drop in *. lia.
Qed.

Lemma token_barrier w1 w2 c :
  rejectsStops (tokenPattern w1 w2) = true → stop c →
  barrier (token w1 w2) c.
Proof.
  intros Hpat Hc a x. unfold token.
  rewrite matchSeq_barrier by (by apply rejectsStops_spec).
  destruct (matchSeq _ a) eqn:H; [|done].
  apply matchSeq_length in H. rewrite drop_app_le by done.
  by rewrite spanLen_barrier.
Qed.

(** *** A field on its own *)

Lemma isoTimestamp_head v x :
  isoField v →
  replaceAll isoTimestamp TIMESTAMP (v ++ x)
  = TIMESTAMP ++ replaceAll isoTimestamp TIMESTAMP x.
Proof.
  intros [Hm Hlen]. apply replaceFrom_match.
  - by destruct v.
  - unfold isoTimestamp. rewrite matchSeq_app by done. by rewrite Hlen.
Qed.

(** *** Patterns that cannot begin inside a text matched by another *)

Lemma In_allChars c : In c allChars.
Proof.
  unfold allChars. apply in_map_iff. exists (nat_of_ascii c).
  split; [apply ascii_nat_embedding|]. apply in_seq.
  pose proof (nat_ascii_bounded c). lia.
Qed.

Lemma compatible_intro p q c : p c = true → q c = true → compatible p q = true.
Proof.
  intros Hp Hq. unfold compatible. apply existsb_exists. exists c.
  split; [apply In_allChars|]. by rewrite Hp, Hq.
Qed.

Lemma canBeginAt_intro pat pat' a x :
  matchSeq pat a = true → length a = length pat →
  matchSeq pat' (a ++ x) = true → canBeginAt pat pat' = true.
Proof.
  revert pat' a. induction pat as [|p pat IH]; intros [|q pat'] [|c a];
    simpl; try done.
  intros Hm Hlen Hm'. apply andb_true_iff in Hm as [Hp Hm].
  apply andb_true_iff in Hm' as [Hq Hm'].
  rewrite (compatible_intro p q c) by done. simpl.
  eapply IH; [done|lia|done].
Qed.

Lemma matchSeq_drop pat a i :
  matchSeq pat a = true → matchSeq (drop i pat) (drop i a) = true.
Proof.
  revert pat a. induction i as [|i IH]; intros pat a H; [done|].
  destruct pat as [|p pat]; [by destruct a|].
  destruct a as [|c a]; [done|]. simpl in *.
  apply andb_true_iff in H as [_ H]. by apply IH.
Qed.

Lemma neverBeginsInside_spec pat pat' name a1 a2 x :
  neverBeginsInside pat pat' = true →
  matchSeq pat name = true → length name = length pat →
  name = a1 ++ a2 → a2 ≠ [] → matchSeq pat' (a2 ++ x) = false.
Proof.
  intros Hnever Hm Hlen -> Hne. apply not_true_iff_false. intros Hm'.
  unfold neverBeginsInside in Hnever. rewrite forallb_forall in Hnever.
  assert (Hi : (length a1 < length pat)%nat).
  { rewrite <- Hlen, length_app. destruct a2; [done|]. simpl. lia. }
  specialize (Hnever (length a1)).
  rewrite (canBeginAt_intro (drop (length a1) pat) pat' a2 x) in Hnever.
  - simpl in Hnever. discriminate Hnever. apply in_seq. lia.
  - apply (matchSeq_drop _ _ (length a1)) in Hm.
    by rewrite drop_app_length in Hm.
  - rewrite length_drop, <- Hlen, length_app. lia.
  - done.
Qed.

Lemma replaceAll_name m rep pat pat' name x :
  (∀ s, matchSeq pat' s = false → m s = None) →
  neverBeginsInside pat pat' = true →
  matchSeq pat name = true → length name = length pat →
  replaceAll m rep (name ++ x) = name ++ replaceAll m rep x.
Proof.
  intros Hm Hnever Hname Hlen. apply replaceFrom_inert.
  intros a1 a2 Heq Hne. apply Hm.
  by eapply neverBeginsInside_spec.
Qed.

Lemma isoTimestamp_fails s : matchSeq isoPattern s = false → isoTimestamp s = None.
Proof. unfold isoTimestamp. by intros ->. Qed.

Lemma epochRun_fails s : matchSeq [d] s = false → epochRun s = None.
Proof.
  unfold epochRun. destruct s as [|c s]; [done|]. simpl.
  rewrite andb_true_r. by intros ->.
Qed.

Lemma token_fails w1 w2 s :
  matchSeq (tokenPattern w1 w2) s = false → token w1 w2 s = None.
Proof. unfold token. by intros ->. Qed.

(** *** Passes that work on each side of a delimiter separately *)

Lemma splits_replaceAll m rep :
  (∀ c, stop c → barrier m c) → bounded m → splits (replaceAll m rep).
Proof.
  intros Hb Hbd. split; [|split; [|split]].
  - intros pre x. by apply replaceAll_left.
  - intros x post. by apply replaceAll_right.
  - intros pre. by apply delimitedLeft_replaceAll.
  - intros post. by apply delimitedRight_replaceAll.
Qed.

Lemma splits_compose f g : splits f → splits g → splits (g ∘ f).
Proof.
  intros (Hf1 & Hf2 & Hf3 & Hf4) (Hg1 & Hg2 & Hg3 & Hg4).
  split; [|split; [|split]]; simpl.
  - intros pre x Hpre. rewrite Hf1 by done. apply Hg1. by apply Hf3.
  - intros x post Hpost. rewrite Hf2 by done. apply Hg2. by apply Hf4.
  - intros pre Hpre. by apply Hg3, Hf3.
  - intros post Hpost. by apply Hg4, Hf4.
Qed.

Lemma splits_field f pre v1 v2 post :
  splits f → delimitedLeft pre → delimitedRight post → f v1 = f v2 →
  f (pre ++ v1 ++ post) = f (pre ++ v2 ++ post).
Proof.
  intros (Hf1 & Hf2 & _) Hpre Hpost Hv.
  rewrite !(Hf1 pre) by done. rewrite !(Hf2 _ post) by done.
  by rewrite Hv.
Qed.

Lemma splits_pass1 : splits pass1.
Proof.
  apply splits_replaceAll;
    [apply isoTimestamp_barrier|apply isoTimestamp_bounded].
Qed.

Lemma splits_pass2 : splits pass2.
Proof.
  apply splits_replaceAll; [apply epochRun_barrier|apply epochRun_bounded].
Qed.

Lemma splits_pass3 : splits pass3.
Proof.
  apply splits_replaceAll; [|apply token_bounded].
  intros c. apply token_barrier. by vm_compute.
Qed.

Lemma splits_pass4 : splits pass4.
Proof.
  apply splits_replaceAll; [|apply token_bounded].
  intros c. apply token_barrier. by vm_compute.
Qed.

Lemma splits_pass5 : splits pass5.
Proof.
  apply splits_replaceAll; [|apply token_bounded].
  intros c. apply token_barrier. by vm_compute.
Qed.

Lemma normalizeContent_passes c :
  normalizeContent c
  = trim (pass7 (pass6 (pass5 (pass4 (pass3 (pass2 (pass1 c))))))).
Proof. done. Qed.

(** *** The four kinds of field *)

Lemma iso_variants pre v1 v2 post :
  delimitedLeft pre → isoField v1 → isoField v2 →
  normalizeContent (pre ++ v1 ++ post) = normalizeContent (pre ++ v2 ++ post).
Proof.
  intros Hpre H1 H2. rewrite !normalizeContent_passes.
  destruct splits_pass1 as (Hs & _). unfold pass1 in *.
  rewrite !(Hs pre) by done. by rewrite !isoTimestamp_head by done.
Qed.

Lemma digits_not_iso v :
  Forall (fun c => d c = true) v → matchSeq isoPattern v = false.
Proof.
  intros Hv. apply not_true_iff_false. intros Hm.
  destruct (matchSeq_item isoPattern v 4 (lit "-") Hm eq_refl) as (c & Hc & Hl).
  apply list_elem_of_lookup_2 in Hc. rewrite Forall_forall in Hv.
  apply Hv in Hc. unfold lit in Hl. apply bool_decide_eq_true in Hl.
  by subst c.
Qed.

Lemma Forall_suffix {A} (P : A → Prop) (l a1 a2 : list A) :
  Forall P l → l = a1 ++ a2 → Forall P a2.
Proof. intros H ->. by apply Forall_app in H as [_ H]. Qed.

Lemma epoch_pass1 v : epochField v → pass1 v = v.
Proof.
  intros [Hv _]. unfold pass1, replaceAll.
  rewrite <- (app_nil_r v) at 1. rewrite replaceFrom_inert.
  - by rewrite app_nil_r.
  - intros a1 a2 Heq Hne. rewrite app_nil_r. apply isoTimestamp_fails.
    apply digits_not_iso. by eapply Forall_suffix.
Qed.

Lemma epoch_pass2 v : epochField v → pass2 v = TIMESTAMP.
Proof.
  intros [Hv Hlen]. unfold pass2, replaceAll.
  rewrite <- (app_nil_r v) at 1. rewrite replaceFrom_match.
  - by rewrite app_nil_r.
  - intros ->. simpl in Hlen. lia.
  - rewrite app_nil_r. unfold epochRun. rewrite spanLen_all_nil by done.
    by apply Nat.leb_le in Hlen as ->.
Qed.

Lemma epoch_variants pre v1 v2 post :
  delimitedLeft pre → delimitedRight post → epochField v1 → epochField v2 →
  normalizeContent (pre ++ v1 ++ post) = normalizeContent (pre ++ v2 ++ post).
Proof.
  intros Hpre Hpost H1 H2. rewrite !normalizeContent_passes.
  do 6 f_equal.
  apply (splits_field (fun s => pass2 (pass1 s))); try done.
  - apply (splits_compose pass1 pass2);
      [apply splits_pass1|apply splits_pass2].
  - by rewrite !epoch_pass1, !epoch_pass2.
Qed.

Lemma tokenChars_replaceAll m rep s :
  forallb tokenChar rep = true → tokenChars s → tokenChars (replaceAll m rep s).
Proof.
  intros Hrep Hs. apply replaceFrom_Forall; [|done].
  rewrite forallb_forall in Hrep. apply Forall_forall. intros c Hc.
  apply Hrep. by apply list_elem_of_In.
Qed.

Lemma token_head w1 w2 rep name value :
  matchSeq (tokenPattern w1 w2) name = true →
  length name = length (tokenPattern w1 w2) → tokenChars value →
  replaceAll (token w1 w2) rep (name ++ value) = rep.
Proof.
  intros Hm Hlen Hv. unfold replaceAll.
  rewrite <- (app_nil_r (name ++ value)) at 1. rewrite replaceFrom_match.
  - by rewrite app_nil_r.
  - intros Heq. apply (f_equal length) in Heq.
    rewrite length_app, Hlen in Heq. unfold tokenPattern in Heq.
    rewrite !length_app in Heq. simpl in Heq. lia.
  - rewrite app_nil_r. unfold token. rewrite matchSeq_app by done.
    rewrite <- Hlen, drop_app_length, spanLen_all_nil by done.
    by rewrite length_app.
Qed.

(** The first two passes leave the name of a token alone and keep its
    value within the token class. *)
Lemma token_pass12 w1 w2 name value :
  neverBeginsInside (tokenPattern w1 w2) isoPattern = true →
  neverBeginsInside (tokenPattern w1 w2) [d] = true →
  matchSeq (tokenPattern w1 w2) name = true →
  length name = length (tokenPattern w1 w2) → tokenChars value →
  ∃ value', pass2 (pass1 (name ++ value)) = name ++ value' ∧
            tokenChars value'.
Proof.
  intros Hn1 Hn2 Hm Hlen Hv. exists (pass2 (pass1 value)). split.
  - unfold pass1.
    rewrite (replaceAll_name _ _ _ _ _ _ isoTimestamp_fails Hn1 Hm Hlen).
    unfold pass2.
    by rewrite (replaceAll_name _ _ _ _ _ _ epochRun_fails Hn2 Hm Hlen).
  - by repeat apply tokenChars_replaceAll.
Qed.

Lemma never_session_iso :
  neverBeginsInside (tokenPattern "session" "id") isoPattern = true.
Proof. by vm_compute. Qed.
Lemma never_session_digit :
  neverBeginsInside (tokenPattern "session" "id") [d] = true.
Proof. by vm_compute. Qed.
Lemma never_csrf_iso :
  neverBeginsInside (tokenPattern "csrf" "token") isoPattern = true.
Proof. by vm_compute. Qed.
Lemma never_csrf_digit :
  neverBeginsInside (tokenPattern "csrf" "token") [d] = true.
Proof. by vm_compute. Qed.
Lemma never_csrf_session :
  neverBeginsInside (tokenPattern "csrf" "token")
                    (tokenPattern "session" "id") = true.
Proof. by vm_compute. Qed.
Lemma never_auth_iso :
  neverBeginsInside (tokenPattern "authenticity" "token") isoPattern = true.
Proof. by vm_compute. Qed.
Lemma never_auth_digit :
  neverBeginsInside (tokenPattern "authenticity" "token") [d] = true.
Proof. by vm_compute. Qed.
Lemma never_auth_session :
  neverBeginsInside (tokenPattern "authenticity" "token")
                    (tokenPattern "session" "id") = true.
Proof. by vm_compute. Qed.
Lemma never_auth_csrf :
  neverBeginsInside (tokenPattern "authenticity" "token")
                    (tokenPattern "csrf" "token") = true.
Proof. by vm_compute. Qed.

Lemma session_isolated v :
  tokenField "session" "id" v → pass3 (pass2 (pass1 v)) = SESSION_ID.
Proof.
  intros (name & value & -> & Hm & Hlen & Hv).
  destruct (token_pass12 "session" "id" name value never_session_iso
              never_session_digit Hm Hlen Hv) as (v' & -> & Hv').
  by apply token_head.
Qed.

Lemma csrf_isolated v :
  tokenField "csrf" "token" v →
  pass4 (pass3 (pass2 (pass1 v))) = CSRF_TOKEN.
Proof.
  intros (name & value & -> & Hm & Hlen & Hv).
  destruct (token_pass12 "csrf" "token" name value never_csrf_iso
              never_csrf_digit Hm Hlen Hv) as (v' & -> & Hv').
  unfold pass3.
  rewrite (replaceAll_name _ _ _ _ _ _ (token_fails "session" "id")
             never_csrf_session Hm Hlen).
  apply token_head; [exact Hm|exact Hlen|].
  by apply tokenChars_replaceAll.
Qed.

Lemma auth_isolated v :
  tokenField "authenticity" "token" v →
  pass5 (pass4 (pass3 (pass2 (pass1 v)))) = AUTH_TOKEN.
Proof.
  intros (name & value & -> & Hm & Hlen & Hv).
  destruct (token_pass12 "authenticity" "token" name value never_auth_iso
              never_auth_digit Hm Hlen Hv) as (v' & -> & Hv').
  unfold pass3.
  rewrite (replaceAll_name _ _ _ _ _ _ (token_fails "session" "id")
             never_auth_session Hm Hlen).
  unfold pass4.
  rewrite (replaceAll_name _ _ _ _ _ _ (token_fails "csrf" "token")
             never_auth_csrf Hm Hlen).
  apply token_head; [exact Hm|exact Hlen|].
  by repeat apply tokenChars_replaceAll.
Qed.

Lemma session_variants pre v1 v2 post :
  delimitedLeft pre → delimitedRight post →
  tokenField "session" "id" v1 → tokenField "session" "id" v2 →
  normalizeContent (pre ++ v1 ++ post) = normalizeContent (pre ++ v2 ++ post).
Proof.
  intros Hpre Hpost H1 H2. rewrite !normalizeContent_passes.
  do 5 f_equal.
  apply (splits_field (fun s => pass3 (pass2 (pass1 s)))); try done.
  - apply (splits_compose (fun s => pass2 (pass1 s)) pass3);
      [|apply splits_pass3].
    apply (splits_compose pass1 pass2);
      [apply splits_pass1|apply splits_pass2].
  - by rewrite !session_isolated.
Qed.

Lemma csrf_variants pre v1 v2 post :
  delimitedLeft pre → delimitedRight post →
  tokenField "csrf" "token" v1 → tokenField "csrf" "token" v2 →
  normalizeContent (pre ++ v1 ++ post) = normalizeContent (pre ++ v2 ++ post).
Proof.
  intros Hpre Hpost H1 H2. rewrite !normalizeContent_passes.
  do 4 f_equal.
  apply (splits_field (fun s => pass4 (pass3 (pass2 (pass1 s)))));
    try done.
  - apply (splits_compose (fun s => pass3 (pass2 (pass1 s))) pass4);
      [|apply splits_pass4].
    apply (splits_compose (fun s => pass2 (pass1 s)) pass3);
      [|apply splits_pass3].
    apply (splits_compose pass1 pass2);
      [apply splits_pass1|apply splits_pass2].
  - by rewrite !csrf_isolated.
Qed.

Lemma splits_pass12345 :
  splits (fun s => pass5 (pass4 (pass3 (pass2 (pass1 s))))).
Proof.
  apply (splits_compose (fun s => pass4 (pass3 (pass2 (pass1 s)))) pass5);
    [|apply splits_pass5].
  apply (splits_compose (fun s => pass3 (pass2 (pass1 s))) pass4);
    [|apply splits_pass4].
  apply (splits_compose (fun s => pass2 (pass1 s)) pass3);
    [|apply splits_pass3].
  apply (splits_compose pass1 pass2);
    [apply splits_pass1|apply splits_pass2].
Qed.

Lemma auth_variants pre v1 v2 post :
  delimitedLeft pre → delimitedRight post →
  tokenField "authenticity" "token" v1 →
  tokenField "authenticity" "token" v2 →
  normalizeContent (pre ++ v1 ++ post) = normalizeContent (pre ++ v2 ++ post).
Proof.
  intros Hpre Hpost H1 H2. rewrite !normalizeContent_passes.
  do 3 f_equal.
  apply (splits_field _ _ _ _ _ splits_pass12345); try done.
  by rewrite !auth_isolated.
Qed.

(** *** The [id] attribute *)

Lemma plain_quiet c : plain c = true → quiet c.
Proof.
  unfold plain, notQuote. intros H.
  repeat (apply andb_true_iff in H as [H ?]).
  repeat match goal with
         | H : negb _ = true |- _ =>
             apply negb_true_iff, bool_decide_eq_false in H
         end.
  done.
Qed.

Lemma digit_quiet c : d c = true → quiet c.
Proof. intros H. repeat split; intros ->; by vm_compute in H. Qed.

Lemma quiet_not_iso s : Forall quiet s → isoTimestamp s = None.
Proof.
  intros Hs. apply isoTimestamp_fails, not_true_iff_false. intros Hm.
  destruct (matchSeq_item isoPattern s 4 (lit "-") Hm eq_refl)
    as (c & Hc & Hl).
  apply list_elem_of_lookup_2 in Hc. rewrite Forall_forall in Hs.
  apply Hs in Hc as [Hc _]. apply bool_decide_eq_true in Hl. done.
Qed.

Lemma quiet_not_token w1 w2 s :
  Forall quiet s → token w1 w2 s = None.
Proof.
  intros Hs. apply token_fails, not_true_iff_false. intros Hm.
  unfold tokenPattern in Hm.
  destruct (matchSeq_item _ s (length (list_ascii_of_string w1))
              (fun c => bool_decide (c = "_"%char)
                        || bool_decide (c = "-"%char)) Hm)
    as (c & Hc & Hl).
  { rewrite lookup_app_r by (by rewrite length_map).
    by rewrite length_map, Nat.sub_diag. }
  apply list_elem_of_lookup_2 in Hc. rewrite Forall_forall in Hs.
  apply Hs in Hc as (Hc1 & Hc2 & _). simpl in Hl.
  apply orb_true_iff in Hl as [Hl|Hl]; apply bool_decide_eq_true in Hl; done.
Qed.

Lemma replaceAll_quiet m rep s :
  (∀ s', Forall quiet s' → m s' = None) → Forall quiet s →
  replaceAll m rep s = s.
Proof.
  intros Hm Hs. unfold replaceAll.
  rewrite <- (app_nil_r s) at 1. rewrite replaceFrom_inert.
  - by rewrite app_nil_r.
  - intros a1 a2 Heq Hne. rewrite app_nil_r. apply Hm.
    by eapply Forall_suffix.
Qed.

Lemma epochRun_plain_head c s : plain c = true → epochRun (c :: s) = None.
Proof.
  intros H. unfold epochRun. simpl.
  unfold plain in H. repeat (apply andb_true_iff in H as [H ?]).
  apply negb_true_iff in H. by rewrite H.
Qed.

Lemma pass2_value a digits b :
  Forall (fun c => plain c = true) a →
  Forall (fun c => plain c = true) b →
  Forall (fun c => d c = true) digits → (length digits ≤ 12)%nat →
  pass2 (a ++ digits ++ b) = a ++ digits ++ b.
Proof.
  intros Ha Hb Hd Hlen. unfold pass2, replaceAll.
  assert (Hplain : ∀ l x, Forall (fun c => plain c = true) l →
            replaceFrom epochRun TIMESTAMP 0 (l ++ x)
            = l ++ replaceFrom epochRun TIMESTAMP 0 x).
  { intros l x Hl. apply replaceFrom_inert. intros a1 a2 -> Hne.
    apply Forall_app in Hl as [_ Hl].
    destruct Hl as [|c a2 Hc _]; [done|]. by apply epochRun_plain_head. }
  rewrite Hplain by done. f_equal.
  rewrite replaceFrom_inert.
  - f_equal. rewrite <- (app_nil_r b) at 1. rewrite Hplain by done.
    by rewrite app_nil_r.
  - intros a1 a2 -> Hne. unfold epochRun.
    apply Forall_app in Hd as [_ Hd2].
    rewrite spanLen_all by done.
    replace (spanLen d b) with 0%nat.
    + rewrite length_app in Hlen.
      replace (_ <=? _)%nat with false; [done|].
      symmetry. apply Nat.leb_gt. lia.
    + destruct Hb as [|c b Hc _]; [done|]. simpl.
      unfold plain in Hc. repeat (apply andb_true_iff in Hc as [Hc ?]).
      apply negb_true_iff in Hc. by rewrite Hc.
Qed.

Lemma hasDigitRunFrom_mono n r r' s :
  (r ≤ r')%nat → hasDigitRunFrom n r s = true → hasDigitRunFrom n r' s = true.
Proof.
  revert r r'. induction s as [|c s IH]; intros r r' Hle; simpl.
  - rewrite !orb_false_r. intros H. apply Nat.leb_le in H.
    apply Nat.leb_le. lia.
  - intros H. apply orb_true_iff in H as [H|H].
    + apply Nat.leb_le in H. apply orb_true_iff. left. apply Nat.leb_le. lia.
    + apply orb_true_iff. right. destruct (d c); [|done].
      eapply IH; [|done]. lia.
Qed.

Lemma hasDigitRunFrom_digits n r digits x :
  Forall (fun c => d c = true) digits → (n ≤ r + length digits)%nat →
  hasDigitRunFrom n r (digits ++ x) = true.
Proof.
  intros Hd. revert r. induction Hd as [|c l Hc _ IH]; intros r Hn; simpl.
  - destruct x; simpl; apply orb_true_iff; left; apply Nat.leb_le;
      simpl in Hn; lia.
  - apply orb_true_iff. right. rewrite Hc. apply IH. simpl in Hn. lia.
Qed.

Lemma hasDigitRunFrom_app n r a x :
  hasDigitRunFrom n 0 x = true → hasDigitRunFrom n r (a ++ x) = true.
Proof.
  intros Hx. revert r. induction a as [|c a IH]; intros r; simpl.
  - eapply hasDigitRunFrom_mono; [|done]. lia.
  - apply orb_true_iff. right. destruct (d c); apply IH.
Qed.

Lemma pass12345_value a digits b :
  Forall (fun c => plain c = true) a →
  Forall (fun c => plain c = true) b →
  Forall (fun c => d c = true) digits → (length digits ≤ 12)%nat →
  pass12345 (a ++ digits ++ b) = a ++ digits ++ b.
Proof.
  intros Ha Hb Hd Hlen.
  assert (Hq : Forall quiet (a ++ digits ++ b)).
  { repeat (apply Forall_app; split).
    - eapply Forall_impl; [exact Ha|]. apply plain_quiet.
    - eapply Forall_impl; [exact Hd|]. apply digit_quiet.
    - eapply Forall_impl; [exact Hb|]. apply plain_quiet. }
  unfold pass12345, pass1.
  rewrite (replaceAll_quiet isoTimestamp) by (done || apply quiet_not_iso).
  rewrite pass2_value by done.
  unfold pass3, pass4, pass5.
  rewrite (replaceAll_quiet (token "session" "id"))
    by (done || apply quiet_not_token).
  rewrite (replaceAll_quiet (token "csrf" "token"))
    by (done || apply quiet_not_token).
  by rewrite (replaceAll_quiet (token "authenticity" "token"))
    by (done || apply quiet_not_token).
Qed.

Lemma unquoted_replaceAll m rep s :
  forallb notQuote rep = true →
  Forall (fun c => notQuote c = true) s →
  Forall (fun c => notQuote c = true) (replaceAll m rep s).
Proof.
  intros Hrep Hs. apply replaceFrom_Forall; [|done].
  rewrite forallb_forall in Hrep. apply Forall_forall. intros c Hc.
  apply Hrep. by apply list_elem_of_In.
Qed.

Lemma unquoted_pass12345 s :
  Forall (fun c => notQuote c = true) s →
  Forall (fun c => notQuote c = true) (pass12345 s).
Proof. intros Hs. by repeat apply unquoted_replaceAll. Qed.

Lemma delimitedLeft_idOpening : delimitedLeft idOpening.
Proof. right. by exists (list_ascii_of_string "id="), dquote. Qed.

Lemma pass12345_field pre v post :
  delimitedLeft pre → dynamicIdField v →
  pass12345 (pre ++ v ++ post) = pass12345 pre ++ v ++ pass12345 post.
Proof.
  intros Hpre (a & digits & b & -> & Ha & Hb & Hd & Hlo & Hhi).
  destruct (splits_pass12345 : splits pass12345) as (Hl & Hr & _).
  rewrite Hl by done. f_equal.
  rewrite <- !app_assoc.
  rewrite (Hl idOpening) by apply delimitedLeft_idOpening.
  replace (pass12345 idOpening) with idOpening by (by vm_compute).
  f_equal. rewrite !app_assoc.
  rewrite <- (app_assoc _ [dquote] post).
  rewrite Hr by (right; by exists dquote, post).
  rewrite <- !app_assoc. rewrite pass12345_value by done.
  rewrite <- !app_assoc.
  rewrite (Hl [dquote] post) by (right; by exists [], dquote).
  by replace (pass12345 [dquote]) with [dquote] by (by vm_compute).
Qed.

Lemma dynamicId_not_before a2 x :
  a2 ≠ [] → Forall (fun c => notQuote c = true) a2 →
  dynamicId (a2 ++ idOpening ++ x) = None.
Proof.
  intros Hne Ha. unfold dynamicId.
  replace (matchSeq _ _) with false; [done|]. symmetry.
  destruct a2 as [|c0 [|c1 [|c2 [|c3 a2]]]]; [done|..]; simpl;
    rewrite ?andb_false_r; try done.
  do 3 (apply Forall_cons in Ha as [_ Ha]). apply Forall_cons in Ha as [Ha _].
  unfold notQuote in Ha. apply negb_true_iff in Ha.
  unfold lit at 4. rewrite Ha. by rewrite !andb_false_r.
Qed.

Lemma dynamicId_head v x :
  dynamicIdField v → dynamicId (v ++ x) = Some (length v).
Proof.
  intros (a & digits & b & -> & Ha & Hb & Hd & Hlo & Hhi).
  set (value := a ++ digits ++ b).
  assert (Hv : Forall (fun c => notQuote c = true) value).
  { assert (Hp : ∀ l, Forall (fun c => plain c = true) l →
                      Forall (fun c => notQuote c = true) l).
    { intros l Hl. eapply Forall_impl; [exact Hl|]. intros c Hc.
      apply plain_quiet in Hc as (_ & _ & Hc). unfold notQuote.
      by apply negb_true_iff, bool_decide_eq_false. }
    repeat (apply Forall_app; split); auto.
    eapply Forall_impl; [exact Hd|]. intros c Hc.
    apply digit_quiet in Hc as (_ & _ & Hc). unfold notQuote.
    by apply negb_true_iff, bool_decide_eq_false. }
  unfold dynamicId, idOpening. simpl. rewrite <- !app_assoc. simpl.
  rewrite !drop_0, spanLen_all by done. simpl.
  rewrite Nat.add_0_r, drop_app_length, take_app_length.
  replace (hasDigitRunFrom 10 0 value) with true.
  - f_equal. rewrite !length_app. simpl. lia.
  - symmetry. unfold value. apply hasDigitRunFrom_app.
    apply hasDigitRunFrom_digits; [done|]. simpl. lia.
Qed.

Lemma pass6_field pre v post :
  Forall (fun c => notQuote c = true) pre → dynamicIdField v →
  pass6 (pre ++ v ++ post) = pre ++ DYNAMIC_ID ++ pass6 post.
Proof.
  intros Hpre Hv. unfold pass6, replaceAll. rewrite replaceFrom_inert.
  - f_equal. apply replaceFrom_match; [|by apply dynamicId_head].
    destruct Hv as (a & digits & b & -> & _). done.
  - intros a1 a2 -> Hne. apply Forall_app in Hpre as [_ Hpre].
    destruct Hv as (a & digits & b & -> & _).
    rewrite <- !app_assoc. by apply dynamicId_not_before.
Qed.

Lemma dynamicId_variants pre v1 v2 post :
  delimitedLeft pre → Forall (fun c => notQuote c = true) pre →
  dynamicIdField v1 → dynamicIdField v2 →
  normalizeContent (pre ++ v1 ++ post) = normalizeContent (pre ++ v2 ++ post).
Proof.
  intros Hpre Hq H1 H2. rewrite !normalizeContent_passes.
  fold (pass12345 (pre ++ v1 ++ post)) (pass12345 (pre ++ v2 ++ post)).
  rewrite !pass12345_field by done.
  by rewrite !pass6_field by (done || by apply unquoted_pass12345).
Qed.

Lemma volatileVariant_normalizeContent c1 c2 :
  volatileVariant c1 c2 → normalizeContent c1 = normalizeContent c2.
Proof.
  destruct 1.
  - by apply iso_variants.
  - by apply epoch_variants.
  - by apply session_variants.
  - by apply csrf_variants.
  - by apply auth_variants.
  - by apply dynamicId_variants.
Qed.
End NormalizeFacts.

(** ** Incremental sync *)

Module SyncFacts.
Import Sync.

Section Instance.
Variable sha256Hex : list ascii → option string.
Variable config : IncrementalSyncConfig.

Lemma returns_ret {A} (a : A) : returns (mret a).
Proof. intros w. by exists a, w. Qed.

Lemma returns_bind {A B} (c : M A) (k : A → M B) :
  returns c → (∀ a, returns (k a)) → returns (c ≫= k).
Proof.
  intros Hc Hk w. destruct (Hc w) as (a & w' & Hcw).
  destruct (Hk a w') as (b & w'' & Hkw). exists b, w''.
  unfold mbind, M_bind. by rewrite Hcw.
Qed.

Lemma returns_now : returns now.
Proof. intros w. by eexists _, _. Qed.

Lemma returns_tryCatch {A} (body : M A) (handler : string → M A) :
  (∀ e, returns (handler e)) → returns (tryCatch body handler).
Proof.
  intros Hh w. unfold tryCatch.
  destruct (body w) as [[a|e] w']; [by exists a, w'|apply Hh].
Qed.

Lemma returns_shouldRefreshUrl url e force :
  returns (shouldRefreshUrl config url e force).
Proof.
  unfold shouldRefreshUrl. destruct force; [apply returns_ret|].
  destruct e as [e|]; [|apply returns_ret].
  apply returns_bind; [apply returns_now|]. intros a.
  repeat case_match; apply returns_ret.
Qed.

Lemma returns_getCacheEntry url : returns (getCacheEntry url).
Proof. intros w. by eexists _, _. Qed.

Lemma syncUrl_returns fetch url force :
  returns (syncUrl sha256Hex config fetch url force).
Proof.
  unfold syncUrl.
  apply returns_bind; [apply returns_now|]; intros startTime.
  apply returns_bind; [apply returns_now|]; intros cacheStart.
  apply returns_bind; [apply returns_getCacheEntry|]; intros e.
  apply returns_bind; [apply returns_shouldRefreshUrl|]; intros b.
  apply returns_bind; [apply returns_now|]; intros cacheEnd.
  apply returns_tryCatch. intros err.
  apply returns_bind; [apply returns_now|]; intros finish.
  apply returns_ret.
Qed.

Lemma mapGet_mapSet_eq {V} k (v : V) m : mapGet k (mapSet k v m) = Some v.
Proof.
  induction m as [|[k' v'] m IH]; simpl.
  - by rewrite bool_decide_eq_true_2.
  - destruct (bool_decide (k' = k)) eqn:Hk; simpl.
    + by rewrite bool_decide_eq_true_2.
    + by rewrite Hk.
Qed.

Lemma mapSet_length_present {V} k (v v0 : V) m :
  mapGet k m = Some v0 → length (mapSet k v m) = length m.
Proof.
  induction m as [|[k' v'] m IH]; simpl; [done|].
  destruct (bool_decide (k' = k)); simpl; [done|]. intros H. by rewrite IH.
Qed.

Lemma shouldRefreshUrl_eq url e force w :
  shouldRefreshUrl config url (Some e) force (advance 2 w)
  = (Returned (goesToNetwork config url force
                 {| time := time w; tick := tick w;
                    cache := [(url, e)]; changeSignals := changeSignals w;
                    stored := stored w |}),
     advance (if force then 2 else 3) w).
Proof.
  unfold shouldRefreshUrl, goesToNetwork. simpl.
  rewrite bool_decide_eq_true_2 by done.
  destruct force; [done|]. simpl.
  unfold mbind, M_bind, now; simpl.
  destruct (_ >? maxCacheAge config); [done|].
  destruct (_ >? forceRefreshInterval config); done.
Qed.

Ltac run := unfold mbind, M_bind, mret, M_ret, now, getCacheEntry,
              getCache, tryCatch, throw; simpl.

(** C10.  [syncUrl] comes back with a result from every state, whatever
    the network does.  When the call goes to the network and the fetch or
    the handling of its response raises an error, the result says
    unchanged, not cached, with an empty fingerprint, and the cache, the
    change signals and what is stored of them are as they were. *)
Theorem syncUrl_never_throws fetch url force w :
  (∃ r w', syncUrl sha256Hex config fetch url force w = (Returned r, w')) ∧
  (goesToNetwork config url force w = true →
   raises (fetch (conditionalHeaders config url (mapGet url (cache w)))) →
   ∃ r w', syncUrl sha256Hex config fetch url force w = (Returned r, w') ∧
           changed r = false ∧ cached r = false ∧
           res_contentHash r = EmptyString ∧
           cache w' = cache w ∧ changeSignals w' = changeSignals w ∧
           stored w' = stored w).
Proof.
  split; [apply syncUrl_returns|].
  intros Hnet Hraise. unfold goesToNetwork in Hnet.
  unfold syncUrl, shouldRefreshUrl, conditionalFetch. run.
  destruct (mapGet url (cache w)) as [e|] eqn:He.
  - set (req := conditionalHeaders config url (Some e)) in *.
    destruct force; simpl in *.
    + run. destruct (fetch req) as [msg|resp]; simpl in *.
      * by eexists _, _.
      * destruct Hraise as [H304 Hbad].
        apply Z.eqb_neq in H304. rewrite H304.
        destruct Hbad as [-> | Hbody]; simpl; [by eexists _, _|].
        destruct (ok resp); simpl; [|by eexists _, _].
        rewrite Hbody. by eexists _, _.
    + run.
      assert (Hage : ((time w (S (S (tick w))) - lastUpdated e
                       >? maxCacheAge config) = true) ∨
                     ((time w (S (S (tick w))) - lastUpdated e
                       >? maxCacheAge config) = false ∧
                      (time w (S (S (tick w))) - lastUpdated e
                       >? forceRefreshInterval config) = true)).
      { destruct (_ >? maxCacheAge config); [by left|by right]. }
      destruct Hage as [-> | [-> ->]]; run;
        (destruct (fetch req) as [msg|resp]; simpl in *;
         [by eexists _, _|];
         destruct Hraise as [H304 Hbad];
         apply Z.eqb_neq in H304; rewrite H304;
         destruct Hbad as [-> | Hbody]; simpl; [by eexists _, _|];
         destruct (ok resp); simpl; [|by eexists _, _];
         rewrite Hbody; by eexists _, _).
  - set (req := conditionalHeaders config url None) in *.
    destruct force; run;
    (destruct (fetch req) as [msg|resp]; simpl in *;
     [by eexists _, _|];
     destruct Hraise as [H304 Hbad];
     apply Z.eqb_neq in H304; rewrite H304;
     destruct Hbad as [-> | Hbody]; simpl; [by eexists _, _|];
     destruct (ok resp); simpl; [|by eexists _, _];
     rewrite Hbody; by eexists _, _).
Qed.

Lemma updateCacheEntry_present url e e0 w :
  mapGet url (cache w) = Some e0 →
  (Z.of_nat (length (cache w)) <= maxCacheEntries config)%Z →
  updateCacheEntry config url e w
  = (Returned tt,
     {| time := time w; tick := tick w; cache := mapSet url e (cache w);
        changeSignals := changeSignals w;
        stored := {| incrementalSyncCache :=
                       Some (map snd (mapSet url e (cache w)));
                     storedSignals := storedSignals (stored w) |} |}).
Proof.
  intros He Hsize. unfold updateCacheEntry, saveCache, putCache, getCache,
    getStored, putStored, mbind, M_bind, mret, M_ret. simpl.
  rewrite (mapSet_length_present _ _ _ _ He).
  replace (_ >? _) with false
    by (symmetry; rewrite Z.gtb_ltb; apply Z.ltb_ge; lia).
  done.
Qed.

(** C5, as the code has it.  When the call goes to the network with an
    entry in the cache and the answer is 304, and the cache is within its
    ceiling so that nothing is evicted, [syncUrl] returns unchanged and
    served from cache; the entry's [lastChecked] becomes the reading of
    the clock taken after the fetch, its hit count grows by one, and its
    fingerprint, validators and [lastUpdated] stay; no change signal is
    recorded. *)
Theorem not_modified_is_served_from_cache fetch url force w e resp :
  mapGet url (cache w) = Some e →
  goesToNetwork config url force w = true →
  fetch (conditionalHeaders config url (Some e)) = Responded resp →
  status resp = 304 →
  (Z.of_nat (length (cache w)) <= maxCacheEntries config)%Z →
  let checked := time w ((if force then 5 else 6) + tick w) in
  ∃ r w' e',
    syncUrl sha256Hex config fetch url force w = (Returned r, w') ∧
    changed r = false ∧ cached r = true ∧
    res_contentHash r = contentHash e ∧
    res_etag r = etag e ∧ res_lastModified r = lastModified e ∧
    mapGet url (cache w') = Some e' ∧
    lastChecked e' = checked ∧ hitCount e' = hitCount e + 1 ∧
    contentHash e' = contentHash e ∧ etag e' = etag e ∧
    lastModified e' = lastModified e ∧ lastUpdated e' = lastUpdated e ∧
    changeSignals w' = changeSignals w.
Proof.
  intros He Hnet Hfetch H304 Hsize checked.
  unfold goesToNetwork in Hnet. rewrite He in Hnet.
  unfold syncUrl, shouldRefreshUrl, conditionalFetch. run. rewrite He.
  apply Z.eqb_eq in H304.
  destruct force; simpl in *.
  - run. rewrite Hfetch, H304. run.
    rewrite (updateCacheEntry_present _ _ e) by done. simpl.
    eexists _, _, _. split; [reflexivity|]. simpl.
    by rewrite mapGet_mapSet_eq.
  - run.
    assert (Hage : ((time w (S (S (tick w))) - lastUpdated e
                     >? maxCacheAge config) = true) ∨
                   ((time w (S (S (tick w))) - lastUpdated e
                     >? maxCacheAge config) = false ∧
                    (time w (S (S (tick w))) - lastUpdated e
                     >? forceRefreshInterval config) = true)).
    { destruct (_ >? maxCacheAge config); [by left|by right]. }
    destruct Hage as [-> | [-> ->]]; run;
      rewrite Hfetch, H304; run;
      rewrite (updateCacheEntry_present _ _ e) by done; simpl;
      (eexists _, _, _; split; [reflexivity|]; simpl;
       by rewrite mapGet_mapSet_eq).
Qed.

Lemma updateCacheEntry_keeps url e w :
  ∃ w', updateCacheEntry config url e w = (Returned tt, w') ∧
        changeSignals w' = changeSignals w ∧
        time w' = time w ∧ tick w' = tick w.
Proof.
  unfold updateCacheEntry, cleanupCache, saveCache, putCache, getCache,
    getStored, putStored, mbind, M_bind, mret, M_ret. simpl.
  destruct (_ >? _); simpl; by eexists.
Qed.

Lemma generateContentHash_hashed content h w :
  enableContentHashing config = true →
  sha256Hex (Normalize.normalizeContent content) = Some h →
  generateContentHash sha256Hex config content w = (Returned h, w).
Proof.
  intros Hon Hh. unfold generateContentHash. by rewrite Hon, Hh.
Qed.

(** With an entry in the cache whose fingerprint is that of the content
    now fetched in full, and validators that do not differ, [syncUrl]
    reports no change and records no change signal. *)
Lemma syncUrl_same_fingerprint fetch url force w e resp content h :
  enableContentHashing config = true →
  mapGet url (cache w) = Some e →
  goesToNetwork config url force w = true →
  fetch (conditionalHeaders config url (Some e)) = Responded resp →
  status resp ≠ 304 → ok resp = true → body resp = Some content →
  sha256Hex (Normalize.normalizeContent content) = Some h →
  contentHash e = h →
  differ (etag e) (orUndefined (hdrETag resp)) = false →
  differ (lastModified e) (orUndefined (hdrLastModified resp)) = false →
  ∃ r w', syncUrl sha256Hex config fetch url force w = (Returned r, w') ∧
          changed r = false ∧ cached r = false ∧
          res_contentHash r = h ∧
          changeSignals w' = changeSignals w.
Proof.
  intros Hon He Hnet Hfetch H304 Hok Hbody Hh Hsame Htag Hmod.
  unfold goesToNetwork in Hnet. rewrite He in Hnet.
  apply Z.eqb_neq in H304.
  unfold syncUrl, shouldRefreshUrl, conditionalFetch, createCacheEntry.
  run. rewrite He.
  destruct force; simpl in *.
  - run. rewrite Hfetch, H304, Hok. simpl. rewrite Hbody. simpl.
    rewrite (generateContentHash_hashed content h) by done. simpl.
    rewrite Hsame, String.eqb_refl, Htag, Hmod. simpl.
    match goal with
    | |- context [updateCacheEntry config url ?ne ?v'] =>
        destruct (updateCacheEntry_keeps url ne v')
          as (v2 & -> & Hsig & _)
    end.
    simpl. eexists _, _. split; [reflexivity|]. simpl. by rewrite Hsig.
  - run.
    assert (Hage : ((time w (S (S (tick w))) - lastUpdated e
                     >? maxCacheAge config) = true) ∨
                   ((time w (S (S (tick w))) - lastUpdated e
                     >? maxCacheAge config) = false ∧
                    (time w (S (S (tick w))) - lastUpdated e
                     >? forceRefreshInterval config) = true)).
    { destruct (_ >? maxCacheAge config); [by left|by right]. }
    destruct Hage as [-> | [-> ->]]; run;
      rewrite Hfetch, H304, Hok; simpl; rewrite Hbody; simpl;
      rewrite (generateContentHash_hashed content h) by done; simpl;
      rewrite Hsame, String.eqb_refl, Htag, Hmod; simpl;
      match goal with
      | |- context [updateCacheEntry config url ?ne ?v'] =>
          destruct (updateCacheEntry_keeps url ne v')
            as (v2 & -> & Hsig & _)
      end;
      simpl; eexists _, _; (split; [reflexivity|]); simpl;
      by rewrite Hsig.
Qed.
End Instance.

Import Normalize.

(** With content hashing switched on, the
    fingerprint is the digest of the normalised content whenever the digest
    is delivered, whatever the clock reads: contents with the same normal
    form have the same fingerprint.  Two contents that differ only in a
    volatile field set off from its surroundings have the same normal
    form.  When such a content is fetched in full over an entry that holds
    the fingerprint of the other, and neither two ETags nor two
    Last-Modified values are present and different, [syncUrl] reports no
    change and records no change signal. *)
Theorem volatile_fields_share_fingerprint
    (sha256Hex : list ascii → option string)
    (config : IncrementalSyncConfig) :
  enableContentHashing config = true →
  (∀ c1 c2 h w1 w2,
      normalizeContent c1 = normalizeContent c2 →
      sha256Hex (normalizeContent c1) = Some h →
      generateContentHash sha256Hex config c1 w1 = (Returned h, w1) ∧
      generateContentHash sha256Hex config c2 w2 = (Returned h, w2)) ∧
  (∀ c1 c2, volatileVariant c1 c2 →
            normalizeContent c1 = normalizeContent c2) ∧
  (∀ fetch url force w e resp c1 c2 h,
      volatileVariant c1 c2 →
      sha256Hex (normalizeContent c1) = Some h →
      mapGet url (cache w) = Some e → contentHash e = h →
      goesToNetwork config url force w = true →
      fetch (conditionalHeaders config url (Some e)) = Responded resp →
      status resp ≠ 304 → ok resp = true → body resp = Some c2 →
      differ (etag e) (orUndefined (hdrETag resp)) = false →
      differ (lastModified e) (orUndefined (hdrLastModified resp)) = false →
      ∃ r w', syncUrl sha256Hex config fetch url force w = (Returned r, w') ∧
              changed r = false ∧ res_contentHash r = h ∧
              changeSignals w' = changeSignals w).
Proof.
  intros Hon. split; [|split].
  - intros c1 c2 h w1 w2 Heq Hh. split.
    + by apply generateContentHash_hashed.
    + apply generateContentHash_hashed; [done|]. by rewrite <- Heq.
  - apply NormalizeFacts.volatileVariant_normalizeContent.
  - intros fetch url force w e resp c1 c2 h Hv Hh He Hsame Hnet Hfetch H304
      Hok Hbody Htag Hmod.
    apply NormalizeFacts.volatileVariant_normalizeContent in Hv.
    rewrite Hv in Hh.
    destruct (syncUrl_same_fingerprint sha256Hex config fetch url force w e
                resp c2 h) as (r & w' & Hrun & Hc & _ & Hh' & Hsig);
      try done.
    by exists r, w'.
Qed.

(** C4 at a state that two calls of [syncUrl] produce: the entry was
    downloaded at time 0 and answered from the cache at 23 h, which moved
    its [lastChecked].  At 25 h [shouldRefreshUrl] asks for a refresh,
    because it measures both thresholds from [lastUpdated]; the test as
    the specification words it, which measures the cache age from
    [lastChecked], does not. *)
Theorem refresh_measured_from_last_update :
  ∃ e,
    mapGet url0 (cache afterSecondSync) = Some e ∧
    lastUpdated e = 0 ∧ lastChecked e = 23 * hour ∧
    time afterSecondSync (tick afterSecondSync) = 25 * hour ∧
    (shouldRefreshUrl defaultConfig url0 (Some e) false afterSecondSync).1
    = Returned true ∧
    shouldRefreshStated defaultConfig (Some e) false (25 * hour) = false.
Proof.
  eexists. split; [vm_compute; reflexivity|].
  repeat split; vm_compute; reflexivity.
Qed.

(** C5 as stated fails: the result of a sync that was answered 304 says
    served from cache. *)
Lemma not_modified_reported_as_cached :
  ∃ e r w',
    mapGet url0 (cache afterSecondSync) = Some e ∧ etag e = Some "v1" ∧
    syncUrl sampleDigest defaultConfig notModifiedResponse url0 false
      afterSecondSync = (Returned r, w') ∧
    changed r = false ∧ cached r ≠ false.
Proof.
  do 3 eexists. split; [vm_compute; reflexivity|].
  split; [reflexivity|]. split; [vm_compute; reflexivity|].
  split; [reflexivity | discriminate].
Qed.

(** The two session pages differ in a session token set off by quotes. *)
Lemma sessionPages_variant :
  volatileVariant (sessionPage "abc123") (sessionPage "xyz789").
Proof.
  apply variant_session.
  - right. exists (list_ascii_of_string "<a href="), dquote.
    split; [reflexivity | vm_compute; reflexivity].
  - right. eexists _, _. split; [reflexivity | vm_compute; reflexivity].
  - exists (list_ascii_of_string "session_id"), (list_ascii_of_string "=abc123").
    split; [reflexivity|]. split; [vm_compute; reflexivity|].
    split; [reflexivity|]. repeat constructor.
  - exists (list_ascii_of_string "session_id"), (list_ascii_of_string "=xyz789").
    split; [reflexivity|]. split; [vm_compute; reflexivity|].
    split; [reflexivity|]. repeat constructor.
Qed.

(** The third sync of [url0], at 25 h, answered 304. *)
Lemma not_modified_is_served_from_cache_witness :
  ∃ r w' e',
    syncUrl sampleDigest defaultConfig notModifiedResponse url0 false
      afterSecondSync = (Returned r, w') ∧
    changed r = false ∧ cached r = true ∧
    mapGet url0 (cache w') = Some e' ∧
    lastChecked e' = 25 * hour ∧ hitCount e' = 2 ∧
    contentHash e' = "<html>hello</html>" ∧ etag e' = Some "v1".
Proof.
  destruct (not_modified_is_served_from_cache sampleDigest
              defaultConfig notModifiedResponse url0 false afterSecondSync
              {| url := url0; etag := Some "v1"; lastModified := None;
                 contentHash := "<html>hello</html>";
                 lastChecked := 23 * hour; lastUpdated := 0; hitCount := 1;
                 metadata := Some {| contentLength := 18;
                                     responseETag := Some "v1";
                                     responseLastModified := None |} |}
              {| status := 304; statusText := "Not Modified";
                 hdrETag := None; hdrLastModified := None;
                 body := Some [] |})
    as (r & w' & e' & Hrun & Hch & Hca & Hh & _ & _ & Hget & Hlc & Hhit
        & Hfp & Htag & _).
  - vm_compute; reflexivity.
  - vm_compute; reflexivity.
  - reflexivity.
  - reflexivity.
  - vm_compute; discriminate.
  - exists r, w', e'. rewrite Hrun, Hch, Hca, Hget, Hlc, Hhit, Hfp, Htag.
    repeat split; reflexivity.
Defined.

(** A sync of [url0] at 25 h while the network is down. *)
Lemma syncUrl_never_throws_witness :
  ∃ r w',
    syncUrl sampleDigest defaultConfig unreachable url0 false
      afterSecondSync = (Returned r, w') ∧
    changed r = false ∧ cached r = false ∧
    res_contentHash r = EmptyString ∧
    cache w' = cache afterSecondSync ∧
    changeSignals w' = changeSignals afterSecondSync.
Proof.
  destruct (syncUrl_never_throws sampleDigest defaultConfig
              unreachable url0 false afterSecondSync) as [_ H].
  destruct H as (r & w' & Hrun & Hch & Hca & Hh & Hc & Hs & _).
  - vm_compute; reflexivity.
  - exact I.
  - exists r, w'. repeat split; assumption.
Defined.

(** The session page fetched again with another token value under the
    same ETag. *)
Lemma volatile_fields_share_fingerprint_witness :
  normalizeContent (sessionPage "abc123")
  = normalizeContent (sessionPage "xyz789") ∧
  ∃ r w',
    syncUrl sampleDigest defaultConfig (serve (sessionPage "xyz789") "v1")
      url0 true afterSessionSync = (Returned r, w') ∧
    changed r = false ∧
    changeSignals w' = changeSignals afterSessionSync.
Proof.
  destruct (volatile_fields_share_fingerprint sampleDigest
              defaultConfig eq_refl) as (_ & Hnorm & Hsync).
  split; [exact (Hnorm _ _ sessionPages_variant)|].
  destruct (Hsync (serve (sessionPage "xyz789") "v1") url0 true
              afterSessionSync
              {| url := url0; etag := Some "v1"; lastModified := None;
                 contentHash :=
                   string_of_list_ascii
                     (normalizeContent (sessionPage "abc123"));
                 lastChecked := 6; lastUpdated := 6; hitCount := 0;
                 metadata := Some {| contentLength := 36;
                                     responseETag := Some "v1";
                                     responseLastModified := None |} |}
              {| status := 200; statusText := "OK"; hdrETag := Some "v1";
                 hdrLastModified := None;
                 body := Some (sessionPage "xyz789") |}
              (sessionPage "abc123") (sessionPage "xyz789")
              (string_of_list_ascii
                 (normalizeContent (sessionPage "abc123")))
              sessionPages_variant)
    as (r & w' & Hrun & Hch & _ & Hs).
  - reflexivity.
  - vm_compute; reflexivity.
  - reflexivity.
  - vm_compute; reflexivity.
  - reflexivity.
  - vm_compute; discriminate.
  - vm_compute; reflexivity.
  - reflexivity.
  - vm_compute; reflexivity.
  - vm_compute; reflexivity.
  - exists r, w'. repeat split; assumption.
Defined.

(** Four more inputs on which the fingerprint is not that of the content
    less its volatile fields.  With content hashing switched off
    the fingerprint is the reading of the clock, so the same content has
    two fingerprints.  A run of thirteen digits that follows a timestamp
    loses its first digit to the timestamp and is no longer replaced.  An
    [id] attribute around a number of thirteen digits keeps the rest of its
    value, because the number has become [TIMESTAMP] before the attribute
    is looked for.  And when the fingerprints do agree, a different ETag is
    enough for a change signal. *)
Lemma fingerprint_not_of_content_alone :
  (∃ h1 w1 h2 w2,
      generateContentHash sampleDigest withoutHashing page
        (emptyWorld ticking) = (Returned h1, w1) ∧
      generateContentHash sampleDigest withoutHashing page w1
      = (Returned h2, w2) ∧
      h1 ≠ h2) ∧
  (generateContentHash sampleDigest defaultConfig
     (stampedRun "1234567890123") (emptyWorld ticking)).1
  ≠ (generateContentHash sampleDigest defaultConfig
       (stampedRun "9999999999999") (emptyWorld ticking)).1 ∧
  (generateContentHash sampleDigest defaultConfig (idAttribute "x")
     (emptyWorld ticking)).1
  ≠ (generateContentHash sampleDigest defaultConfig (idAttribute "y")
       (emptyWorld ticking)).1 ∧
  (∃ r w',
      syncUrl sampleDigest defaultConfig
        (serve (sessionPage "xyz789") "v2") url0 true afterSessionSync
      = (Returned r, w') ∧
      changed r = true ∧
      (length (default [] (mapGet url0 (changeSignals w')))
       = S (length (default [] (mapGet url0
                                  (changeSignals afterSessionSync)))))).
Proof.
  split; [|split; [|split]].
  - do 4 eexists. split; [vm_compute; reflexivity|].
    split; [vm_compute; reflexivity|]. discriminate.
  - vm_compute. discriminate.
  - vm_compute. discriminate.
  - do 2 eexists. split; [vm_compute; reflexivity|].
    split; vm_compute; reflexivity.
Qed.

(** C7 at that input: a page whose only difference between two fetches is
    the value of its authenticity token, carried in the [value] attribute
    of a form field.  The token pattern of [normalizeContent] ends at the
    double quote that closes the [name] attribute, so the name is replaced
    and the value stays in the normal form.  The two fingerprints differ,
    and the second fetch, under the same ETag, is reported as a change and
    adds a signal of type modified to the one of the first fetch. *)
Theorem token_attribute_changes_fingerprint :
  normalizeContent (tokenInput "abc123") = tokenInputReplaced "abc123" ∧
  normalizeContent (tokenInput "xyz789") = tokenInputReplaced "xyz789" ∧
  (generateContentHash sampleDigest defaultConfig (tokenInput "abc123")
     (emptyWorld ticking)).1
  ≠ (generateContentHash sampleDigest defaultConfig (tokenInput "xyz789")
       (emptyWorld ticking)).1 ∧
  map changeType (default [] (mapGet url0 (changeSignals afterTokenSync)))
  = [added] ∧
  ∃ r w',
    syncUrl sampleDigest defaultConfig (serve (tokenInput "xyz789") "v1")
      url0 true afterTokenSync = (Returned r, w') ∧
    changed r = true ∧ cached r = false ∧
    map changeType (default [] (mapGet url0 (changeSignals w')))
    = [added; modified] ∧
    map (fun s => (oldETag (sig_metadata s), newETag (sig_metadata s)))
        (default [] (mapGet url0 (changeSignals w')))
    = [(None, Some "v1"); (Some "v1", Some "v1")].
Proof.
  split; [by vm_compute|]. split; [by vm_compute|].
  split; [vm_compute; discriminate|]. split; [by vm_compute|].
  do 2 eexists. split; [vm_compute; reflexivity|].
  repeat split; vm_compute; reflexivity.
Qed.

End SyncFacts.

(** ** The scheduler *)

Module SchedulerFacts.
Import Scheduler.


Lemma saveCrawlSession_history s :
  historyEnded s →
  (∀ c, currentSession s = Some c → status c ≠ running) →
  historyEnded (saveCrawlSession s).
Proof.
  intros Hh Hc. unfold saveCrawlSession.
  destruct (currentSession s) as [c|] eqn:Hcs; [|done].
  unfold historyEnded; simpl.
  assert (Hall : Forall (fun c => status c ≠ running)
                   (default [] (crawlSessions s) ++ [c])).
  { apply Forall_app. split; [done|]. constructor; [by apply Hc|done]. }
  destruct (_ <? _)%nat; [by apply Forall_drop|done].
Qed.

Lemma endCrawlSession_facts st err s :
  st ≠ running → historyEnded s →
  historyEnded (endCrawlSession st err s) ∧
  isRunning (endCrawlSession st err s) = (if currentSession s is Some _ then false else isRunning s) ∧
  currentSession (endCrawlSession st err s) = None ∧
  queueManager (endCrawlSession st err s) = queueManager s.
Proof.
  intros Hst Hh. unfold endCrawlSession.
  destruct (currentSession s) as [c|] eqn:Hcs; [|by rewrite Hcs].
  simpl. split; [|done]. unfold historyEnded; simpl.
  match goal with
  | |- Forall _ (if _ then drop _ ?l else _) =>
      assert (Hall : Forall (fun c => status c ≠ running) l)
  end.
  { apply Forall_app. split; [done|]. by constructor. }
  destruct (_ <? _)%nat; [by apply Forall_drop|done].
Qed.

Lemma startFailed_facts msg s :
  historyEnded s →
  historyEnded (startFailed msg s).2 ∧
  isRunning (startFailed msg s).2 = false ∧
  currentSession (startFailed msg s).2 = None ∧
  queueManager (startFailed msg s).2 = queueManager s.
Proof.
  intros Hh. unfold startFailed. simpl.
  destruct (currentSession s) as [c|] eqn:Hc; simpl; [|by rewrite Hc].
  destruct (endCrawlSession_facts failed (Some msg) (withRunning s false))
    as (H1 & H2 & H3 & H4); [done|done|].
  simpl in *. rewrite Hc in *. done.
Qed.

Lemma addTask_facts task s :
  crawlSessions (addTask task s) = crawlSessions s ∧
  currentSession (addTask task s) = currentSession s ∧
  isRunning (addTask task s) = isRunning s.
Proof. done. Qed.

Lemma scheduleInitialTasks_history hosts s :
  crawlSessions (scheduleInitialTasks hosts s).2 = crawlSessions s.
Proof.
  unfold scheduleInitialTasks.
  destruct (currentSession s) as [c|] eqn:Hc; [|done].
  destruct hosts as [|h hosts]; [done|]. simpl. rewrite Hc. simpl. done.
Qed.

Lemma step_historyEnded s s' : step s s' → historyEnded s → historyEnded s'.
Proof.
  intros Hstep Hh. destruct Hstep as [|auth hosts|mon| |q Hq].
  - unfold enterStart. by destruct (isRunning s).
  - unfold resumeStart. destruct auth as [| |msg].
    + simpl.
      match goal with
      | |- context [scheduleInitialTasks hosts ?x] =>
          pose proof (scheduleInitialTasks_history hosts x) as Hs;
          destruct (scheduleInitialTasks hosts x) as [[msg|] s1]
      end; simpl in *.
      * apply startFailed_facts. unfold historyEnded. by rewrite Hs.
      * unfold historyEnded. by rewrite Hs.
    + by apply startFailed_facts.
    + by apply startFailed_facts.
  - unfold monitorTick. destruct (isRunning s); simpl; [|done].
    destruct (_ <? _); simpl; [|done].
    destruct (currentSession s) as [c|] eqn:Hc; simpl.
    + destruct (_ && _); simpl.
      * by apply endCrawlSession_facts.
      * destruct (_ >=? _); simpl; [|done]. by apply endCrawlSession_facts.
    + done.
  - unfold cancelCrawl. destruct (currentSession s); [|done].
    by apply endCrawlSession_facts.
  - done.
Qed.

Lemma saved_last (h : list CrawlSession) c :
  last (let sessions := h ++ [c] in
        if (10 <? length sessions)%nat
        then drop (length sessions - 10) sessions else sessions) = Some c.
Proof.
  cbv zeta. destruct (_ <? _)%nat eqn:Hlen; [|apply last_snoc].
  rewrite length_app; simpl. rewrite drop_app_le by lia. apply last_snoc.
Qed.

(** Executions are sequences of the atomic pieces of [step]: the
    entry of a start call, the rest of it after the auth probe, a turn of
    the monitor loop, a cancel, a step of the queue.  In every state they
    reach from one whose saved sessions have all ended,
    - at most one session record, current or saved, has the status
      running;
    - a start call that finds the guard down raises it in its first piece,
      before the auth probe is awaited;
    - a start call that finds the guard up throws and leaves the whole
      state, the queue manager and its storage included, as it was;
    - a start call whose seeding finds no host throws, leaves the queue as
      it was, and its session ends up last in the saved sessions with the
      status failed, the guard down again and no current session. *)
Theorem single_running_session (s s' : State) :
  historyEnded s → rtc step s s' →
  (length (filter (fun c => status c = running) (records s')) ≤ 1)%nat ∧
  (isRunning s' = false →
   enterStart s' = (Sync.Returned tt, withRunning s' true)) ∧
  (isRunning s' = true →
   ∀ auth hosts,
     startCrawlSession auth hosts s'
     = (Sync.Thrown "Crawl session already running", s')) ∧
  (isRunning s' = false →
   let r := startCrawlSession Authenticated [] s' in
   r.1 = Sync.Thrown "No Canvas hosts configured" ∧
   isRunning r.2 = false ∧ currentSession r.2 = None ∧
   queueManager r.2 = queueManager s' ∧
   ∃ c, last (default [] (crawlSessions r.2)) = Some c ∧
        id c = ("crawl_" ++ JS.show (time s' (tick s')))%string ∧
        status c = failed ∧
        error c = Some "No Canvas hosts configured").
Proof.
  intros Hh Hsteps.
  assert (Hh' : historyEnded s').
  { induction Hsteps as [|s1 s2 s3 Hstep _ IH]; [done|].
    apply IH. by eapply step_historyEnded. }
  split; [|split; [|split]].
  - unfold records. rewrite filter_app, length_app.
    replace (filter _ (default [] (crawlSessions s'))) with (@nil CrawlSession).
    + destruct (currentSession s') as [c|]; simpl; [|lia].
      rewrite filter_cons. destruct (decide _); simpl; lia.
    + symmetry. induction Hh' as [|c l Hc _ IH]; [done|].
      rewrite filter_cons. by destruct (decide _).
  - intros Hr. unfold enterStart. by rewrite Hr.
  - intros Hr auth hosts. unfold startCrawlSession, enterStart.
    by rewrite Hr.
  - intros Hr r. unfold r, startCrawlSession, enterStart. rewrite Hr.
    simpl. split; [done|]. split; [done|]. split; [done|]. split; [done|].
    eexists. split; [apply saved_last|]. done.
Qed.

(** From the initial state: after a start call has seeded the queue, and
    before any call. *)
Lemma single_running_session_witness :
  (length (filter (fun c => status c = running) (records started)) ≤ 1)%nat ∧
  (∀ auth hosts,
      startCrawlSession auth hosts started
      = (Sync.Thrown "Crawl session already running", started)) ∧
  enterStart initial = (Sync.Returned tt, withRunning initial true) ∧
  (startCrawlSession Authenticated [] initial).1
  = Sync.Thrown "No Canvas hosts configured".
Proof.
  unfold started.
  assert (Hinit : historyEnded initial) by (apply Forall_nil; exact I).
  assert (Hrun : rtc step initial (resumeStart Authenticated ["https://canvas.example"]
     (enterStart initial).2).2).
  { eapply rtc_l; [apply step_enter|].
    eapply rtc_l; [apply (step_resume _ Authenticated
                             ["https://canvas.example"])|].
    apply rtc_refl. }
  destruct (single_running_session _ _ Hinit Hrun)
    as (Hone & _ & Hup & _).
  destruct (single_running_session initial initial Hinit
              (rtc_refl _ _)) as (_ & Hdown & _ & Hseed).
  assert (Hguard : isRunning (resumeStart Authenticated ["https://canvas.example"]
     (enterStart initial).2).2 = true) by (vm_compute; reflexivity).
  split; [exact Hone|]. split; [exact (Hup Hguard)|].
  split; [exact (Hdown eq_refl)|]. exact (proj1 (Hseed eq_refl)).
Defined.

Lemma unguarded_reached : rtc step initial unguarded.
Proof.
  unfold unguarded, guardLowered, secondEntered, started.
  eapply rtc_l; [apply step_enter|].
  eapply rtc_l;
    [apply (step_resume _ Authenticated ["https://canvas.example"])|].
  eapply rtc_l; [apply (step_monitor _ 1010)|].
  eapply rtc_l; [apply step_cancel|].
  eapply rtc_l; [apply step_enter|].
  eapply rtc_l; [apply (step_monitor _ 1010)|].
  eapply rtc_l;
    [apply (step_resume _ Authenticated ["https://canvas.example"])|].
  exact (rtc_refl _ _).
Qed.

(** C9 at that input: a start call is cancelled while its monitoring loop
    sleeps, and a second start call passes the guard and awaits its auth
    probe.  The loop of the first call then wakes, finds the guard up and
    no session, and throws; the [catch] block of the first call lowers the
    guard that the second call had raised.  When the probe of the second
    call returns, its session becomes the current one with the status
    running while the guard is down, and its own loop ends at the first
    test.  A third start call is then not refused: it returns a new
    identifier, seeds the queue again, and puts its session in the place
    of the running one, which is never ended nor saved. *)
Theorem start_over_running_session :
  let hosts := ["https://canvas.example"] in
  let third := startCrawlSession Authenticated hosts unguarded in
  rtc step initial unguarded ∧
  (monitorTick 1010 started).1 = true ∧
  sessionOf (monitorTick 1010 started).2 = Some ("crawl_1000", running) ∧
  isRunning secondEntered = true ∧ sessionOf secondEntered = None ∧
  isRunning guardLowered = false ∧
  (resumeStart Authenticated hosts guardLowered).1
  = Sync.Returned "crawl_1015" ∧
  isRunning unguarded = false ∧
  sessionOf unguarded = Some ("crawl_1015", running) ∧
  (∀ monitorStart, monitorTick monitorStart unguarded = (false, unguarded)) ∧
  third.1 = Sync.Returned "crawl_1025" ∧
  sessionOf third.2 = Some ("crawl_1025", running) ∧
  map (fun c => (id c, status c)) (default [] (crawlSessions third.2))
  = [("crawl_1000", cancelled)] ∧
  length (Queue.tasks (Queue.mgr (queueManager unguarded))) = 4%nat ∧
  length (Queue.tasks (Queue.mgr (queueManager third.2))) = 6%nat.
Proof.
  intros hosts third. split; [exact unguarded_reached|].
  split; [by vm_compute|]. split; [by vm_compute|].
  split; [by vm_compute|]. split; [by vm_compute|].
  split; [by vm_compute|]. split; [by vm_compute|].
  assert (Hr : isRunning unguarded = false) by (by vm_compute).
  split; [exact Hr|]. split; [by vm_compute|].
  split; [intros t; unfold monitorTick; by rewrite Hr|].
  split; [by vm_compute|]. split; [by vm_compute|].
  split; [by vm_compute|]. split; by vm_compute.
Qed.

End SchedulerFacts.

Module JSFacts.
Import JS.

Lemma toInt32_range z : - 2 ^ 31 <= toInt32 z < 2 ^ 31.
Proof.
  unfold toInt32.
  pose proof (Z.mod_pos_bound (z + 2 ^ 31) (2 ^ 32) ltac:(lia)). lia.
Qed.

Lemma digitChar_base36 d : 0 <= d < 36 → base36Digit (digitChar d) = true.
Proof.
  intros Hd. unfold digitChar, base36Digit.
  destruct (d <? 10) eqn:E.
  - apply Z.ltb_lt in E. rewrite nat_ascii_embedding by lia.
    apply orb_true_iff; left. apply andb_true_iff.
    split; apply Nat.leb_le; lia.
  - apply Z.ltb_ge in E. rewrite nat_ascii_embedding by lia.
    apply orb_true_iff; right. apply andb_true_iff.
    split; apply Nat.leb_le; lia.
Qed.

Lemma digitsOf_chars fuel n acc :
  0 <= n →
  Forall (fun c => base36Digit c = true) (list_ascii_of_string acc) →
  Forall (fun c => base36Digit c = true)
         (list_ascii_of_string (digitsOf fuel 36 n acc)).
Proof.
  revert n acc. induction fuel as [|fuel IH]; intros n acc Hn Hacc; [done|].
  simpl. assert (Hd : base36Digit (digitChar (n mod 36)) = true).
  { apply digitChar_base36. apply Z.mod_pos_bound. lia. }
  destruct (n / 36 =? 0).
  - simpl. by constructor.
  - apply IH; [apply Z.div_pos; lia|]. simpl. by constructor.
Qed.

Lemma digitsOf_length_le fuel n acc k :
  0 <= n < 36 ^ Z.of_nat k → (1 ≤ k)%nat →
  (String.length (digitsOf fuel 36 n acc) ≤ String.length acc + k)%nat.
Proof.
  revert n acc k. induction fuel as [|fuel IH]; intros n acc k Hn Hk.
  - simpl. lia.
  - simpl. destruct (n / 36 =? 0) eqn:E.
    + simpl. lia.
    + apply Z.eqb_neq in E.
      assert (36 <= n).
      { destruct (Z_lt_le_dec n 36) as [Hlt|]; [|done].
        rewrite Z.div_small in E by lia. done. }
      destruct k as [|[|k]]; [lia|simpl in Hn; lia|].
      etransitivity; [apply (IH _ _ (S k))|simpl; lia]; [|lia].
      split; [apply Z.div_pos; lia|].
      apply Z.div_lt_upper_bound; [lia|].
      replace (Z.of_nat (S (S k))) with (Z.succ (Z.of_nat (S k))) in Hn by lia.
      rewrite Z.pow_succ_r in Hn by lia. lia.
Qed.

Lemma digitsOf_length_ge fuel n acc :
  (String.length acc ≤ String.length (digitsOf fuel 36 n acc))%nat.
Proof.
  revert n acc. induction fuel as [|fuel IH]; intros n acc; [done|].
  simpl. destruct (n / 36 =? 0); simpl; [lia|].
  etransitivity; [|apply IH]. simpl. lia.
Qed.

Lemma length_list_ascii_of_string s :
  length (list_ascii_of_string s) = String.length s.
Proof. induction s; simpl; congruence. Qed.

End JSFacts.

(** ** The task queue: the other operations *)

Module QueueOps.
Import Queue QueueFacts JS JSFacts.

Lemma hashStep_range h c : - 2 ^ 31 <= hashStep h c < 2 ^ 31.
Proof. unfold hashStep, band. apply toInt32_range. Qed.

Lemma fold_left_cons {A B} (f : A → B → A) x l a :
  fold_left f (x :: l) a = fold_left f l (f a x).
Proof. reflexivity. Qed.

Lemma fold_hashStep_range l h :
  - 2 ^ 31 <= h < 2 ^ 31 → - 2 ^ 31 <= fold_left hashStep l h < 2 ^ 31.
Proof.
  revert h. induction l as [|c l IH]; intros h Hh; [exact Hh|].
  rewrite fold_left_cons. apply IH, hashStep_range.
Qed.

(** [simpleHash] returns between one and six digits of base 36, whatever
    the string. *)
Theorem simpleHash_base36 (str : string) :
  (1 ≤ String.length (simpleHash str) ≤ 6)%nat ∧
  Forall (fun c => base36Digit c = true)
         (list_ascii_of_string (simpleHash str)).
Proof.
  unfold simpleHash. cbv zeta.
  pose proof (fold_hashStep_range (charCodes str) 0 ltac:(lia)) as Hr.
  set (h := fold_left hashStep (charCodes str) 0) in *.
  assert (Ha : 0 <= Z.abs h <= 2 ^ 31) by lia.
  unfold toStringRadix.
  destruct (Z.abs h <? 0) eqn:E; [apply Z.ltb_lt in E; lia|].
  split; [split|].
  - simpl. destruct (_ =? 0); simpl; [lia|].
    etransitivity; [|apply digitsOf_length_ge]. simpl. lia.
  - apply (digitsOf_length_le _ _ EmptyString 6); [|lia].
    change (36 ^ Z.of_nat 6) with 2176782336. lia.
  - apply digitsOf_chars; [lia | constructor].
Qed.

(** *** The sort of [processQueue] *)

Lemma compareTasks_inOrder a b :
  Qle_bool (compareTasks a b) 0 = true ↔ inOrder a b.
Proof.
  unfold compareTasks, inOrder. rewrite Qle_bool_iff.
  destruct (Qeq_bool _ _) eqn:E; simpl.
  - apply Qeq_bool_iff in E. split.
    + intros H. right. split; [done|].
      unfold Qle, inject_Z in H; simpl in H. lia.
    + intros [H|[_ H]]; [rewrite E in H; by apply Qlt_irrefl in H|].
      unfold Qle, inject_Z; simpl. lia.
  - apply Qeq_bool_neq in E. split.
    + intros H. left. apply Qle_minus_iff in H.
      destruct (Qlt_le_dec (CrawlTask.scheduledFor a)
                           (CrawlTask.scheduledFor b)) as [|Hle]; [done|].
      exfalso. apply E. apply Qle_antisym; [|done]. lra.
    + intros [H|[H _]]; [lra | done].
Qed.

Lemma inOrder_total a b : inOrder a b ∨ inOrder b a.
Proof.
  unfold inOrder.
  destruct (Q_dec (CrawlTask.scheduledFor a) (CrawlTask.scheduledFor b))
    as [[?|?]|He]; [by left; left | by right; left |].
  destruct (Z_le_gt_dec (CrawlTask.priority b) (CrawlTask.priority a)).
  - left; right. done.
  - right; right. split; [by symmetry | lia].
Qed.

Lemma inOrder_trans a b c : inOrder a b → inOrder b c → inOrder a c.
Proof.
  unfold inOrder. intros [H1|[H1 P1]] [H2|[H2 P2]].
  - left. lra.
  - left. lra.
  - left. lra.
  - right. split; [lra | lia].
Qed.

Section Sorting.
Variable m : QueueManager.

(** The references of [l] are allocated and their tasks are in order. *)
Definition before (r y : nat) : Prop :=
  ∀ a b, deref m r = Some a → deref m y = Some b → inOrder a b.

Lemma sortsBefore_before r y a b :
  deref m r = Some a → deref m y = Some b →
  (sortsBefore m r y = true ↔ inOrder a b).
Proof.
  intros Ha Hb. unfold sortsBefore. rewrite Ha, Hb.
  apply compareTasks_inOrder.
Qed.

Lemma insertSorted_perm r l : insertSorted m r l ≡ₚ r :: l.
Proof.
  induction l as [|y l IH]; simpl; [done|].
  destruct (sortsBefore m r y); [done|].
  rewrite IH. apply Permutation_swap.
Qed.

Lemma sorted_perm (q : list nat) : foldr (insertSorted m) [] q ≡ₚ q.
Proof.
  induction q as [|r q IH]; simpl; [done|].
  by rewrite insertSorted_perm, IH.
Qed.

Lemma insertSorted_sorted r l :
  is_Some (deref m r) → Forall (fun y => is_Some (deref m y)) l →
  StronglySorted before l → StronglySorted before (insertSorted m r l).
Proof.
  intros [a Ha] Hl Hs. induction Hs as [|y l Hs IH Hy]; simpl.
  - repeat constructor.
  - apply Forall_cons in Hl as [[b Hb] Hl].
    destruct (sortsBefore m r y) eqn:E.
    + apply (sortsBefore_before _ _ _ _ Ha Hb) in E.
      constructor; [by constructor|]. constructor.
      * intros a' b' Ha' Hb'. congruence.
      * eapply Forall_impl; [exact Hy|]. intros z Hz a' c Ha' Hc.
        rewrite Ha in Ha'. injection Ha' as <-.
        eapply inOrder_trans; [exact E|]. by apply Hz.
    + constructor; [by apply IH|].
      rewrite insertSorted_perm. constructor; [|done].
      intros b' a' Hb' Ha'. rewrite Hb in Hb'. rewrite Ha in Ha'.
      injection Hb' as <-. injection Ha' as <-.
      destruct (inOrder_total b a) as [|H]; [done|].
      apply (sortsBefore_before _ _ _ _ Ha Hb) in H. congruence.
Qed.

Lemma sorted_sorted (q : list nat) :
  Forall (fun y => is_Some (deref m y)) q →
  StronglySorted before (foldr (insertSorted m) [] q).
Proof.
  induction q as [|r q IH]; simpl; intros Hq; [constructor|].
  apply Forall_cons in Hq as [Hr Hq].
  apply insertSorted_sorted; [done| |by apply IH].
  by rewrite sorted_perm.
Qed.

Lemma omap_deref_sorted (l : list nat) :
  StronglySorted before l → StronglySorted inOrder (omap (deref m) l).
Proof.
  induction 1 as [|r l Hs IH Hr]; simpl; [constructor|].
  destruct (deref m r) as [a|] eqn:Ha; [|done].
  constructor; [done|].
  apply list.Forall_forall. intros b Hb.
  apply list_elem_of_omap in Hb as (y & Hy & Hb).
  rewrite list.Forall_forall in Hr. by apply (Hr y).
Qed.

End Sorting.

Lemma wellFormed_deref m :
  wellFormed m → Forall (fun y => is_Some (deref m y)) (queue m).
Proof.
  unfold wellFormed. intros H. eapply list.Forall_impl; [exact H|].
  intros r Hr. by apply lookup_lt_is_Some.
Qed.

(** The sort at the head of [processQueue] keeps the tasks of the queue and
    puts them in order: by [scheduledFor], the earliest first, and among
    tasks scheduled for the same time by priority, the highest first. *)
Theorem sortQueue_sorted (m : QueueManager) :
  wellFormed m →
  tasks (sortQueue m) ≡ₚ tasks m ∧
  StronglySorted inOrder (tasks (sortQueue m)) ∧
  heap (sortQueue m) = heap m ∧ running (sortQueue m) = running m.
Proof.
  intros Hwf. unfold tasks, sortQueue. simpl.
  change (deref (withQueue m (heap m) _)) with (deref m).
  split; [|split; [|done]].
  - apply omap_Permutation, sorted_perm.
  - apply omap_deref_sorted, sorted_sorted. by apply wellFormed_deref.
Qed.

Lemma sortQueue_sorted_witness :
  StronglySorted inOrder (tasks (sortQueue (mgr twoQueued))).
Proof.
  destruct (sortQueue_sorted (mgr twoQueued)) as (_ & H & _).
  - unfold wellFormed. vm_compute. repeat constructor.
  - exact H.
Defined.

Lemma rtc_invariant {A} (R : relation A) (P : A → Prop) x y :
  (∀ a b, R a b → P a → P b) → P x → rtc R x y → P y.
Proof. intros HR Hx Hxy. induction Hxy; eauto. Qed.

(** *** References stay allocated *)

Lemma wellFormed_withSets m r c f : wellFormed (withSets m r c f) ↔ wellFormed m.
Proof. done. Qed.

Lemma wellFormed_mutate m r f : wellFormed (mutate m r f) ↔ wellFormed m.
Proof. unfold wellFormed, mutate; simpl. by rewrite length_alter. Qed.

Lemma wellFormed_enqueue m c : wellFormed m → wellFormed (enqueue m c).
Proof.
  unfold wellFormed, enqueue. intros H.
  assert (Hw : Forall (λ r, (r < length (heap m ++ [c]))%nat) (queue m)).
  { eapply list.Forall_impl; [exact H|]. intros r Hr. simpl in *.
    rewrite length_app; simpl; lia. }
  destruct (findIndex m _) as [i|]; simpl.
  - destruct (queue m !! i ≫= deref m); [|done].
    destruct (_ >? _); [|done]. simpl.
    apply Forall_insert; [done|]. rewrite length_app; simpl; lia.
  - apply Forall_app. split; [done|]. constructor; [|done].
    rewrite length_app; simpl; lia.
Qed.

Lemma wellFormed_splice1 m i :
  wellFormed m → wellFormed (withQueue m (heap m) (splice1 i (queue m))).
Proof.
  unfold wellFormed, splice1; simpl. intros H. apply Forall_app.
  split; [by apply Forall_take | by apply Forall_drop].
Qed.

Lemma wellFormed_removeTask tSaved id w :
  wellFormed (mgr w) → wellFormed (mgr (removeTask tSaved id w).2).
Proof.
  unfold removeTask. destruct (findIndex _ _); simpl; [|done].
  apply wellFormed_splice1.
Qed.

Lemma step_wellFormed w w' : step w w' → wellFormed (mgr w) → wellFormed (mgr w').
Proof.
  intros Hstep Hwf. destruct Hstep as [tId tC tS task|tS|Hcap|now r Hr
    |tR tS r Hr|msg rnd tN tR tW tS r Hr]; simpl.
  - unfold wellFormed; simpl. by apply (wellFormed_enqueue (mgr w)).
  - by constructor.
  - unfold wellFormed in *; simpl.
    by rewrite sorted_perm.
  - unfold beginTask. destruct (deref _ _); [|done]. simpl.
    by apply wellFormed_mutate.
  - unfold completeTask. destruct (deref _ _); [|done].
    by apply wellFormed_removeTask.
  - unfold failTask.
    destruct (deref (mutate _ _ _) _) as [task|]; [|done].
    destruct (_ >=? _); simpl.
    + apply wellFormed_removeTask; simpl. by apply wellFormed_mutate.
    + by do 2 apply wellFormed_mutate.
Qed.


(** *** Identifiers of queued tasks stay distinct *)

Lemma sublist_omap {A B} (f : A → option B) l k :
  l `sublist_of` k → omap f l `sublist_of` omap f k.
Proof.
  induction 1 as [|x l k _ IH|x l k _ IH]; simpl.
  - constructor.
  - destruct (f x); [by constructor | done].
  - destruct (f x); [by constructor | done].
Qed.

Lemma sublist_map {A B} (f : A → B) l k :
  l `sublist_of` k → map f l `sublist_of` map f k.
Proof. induction 1; simpl; by constructor. Qed.

Lemma splice1_sublist i (q : list nat) : splice1 i q `sublist_of` q.
Proof.
  unfold splice1. rewrite <- (take_drop i q) at 3.
  apply sublist_app; [done|].
  replace (S i) with (i + 1)%nat by lia. rewrite <- drop_drop.
  apply sublist_drop.
Qed.

Lemma queued_queuedIds m id : queued m id ↔ id ∈ queuedIds m.
Proof.
  unfold queued, queuedIds, tasks. rewrite list_elem_of_fmap. split.
  - intros (r & t & Hr & Hd & Hid). exists t. split; [done|].
    apply list_elem_of_omap. by exists r.
  - intros (t & Hid & Ht). apply list_elem_of_omap in Ht as (r & Hr & Hd).
    by exists r, t.
Qed.

Lemma queuedIds_withSets m r c f : queuedIds (withSets m r c f) = queuedIds m.
Proof. done. Qed.

Lemma map_omap_ext {A B C} (i : B → C) (g h : A → option B) (q : list A) :
  (∀ x, i <$> g x = i <$> h x) → map i (omap g q) = map i (omap h q).
Proof.
  intros Hgh. induction q as [|x q IH]; simpl; [done|].
  specialize (Hgh x). destruct (g x), (h x); simpl in *; try discriminate;
    [injection Hgh as Hi; f_equal; [exact Hi | exact IH] | exact IH].
Qed.

Lemma queuedIds_mutate m r f :
  (∀ t, CrawlTask.id (f t) = CrawlTask.id t) →
  queuedIds (mutate m r f) = queuedIds m.
Proof.
  intros Hf. unfold queuedIds, tasks. apply map_omap_ext. intros x.
  unfold mutate, deref; simpl.
  destruct (decide (x = r)) as [->|Hne].
  - rewrite list_lookup_alter_eq.
    destruct (heap m !! r); simpl; [|done]. by rewrite Hf.
  - by rewrite list_lookup_alter_ne.
Qed.

Lemma queuedIds_removeTask tSaved id w :
  queuedIds (mgr (removeTask tSaved id w).2) `sublist_of` queuedIds (mgr w).
Proof.
  unfold removeTask. destruct (findIndex _ _); simpl; [|done].
  unfold queuedIds, tasks; simpl.
  apply sublist_map, sublist_omap, splice1_sublist.
Qed.

Lemma tasks_lookup m k :
  wellFormed m → tasks m !! k = queue m !! k ≫= deref m.
Proof.
  unfold tasks, wellFormed. intros H. revert k.
  induction H as [|r q Hr _ IH]; intros k; simpl; [done|].
  destruct (lookup_lt_is_Some_2 _ _ Hr) as [t Ht].
  unfold deref at 1. rewrite Ht. destruct k; simpl; [done | apply IH].
Qed.

Lemma length_tasks m : wellFormed m → length (tasks m) = length (queue m).
Proof.
  unfold tasks, wellFormed. induction 1 as [|r q Hr _ IH]; simpl; [done|].
  destruct (lookup_lt_is_Some_2 _ _ Hr) as [t Ht].
  unfold deref at 1. rewrite Ht. simpl. f_equal. exact IH.
Qed.

Lemma queuedIds_enqueue_found m c :
  wellFormed m → queued m (CrawlTask.id c) →
  queuedIds (enqueue m c) = queuedIds m.
Proof.
  intros Hwf Hq. unfold enqueue.
  destruct (findIndex m (CrawlTask.id c)) as [i|] eqn:Hi;
    [|by apply findIndex_None in Hi].
  destruct (findIndex_Some _ _ _ Hi) as (r & t & Hr & Hd & Hid).
  rewrite Hr; simpl. rewrite Hd.
  destruct (_ >? _); [|done].
  assert (Hwf' : wellFormed (withQueue m (heap m ++ [c])
                               (<[i:=length (heap m)]> (queue m)))).
  { unfold wellFormed in *; simpl. apply Forall_insert.
    - eapply list.Forall_impl; [exact Hwf|]. intros x Hx. simpl in *.
      rewrite length_app; simpl; lia.
    - rewrite length_app; simpl; lia. }
  unfold queuedIds. apply list_eq. intros k.
  rewrite !list_lookup_fmap, !tasks_lookup by done. simpl.
  destruct (decide (k = i)) as [->|Hne].
  - rewrite list_lookup_insert_eq by (by eapply lookup_lt_Some).
    rewrite Hr; simpl. unfold deref; simpl.
    rewrite lookup_app_r, Nat.sub_diag by lia. simpl.
    unfold deref in Hd. rewrite Hd. simpl. by rewrite Hid.
  - rewrite list_lookup_insert_ne by done.
    destruct (queue m !! k) as [x|] eqn:Hx; simpl; [|done].
    unfold deref; simpl. rewrite lookup_app_l; [done|].
    unfold wellFormed in Hwf. rewrite list.Forall_forall in Hwf.
    apply Hwf. by eapply list_elem_of_lookup_2.
Qed.

Lemma queuedIds_enqueue_fresh m c :
  wellFormed m → ¬ queued m (CrawlTask.id c) →
  queuedIds (enqueue m c) = queuedIds m ++ [CrawlTask.id c].
Proof.
  intros Hwf Hq. rewrite enqueue_fresh by done.
  unfold queuedIds. rewrite tasks_withQueue, derefs_push by done.
  by rewrite map_app.
Qed.

Lemma distinctIds_enqueue m c : distinctIds m → distinctIds (enqueue m c).
Proof.
  intros [Hwf Hnd]. split; [by apply wellFormed_enqueue|].
  destruct (decide (CrawlTask.id c ∈ queuedIds m)) as [Hin|Hin].
  - rewrite queuedIds_enqueue_found; [done..|]. by apply queued_queuedIds.
  - rewrite queuedIds_enqueue_fresh; [|done|by rewrite queued_queuedIds].
    apply NoDup_app. split; [done|]. split; [|apply NoDup_singleton].
    intros x Hx Hx'. apply list_elem_of_singleton in Hx' as ->. done.
Qed.

Lemma recordFailure_id msg t :
  CrawlTask.id (recordFailure msg t) = CrawlTask.id t.
Proof. done. Qed.

Lemma step_distinctIds w w' :
  step w w' → distinctIds (mgr w) → distinctIds (mgr w').
Proof.
  intros Hstep Hd. split; [by apply (step_wellFormed w), Hd|].
  destruct Hd as [Hwf Hnd].
  destruct Hstep as [tId tC tS task|tS|Hcap|now r Hr
    |tR tS r Hr|msg rnd tN tR tW tS r Hr]; simpl.
  - unfold queuedIds, tasks; simpl.
    by apply (distinctIds_enqueue (mgr w)).
  - constructor.
  - unfold queuedIds, tasks in *; simpl.
    change (deref (withQueue (mgr w) (heap (mgr w)) _)) with (deref (mgr w)).
    eapply NoDup_Permutation_proper; [|exact Hnd].
    apply fmap_Permutation, omap_Permutation, sorted_perm.
  - unfold beginTask. destruct (deref _ _); [|done]. simpl.
    by rewrite queuedIds_mutate.
  - unfold completeTask. destruct (deref _ _); [|done].
    eapply sublist_NoDup; [exact Hnd|].
    apply (queuedIds_removeTask tR _
             {| mgr := withSets (mgr w) _ _ _; store := store w |}).
  - unfold failTask.
    destruct (deref (mutate _ _ _) _) as [task|]; [|done].
    destruct (_ >=? _); simpl.
    + eapply sublist_NoDup;
        [|apply (queuedIds_removeTask tR _
                   {| mgr := withSets (mutate (mgr w) r (recordFailure msg))
                               _ _ _; store := store w |})].
      simpl. by rewrite queuedIds_withSets, queuedIds_mutate.
    + rewrite queuedIds_withSets, !queuedIds_mutate; done.
Qed.

(** From a state where the references of the queue are allocated and no
    two queued tasks share an identifier, every execution keeps it so:
    [addTask] replaces or appends, it never duplicates. *)
Theorem queued_ids_stay_distinct (w w' : World) :
  distinctIds (mgr w) → rtc step w w' →
  NoDup (queuedIds (mgr w')) ∧
  length (tasks (mgr w')) = length (queue (mgr w')).
Proof.
  intros Hd Hsteps.
  assert (H : distinctIds (mgr w')).
  { eapply (rtc_invariant step (fun w => distinctIds (mgr w)));
      [apply step_distinctIds | exact Hd | exact Hsteps]. }
  destruct H as [Hwf Hnd]. split; [done | by apply length_tasks].
Qed.


(** *** The concurrency limit *)

Lemma removeTask_sets tSaved id w :
  running (mgr (removeTask tSaved id w).2) = running (mgr w) ∧
  config (mgr (removeTask tSaved id w).2) = config (mgr w).
Proof. unfold removeTask. by destruct (findIndex _ _). Qed.

Lemma step_config w w' : step w w' → config (mgr w') = config (mgr w).
Proof.
  intros [tId tC tS task|tS|Hcap|now r Hr|tR tS r Hr
         |msg rnd tN tR tW tS r Hr]; simpl; try done.
  - unfold enqueue. destruct (findIndex _ _); [|done].
    destruct (_ ≫= _); [|done]. by destruct (_ >? _).
  - unfold beginTask. by destruct (deref _ _).
  - unfold completeTask. destruct (deref _ _); [|done]. simpl.
    by rewrite (proj2 (removeTask_sets _ _ _)).
  - unfold failTask. destruct (deref (mutate _ _ _) _); [|done].
    destruct (_ >=? _); simpl; [|done].
    by rewrite (proj2 (removeTask_sets _ _ _)).
Qed.

Lemma size_remove (X : gset string) id : (size (X ∖ {[id]}) ≤ size X)%nat.
Proof. apply subseteq_size. set_solver. Qed.

Lemma step_withinCapacity w w' :
  step w w' → withinCapacity (mgr w) → withinCapacity (mgr w').
Proof.
  intros Hstep. unfold withinCapacity. rewrite (step_config _ _ Hstep).
  destruct Hstep as [tId tC tS task|tS|Hcap|now r Hr|tR tS r Hr
                    |msg rnd tN tR tW tS r Hr]; simpl; intros Hc.
  - unfold enqueue. destruct (findIndex _ _); [|done].
    destruct (_ ≫= _); [|done]. by destruct (_ >? _).
  - pose proof (Nat2Z.is_nonneg (size (running (mgr w)))).
    change (Z.of_nat 0 ≤ maxConcurrentTasks (config (mgr w))). lia.
  - done.
  - destruct Hr as (Hcap & _). unfold atCapacity in Hcap.
    apply Z.leb_gt in Hcap.
    unfold beginTask. destruct (deref _ _) as [task|]; [|done]. simpl.
    pose proof (size_union_alt {[CrawlTask.id task]} (running (mgr w))) as Hu.
    rewrite size_singleton in Hu.
    pose proof (size_remove (running (mgr w)) (CrawlTask.id task)). lia.
  - unfold completeTask. destruct (deref _ _) as [task|]; [|done]. simpl.
    rewrite (proj1 (removeTask_sets _ _ _)). simpl.
    pose proof (size_remove (running (mgr w)) (CrawlTask.id task)). lia.
  - unfold failTask. destruct (deref (mutate _ _ _) _) as [task|]; [|done].
    destruct (_ >=? _); simpl.
    + rewrite (proj1 (removeTask_sets _ _ _)). simpl.
      pose proof (size_remove (running (mgr w)) (CrawlTask.id task)). lia.
    + pose proof (size_remove (running (mgr w)) (CrawlTask.id task)). lia.
Qed.

(** The size of the running set never passes [maxConcurrentTasks] once the
    load of the constructor has landed: [processQueue] tests it right
    before it hands a task to [executeTask], and nothing else adds to that
    set.  The bound is on the set, not on the executions under way:
    [clearQueue] empties the set and aborts none of them. *)
Theorem running_within_capacity (w w' : World) :
  withinCapacity (mgr w) → rtc step w w' →
  config (mgr w') = config (mgr w) ∧
  Z.of_nat (size (running (mgr w'))) ≤ maxConcurrentTasks (config (mgr w)).
Proof.
  intros Hc Hsteps.
  assert (H : config (mgr w') = config (mgr w) ∧ withinCapacity (mgr w')).
  { eapply (rtc_invariant step
              (fun v => config (mgr v) = config (mgr w) ∧
                        withinCapacity (mgr v)));
      [|split; [done | exact Hc]|exact Hsteps].
    intros a b Hab [Hcfg Ha]. split.
    - by rewrite (step_config _ _ Hab).
    - by apply (step_withinCapacity a). }
  destruct H as [Hcfg H]. split; [done|].
  unfold withinCapacity in H. by rewrite Hcfg in H.
Qed.

(** *** Statistics *)

Lemma length_omap_le {A B} (f : A → option B) l :
  (length (omap f l) ≤ length l)%nat.
Proof.
  induction l as [|x l IH]; simpl; [done|].
  destruct (f x); simpl; [apply le_n_S, IH | apply Nat.le_le_succ_r, IH].
Qed.

Lemma size_list_to_set_le (l : list string) :
  (size (list_to_set (C:=gset string) l) ≤ length l)%nat.
Proof.
  induction l as [|x l IH].
  - change (size (∅ : gset string) ≤ 0)%nat. by rewrite size_empty.
  - etransitivity; [|apply le_n_S, IH].
    change (size ({[x]} ∪ list_to_set (C:=gset string) l)
            ≤ S (size (list_to_set (C:=gset string) l)))%nat.
    rewrite size_union_alt, size_singleton.
    pose proof (subseteq_size (list_to_set l ∖ {[x]})
                  (list_to_set (C:=gset string) l) ltac:(set_solver)). lia.
Qed.

(** *** Removal *)

Lemma omap_take_drop m i :
  wellFormed m →
  omap (deref m) (take i (queue m)) = take i (tasks m) ∧
  omap (deref m) (drop i (queue m)) = drop i (tasks m).
Proof.
  unfold tasks, wellFormed. intros H. revert i.
  induction H as [|r q Hr _ IH]; intros i; [by destruct i|].
  destruct (lookup_lt_is_Some_2 _ _ Hr) as [t Ht].
  assert (Hd : deref m r = Some t) by done.
  destruct i as [|i]; [done|]. simpl. rewrite !Hd. simpl.
  destruct (IH i) as [IH1 IH2]. split; [f_equal; exact IH1 | exact IH2].
Qed.

Lemma tasks_splice1 m i :
  wellFormed m →
  tasks (withQueue m (heap m) (splice1 i (queue m)))
  = take i (tasks m) ++ drop (S i) (tasks m).
Proof.
  intros Hwf. unfold tasks at 1, splice1. simpl.
  change (deref (withQueue m (heap m) _)) with (deref m).
  rewrite omap_app.
  by rewrite (proj1 (omap_take_drop m i Hwf)),
             (proj2 (omap_take_drop m (S i) Hwf)).
Qed.

Lemma findIndex_first m id i :
  wellFormed m → findIndex m id = Some i →
  ∃ task, tasks m !! i = Some task ∧ CrawlTask.id task = id ∧
          Forall (fun t => CrawlTask.id t ≠ id) (take i (tasks m)).
Proof.
  intros Hwf Hi. unfold findIndex in Hi.
  apply findIndexFrom_Some in Hi as (k & r & -> & Hr & Hp & Hbefore).
  simpl. apply hasId_true in Hp as (t & Hd & Hid).
  exists t. rewrite tasks_lookup, Hr by done. split; [done|]. split; [done|].
  apply Forall_lookup. intros j u Hu.
  apply lookup_take_Some in Hu as [Hu Hj].
  rewrite tasks_lookup in Hu by done.
  destruct (queue m !! j) as [x|] eqn:Hx; [|done]. simpl in Hu.
  specialize (Hbefore j x Hj Hx). intros Hid'.
  assert (hasId m id x = true) by (apply hasId_true; by exists u).
  congruence.
Qed.

Lemma removeTask_found tSaved id w :
  wellFormed (mgr w) → queued (mgr w) id →
  ∃ before task after,
    tasks (mgr w) = before ++ task :: after ∧
    CrawlTask.id task = id ∧
    Forall (fun t => CrawlTask.id t ≠ id) before ∧
    (removeTask tSaved id w).1 = true ∧
    tasks (mgr (removeTask tSaved id w).2) = before ++ after ∧
    crawlQueue (store (removeTask tSaved id w).2) = Some (before ++ after).
Proof.
  intros Hwf Hq. unfold removeTask.
  destruct (findIndex (mgr w) id) as [i|] eqn:Hi;
    [|by apply findIndex_None in Hi].
  destruct (findIndex_first _ _ _ Hwf Hi) as (task & Ht & Hid & Hb).
  exists (take i (tasks (mgr w))), task, (drop (S i) (tasks (mgr w))).
  split; [by rewrite take_drop_middle|]. split; [done|]. split; [done|].
  split; [done|]. simpl. by rewrite tasks_splice1.
Qed.

(** [removeTask] takes out the first task with the identifier and nothing
    else, saves the queue and says [true]; when no queued task has the
    identifier it says [false] and touches neither the queue nor the
    storage. *)
Theorem removeTask_first_match (tSaved : Z) (id : string) (w : World) :
  wellFormed (mgr w) →
  (¬ queued (mgr w) id → removeTask tSaved id w = (false, w)) ∧
  (queued (mgr w) id →
   ∃ before task after,
     tasks (mgr w) = before ++ task :: after ∧
     CrawlTask.id task = id ∧
     Forall (fun t => CrawlTask.id t ≠ id) before ∧
     (removeTask tSaved id w).1 = true ∧
     tasks (mgr (removeTask tSaved id w).2) = before ++ after ∧
     crawlQueue (store (removeTask tSaved id w).2) = Some (before ++ after)).
Proof.
  intros Hwf. split.
  - intros Hq. apply findIndex_None in Hq. unfold removeTask. by rewrite Hq.
  - intros Hq. by apply removeTask_found.
Qed.


(** *** The end of a task *)

Lemma deref_mutate m r f x :
  deref (mutate m r f) x
  = if decide (x = r) then f <$> deref m x else deref m x.
Proof.
  unfold deref, mutate; simpl. destruct (decide (x = r)) as [->|Hne].
  - by rewrite list_lookup_alter_eq.
  - by rewrite list_lookup_alter_ne.
Qed.

Lemma removeTask_distinct tSaved id w :
  distinctIds (mgr w) → queued (mgr w) id →
  let w' := (removeTask tSaved id w).2 in
  ¬ queued (mgr w') id ∧
  (∀ id', id' ≠ id → queued (mgr w') id' ↔ queued (mgr w) id') ∧
  running (mgr w') = running (mgr w) ∧
  completed (mgr w') = completed (mgr w) ∧
  failed (mgr w') = failed (mgr w) ∧
  recentErrors (store w') = recentErrors (store w) ∧
  crawlQueue (store w') = Some (tasks (mgr w')).
Proof.
  intros [Hwf Hnd] Hq w'.
  destruct (removeTask_found tSaved id w Hwf Hq)
    as (before & task & after & Ht & Hid & Hb & _ & Ht' & Hst).
  fold w' in Ht', Hst.
  assert (Hids : ∀ x, queued (mgr w') x ↔ x ∈ map CrawlTask.id (before ++ after)).
  { intros x. rewrite queued_queuedIds. unfold queuedIds. by rewrite Ht'. }
  unfold queuedIds in Hnd. rewrite Ht, map_app in Hnd. simpl in Hnd.
  rewrite Hid in Hnd. apply NoDup_app in Hnd as (_ & Hdisj & Hnd).
  apply NoDup_cons in Hnd as [Hnotin _].
  split; [|split].
  - rewrite Hids, map_app, elem_of_app. intros [Hin|Hin]; [|done].
    apply (Hdisj _ Hin). by left.
  - intros id' Hne. rewrite Hids, queued_queuedIds. unfold queuedIds.
    rewrite Ht, !map_app, !elem_of_app. simpl. rewrite elem_of_cons, Hid.
    naive_solver.
  - rewrite Ht', Hst. unfold w', removeTask.
    by destruct (findIndex (mgr w) id).
Qed.

(** A task that [executeTask] has brought to its end: its identifier
    moves from the running set to the completed set, the task leaves the
    queue, every other task stays, and the queue is saved as it then
    is. *)
Theorem completeTask_completes (tRemoved tSaved : Z) (r : nat) (w : World)
    (task : CrawlTask.t) :
  distinctIds (mgr w) → r ∈ queue (mgr w) → deref (mgr w) r = Some task →
  let id := CrawlTask.id task in
  let w' := completeTask tRemoved tSaved r w in
  id ∈ completed (mgr w') ∧ (id ∉ running (mgr w')) ∧
  ¬ queued (mgr w') id ∧
  (∀ id', id' ≠ id → queued (mgr w') id' ↔ queued (mgr w) id') ∧
  failed (mgr w') = failed (mgr w) ∧
  crawlQueue (store w') = Some (tasks (mgr w')).
Proof.
  intros Hd Hr Ht id w'.
  assert (Hq : queued (mgr w) id) by (by exists r, task).
  set (v := {| mgr := withSets (mgr w) (running (mgr w) ∖ {[id]})
                        ({[id]} ∪ completed (mgr w)) (failed (mgr w));
               store := store w |}).
  destruct (removeTask_distinct tRemoved id v) as (H1 & H2 & H3 & H4 & H5 & _ & H7);
    [done|done|].
  unfold w', completeTask. rewrite Ht. fold id v. simpl.
  rewrite H3, H4, H5. simpl.
  split; [set_solver|]. split; [set_solver|]. split; [done|].
  split; [|done]. intros id' Hne. by rewrite H2.
Qed.


Lemma distinctIds_mutate m r f :
  (∀ t, CrawlTask.id (f t) = CrawlTask.id t) →
  distinctIds m → distinctIds (mutate m r f).
Proof.
  intros Hf [Hwf Hnd]. split; [by apply wellFormed_mutate|].
  by rewrite queuedIds_mutate.
Qed.

(** A failure that brings the retry count to the limit of the
    configuration is final: the identifier moves from the running set to
    the failed set, the task leaves the queue and every other task stays,
    and the error goes to the head of the recent-errors log, which keeps
    its fifty newest entries. *)
Theorem failTask_exhausted_is_final (msg : string) (random : Q)
    (tNow tRemoved tWhen tSaved : Z) (r : nat) (w : World)
    (task : CrawlTask.t) :
  distinctIds (mgr w) → r ∈ queue (mgr w) → deref (mgr w) r = Some task →
  maxRetries (config (mgr w)) ≤ CrawlTask.retryCount task + 1 →
  let id := CrawlTask.id task in
  let w' := failTask msg random tNow tRemoved tWhen tSaved r w in
  id ∈ failed (mgr w') ∧ (id ∉ running (mgr w')) ∧
  ¬ queued (mgr w') id ∧
  (∀ id', id' ≠ id → queued (mgr w') id' ↔ queued (mgr w) id') ∧
  completed (mgr w') = completed (mgr w) ∧
  recentErrors (store w')
  = Some (take 50 ({| re_id := id; re_type := CrawlTask.type task;
                      re_url := CrawlTask.url task;
                      re_error := Some msg; re_when := tWhen |}
                   :: default [] (recentErrors (store w)))) ∧
  (∀ l, recentErrors (store w') = Some l → (length l ≤ 50)%nat) ∧
  crawlQueue (store w') = Some (tasks (mgr w')).
Proof.
  intros Hd Hr Ht Hle id w'.
  set (m1 := mutate (mgr w) r (recordFailure msg)).
  assert (Hd1 : distinctIds m1) by (by apply distinctIds_mutate).
  assert (Ht1 : deref m1 r = Some (recordFailure msg task)).
  { unfold m1. rewrite deref_mutate, decide_True, Ht; done. }
  assert (Hq1 : queued m1 id).
  { exists r, (recordFailure msg task). by split. }
  set (v := {| mgr := withSets m1 (running m1 ∖ {[id]}) (completed m1)
                        ({[id]} ∪ failed m1);
               store := store w |}).
  destruct (removeTask_distinct tRemoved id v)
    as (H1 & H2 & H3 & H4 & H5 & H6 & H7); [done|done|].
  assert (Hw' : w' = saveQueue tSaved
                       {| mgr := mgr (removeTask tRemoved id v).2;
                          store := recordRecentError (recordFailure msg task)
                                     tWhen
                                     (store (removeTask tRemoved id v).2) |}).
  { unfold w', failTask. fold m1. rewrite Ht1. simpl CrawlTask.retryCount.
    replace (_ >=? _) with true; [done|].
    symmetry. apply Z.geb_le. change (config m1) with (config (mgr w)). lia. }
  rewrite Hw'. simpl. rewrite H3, H4, H5, H6. simpl.
  split; [set_solver|]. split; [set_solver|]. split; [done|].
  split; [|split; [done|split; [done|split; [|done]]]].
  - intros id' Hne. rewrite H2 by done. simpl.
    rewrite queued_withSets. unfold m1. by apply queued_mutate.
  - intros l [= <-]. simpl. rewrite length_take. lia.
Qed.

Lemma calculateRetryDelay_between cfg n random :
  0 < retryDelayMs cfg → (0 <= random)%Q →
  (Qmin (exponentialDelay cfg n) 30000 <= calculateRetryDelay cfg n random)%Q ∧
  (calculateRetryDelay cfg n random <= 30000)%Q.
Proof.
  intros Hb Hr. unfold calculateRetryDelay. cbv zeta.
  split; [|apply Q.le_min_r].
  assert (He : (0 <= exponentialDelay cfg n)%Q ∧
               (JS.roundDouble (exponentialDelay cfg n)
                == exponentialDelay cfg n)%Q).
  { assert (H : (0 <= inject_Z (retryDelayMs cfg)
                      * JS.roundDouble (Qpower 2 (n - 1)))%Q).
    { apply Qmult_le_0_compat.
      - change 0%Q with (inject_Z 0). rewrite <- Zle_Qle. lia.
      - apply DoubleFacts.roundDouble_nonneg.
        pose proof (pow2_pos (n - 1)). lra. }
    unfold exponentialDelay. split.
    - by apply DoubleFacts.roundDouble_nonneg.
    - by apply DoubleFacts.roundDouble_idem. }
  destruct He as [He Hd]. set (e := exponentialDelay cfg n) in *.
  assert (Hd3 : (0 <= dotThree)%Q) by (by vm_compute).
  assert (Hj : (0 <= JS.roundDouble (JS.roundDouble (random * dotThree) * e))%Q).
  { apply DoubleFacts.roundDouble_nonneg. apply Qmult_le_0_compat; [|done].
    apply DoubleFacts.roundDouble_nonneg. by apply Qmult_le_0_compat. }
  apply Q.min_le_compat_r.
  apply Qle_trans with (JS.roundDouble e); [lra|].
  apply DoubleFacts.roundDouble_mono; lra.
Qed.

(** A failure below the limit of the configuration sends the task back to
    wait: it stays in the queue with its retry count raised by one and the
    error noted, its identifier leaves the running set, and it is scheduled
    for the clock reading plus a delay between the exponential value, cut
    at 30 seconds, and 30 seconds; [processQueue] does not start it at any
    earlier reading. *)
Theorem failTask_retry_waits (msg : string) (random : Q)
    (tNow tRemoved tWhen tSaved : Z) (r : nat) (w : World)
    (task : CrawlTask.t) :
  deref (mgr w) r = Some task →
  CrawlTask.retryCount task + 1 < maxRetries (config (mgr w)) →
  0 < retryDelayMs (config (mgr w)) → (0 <= random)%Q →
  let n := CrawlTask.retryCount task + 1 in
  let floor := Qmin (exponentialDelay (config (mgr w)) n) 30000 in
  let w' := failTask msg random tNow tRemoved tWhen tSaved r w in
  queue (mgr w') = queue (mgr w) ∧
  running (mgr w') = running (mgr w) ∖ {[CrawlTask.id task]} ∧
  failed (mgr w') = failed (mgr w) ∧
  ∃ task',
    deref (mgr w') r = Some task' ∧
    CrawlTask.id task' = CrawlTask.id task ∧
    CrawlTask.retryCount task' = n ∧
    CrawlTask.error task' = Some msg ∧
    (inject_Z tNow + floor <= CrawlTask.scheduledFor task')%Q ∧
    (CrawlTask.scheduledFor task' <= inject_Z tNow + 30000)%Q ∧
    ∀ now', (inject_Z now' < inject_Z tNow + floor)%Q →
            ready now' (mgr w') task' = false.
Proof.
  intros Ht Hlt Hb Hr n floor w'.
  set (m1 := mutate (mgr w) r (recordFailure msg)).
  assert (Ht1 : deref m1 r = Some (recordFailure msg task)).
  { unfold m1. rewrite deref_mutate, decide_True, Ht; done. }
  set (delay := calculateRetryDelay (config (mgr w)) n random).
  set (task' := setScheduledFor (inject_Z tNow + delay)%Q
                  (recordFailure msg task)).
  assert (Hw' : w' = saveQueue tSaved
            {| mgr := withSets (mutate m1 r (setScheduledFor
                                               (inject_Z tNow + delay)%Q))
                        (running (mgr w) ∖ {[CrawlTask.id task]})
                        (completed (mgr w)) (failed (mgr w));
               store := store w |}).
  { unfold w', failTask. fold m1. rewrite Ht1. simpl CrawlTask.retryCount.
    replace (_ >=? _) with false; [done|].
    symmetry. rewrite Z.geb_leb. apply Z.leb_gt.
    change (config m1) with (config (mgr w)). lia. }
  destruct (calculateRetryDelay_between (config (mgr w)) n random Hb Hr)
    as [Hlo Hhi]. fold floor delay in Hlo, Hhi.
  rewrite Hw'. simpl. split; [done|]. split; [done|]. split; [done|].
  exists task'. split; [|split; [done|split; [done|split; [done|]]]].
  - change (deref (mutate m1 r (setScheduledFor (inject_Z tNow + delay)%Q)) r
            = Some task').
    by rewrite deref_mutate, decide_True, Ht1.
  - simpl. split; [lra|]. split; [lra|].
    intros now' Hnow. unfold ready. apply andb_false_iff. left.
    apply not_true_iff_false. rewrite Qle_bool_iff. simpl. lra.
Qed.


(** *** Looking a task up *)

Lemma find_first {A} (p : A → bool) before t after :
  Forall (fun x => p x = false) before → p t = true →
  List.find p (before ++ t :: after) = Some t.
Proof.
  intros Hb Ht. induction Hb as [|x before Hx _ IH]; simpl.
  - by rewrite Ht.
  - by rewrite Hx.
Qed.

Lemma tasks_enqueue_found m c i existing :
  wellFormed m → findIndex m (CrawlTask.id c) = Some i →
  tasks m !! i = Some existing →
  tasks (enqueue m c)
  = if CrawlTask.priority c >? CrawlTask.priority existing
    then <[i := c]> (tasks m) else tasks m.
Proof.
  intros Hwf Hi He. unfold enqueue. rewrite Hi.
  rewrite tasks_lookup in He by done. rewrite He.
  destruct (_ >? _); [|done].
  assert (Hwf' : wellFormed (withQueue m (heap m ++ [c])
                               (<[i:=length (heap m)]> (queue m)))).
  { unfold wellFormed in *; simpl. apply Forall_insert.
    - eapply list.Forall_impl; [exact Hwf|]. intros x Hx. simpl in *.
      rewrite length_app; simpl; lia.
    - rewrite length_app; simpl; lia. }
  assert (Hlt : (i < length (queue m))%nat).
  { destruct (queue m !! i) eqn:E; [by eapply lookup_lt_Some | done]. }
  apply list_eq. intros k. rewrite tasks_lookup by done. simpl.
  destruct (decide (k = i)) as [->|Hne].
  - rewrite !list_lookup_insert_eq by (by rewrite ?length_tasks). simpl.
    unfold deref; simpl. by rewrite lookup_app_r, Nat.sub_diag by lia.
  - rewrite !list_lookup_insert_ne by done. rewrite tasks_lookup by done.
    destruct (queue m !! k) as [x|] eqn:Hx; simpl; [|done].
    unfold deref; simpl. rewrite lookup_app_l; [done|].
    unfold wellFormed in Hwf. rewrite list.Forall_forall in Hwf.
    apply Hwf. by eapply list_elem_of_lookup_2.
Qed.


Lemma find_absent {A} (p : A → bool) l :
  Forall (fun x => p x = false) l → List.find p l = None.
Proof.
  induction 1 as [|x l Hx _ IH]; simpl; [done|]. by rewrite Hx.
Qed.

Lemma tasks_loadFrom result q w :
  crawlQueue result = Some q → tasks (mgr (loadFrom result w)) = q.
Proof.
  intros Hq. unfold loadFrom. cbv zeta. rewrite Hq.
  assert (H : tasks (withQueue (mgr w) (heap (mgr w) ++ q)
                       (seq (length (heap (mgr w))) (length q))) = q).
  { rewrite tasks_withQueue. apply derefs_seq. }
  by destruct (queueStats result).
Qed.

Lemma tasks_loadFrom_none result w :
  crawlQueue result = None → tasks (mgr (loadFrom result w)) = tasks (mgr w).
Proof.
  intros Hq. unfold loadFrom. cbv zeta. rewrite Hq.
  by destruct (queueStats result).
Qed.

Lemma getTask_found tId tCreated tSaved task w :
  wellFormed (mgr w) →
  let id := (addTask tId tCreated tSaved task w).1 in
  let w' := (addTask tId tCreated tSaved task w).2 in
  ∃ t, getTask (mgr w') id = Some t ∧ CrawlTask.id t = id ∧
       TaskInput.priority task ≤ CrawlTask.priority t ∧
       (¬ queued (mgr w) id → t = newCrawlTask id tCreated task).
Proof.
  intros Hwf id w'. unfold getTask, w'. rewrite tasks_addTask.
  change (generateTaskId tId _ _) with id.
  set (c := newCrawlTask id tCreated task).
  set (p := fun t => bool_decide (CrawlTask.id t = id)).
  destruct (findIndex (mgr w) id) as [i|] eqn:Hi.
  - destruct (findIndex_first _ _ _ Hwf Hi) as (existing & He & Hid & Hb).
    assert (Hq : queued (mgr w) id).
    { apply queued_queuedIds. unfold queuedIds. apply list_elem_of_fmap.
      exists existing. split; [done|]. by eapply list_elem_of_lookup_2. }
    assert (Hb' : Forall (fun x => p x = false) (take i (tasks (mgr w)))).
    { eapply list.Forall_impl; [exact Hb|]. intros x Hx.
      by apply bool_decide_eq_false. }
    rewrite (tasks_enqueue_found _ c i existing) by done.
    destruct (CrawlTask.priority c >? CrawlTask.priority existing) eqn:E.
    + exists c. split; [|split; [done|split; [simpl; lia|done]]].
      rewrite insert_take_drop by (by eapply lookup_lt_Some).
      apply find_first; [done | by apply bool_decide_eq_true].
    + exists existing. rewrite Z.gtb_ltb in E. apply Z.ltb_ge in E.
      split; [|split; [done|split; [exact E|done]]].
      rewrite <- (take_drop_middle _ _ _ He).
      apply find_first; [done | by apply bool_decide_eq_true].
  - assert (Hq : ¬ queued (mgr w) id) by (by apply findIndex_None).
    rewrite enqueue_fresh by done.
    rewrite tasks_withQueue, derefs_push by done.
    exists c. split; [|split; [done|split; [simpl; lia|done]]].
    rewrite <- (app_nil_r [c]). apply find_first; [|by apply bool_decide_eq_true].
    apply list.Forall_forall. intros x Hx. apply bool_decide_eq_false.
    intros Hid. apply Hq, queued_queuedIds. unfold queuedIds.
    apply list_elem_of_fmap. by exists x.
Qed.

(** In the state that [addTask] leaves, [getTask] finds a task by the
    identifier that [addTask] returned, and the priority of that task is no
    lower than the one submitted.  This is so until something else runs.
    If the load that the constructor started lands afterwards, the queue
    array is replaced by what the storage held: the task is still found
    when the storage held no queue, and is gone when it held a queue
    without that identifier. *)
Theorem getTask_after_addTask (tId tCreated tSaved : Z) (task : TaskInput.t)
    (w : World) :
  wellFormed (mgr w) →
  let id := (addTask tId tCreated tSaved task w).1 in
  let w' := (addTask tId tCreated tSaved task w).2 in
  ∃ t, getTask (mgr w') id = Some t ∧ CrawlTask.id t = id ∧
       TaskInput.priority task ≤ CrawlTask.priority t ∧
       (¬ queued (mgr w) id → t = newCrawlTask id tCreated task) ∧
       ∀ result,
         match crawlQueue result with
         | None => getTask (mgr (loadFrom result w')) id = Some t
         | Some q =>
             getTask (mgr (loadFrom result w')) id
             = List.find (fun t => bool_decide (CrawlTask.id t = id)) q ∧
             (Forall (fun t => CrawlTask.id t ≠ id) q →
              getTask (mgr (loadFrom result w')) id = None)
         end.
Proof.
  intros Hwf id w'.
  destruct (getTask_found tId tCreated tSaved task w Hwf)
    as (t & Hget & Hid & Hp & Hnew).
  exists t. split; [done|]. split; [done|]. split; [done|]. split; [done|].
  intros result. destruct (crawlQueue result) as [q|] eqn:Hq.
  - unfold getTask. rewrite (tasks_loadFrom result q) by done.
    split; [done|]. intros Hall. apply find_absent.
    eapply list.Forall_impl; [exact Hall|]. intros x Hx.
    by apply bool_decide_eq_false.
  - unfold getTask. rewrite tasks_loadFrom_none by done. exact Hget.
Qed.


(** *** The theorems above at concrete inputs *)

Lemma fresh_to_oneInFlight : rtc step fresh oneInFlight.
Proof.
  eapply rtc_l; [apply (step_addTask _ 1000 1000 1000
                          (dashboardTask 5 3 1000))|].
  eapply rtc_l; [apply (step_begin _ 1000 0), startable_oneQueued|].
  apply rtc_refl.
Qed.

Lemma distinctIds_fresh : distinctIds (mgr fresh).
Proof. split; [apply wellFormed_fresh | constructor]. Qed.

Lemma distinctIds_oneInFlight : distinctIds (mgr oneInFlight).
Proof.
  split.
  - unfold wellFormed. vm_compute. repeat constructor.
  - vm_compute. apply NoDup_singleton.
Qed.

Lemma queued_ids_stay_distinct_witness :
  NoDup (queuedIds (mgr oneInFlight)).
Proof.
  exact (proj1 (queued_ids_stay_distinct fresh oneInFlight
                  distinctIds_fresh fresh_to_oneInFlight)).
Defined.

Lemma running_within_capacity_witness :
  Z.of_nat (size (running (mgr oneInFlight))) ≤ 4.
Proof.
  destruct (running_within_capacity fresh oneInFlight) as [_ H].
  - unfold withinCapacity. vm_compute. discriminate.
  - exact fresh_to_oneInFlight.
  - exact H.
Defined.

Lemma removeTask_first_match_witness :
  removeTask 2000 "absent" oneQueued = (false, oneQueued).
Proof.
  destruct (removeTask_first_match 2000 "absent" oneQueued) as [H _].
  - unfold wellFormed. vm_compute. repeat constructor.
  - apply H. intros (r & t & Hr & Hd & Hid). revert Hr Hd Hid. vm_compute.
    intros Hr. apply list_elem_of_singleton in Hr as ->.
    intros [= <-]. discriminate.
Defined.

Lemma completeTask_completes_witness :
  "dashboard_1000_ndclwo" ∈ completed (mgr (completeTask 2000 2000 0 oneInFlight)).
Proof.
  destruct (completeTask_completes 2000 2000 0 oneInFlight
              taskInFlight)
    as [H _].
  - exact distinctIds_oneInFlight.
  - vm_compute. apply list_elem_of_here.
  - vm_compute. reflexivity.
  - exact H.
Defined.

Lemma failTask_exhausted_is_final_witness :
  "dashboard_1000_ndclwo"
  ∈ failed (mgr (failTask "HTTP 500" 0 2000 2000 2000 2000 0
                   lastAttemptInFlight)).
Proof.
  destruct (failTask_exhausted_is_final "HTTP 500" 0 2000 2000 2000 2000 0
              lastAttemptInFlight taskInFlight)
    as [H _].
  - split; [unfold wellFormed; vm_compute; repeat constructor
           | vm_compute; apply NoDup_singleton].
  - vm_compute. apply list_elem_of_here.
  - vm_compute. reflexivity.
  - vm_compute. discriminate.
  - exact H.
Defined.

Lemma failTask_retry_waits_witness :
  queue (mgr (failTask "HTTP 500" 0 2000 2000 2000 2000 0 oneInFlight))
  = queue (mgr oneInFlight).
Proof.
  destruct (failTask_retry_waits "HTTP 500" 0 2000 2000 2000 2000 0
              oneInFlight
              taskInFlight)
    as [H _].
  - vm_compute. reflexivity.
  - vm_compute. reflexivity.
  - vm_compute. reflexivity.
  - vm_compute. discriminate.
  - exact H.
Defined.

Lemma getTask_after_addTask_witness :
  ∃ t, getTask (mgr oneQueued) "dashboard_1000_ndclwo" = Some t ∧
       5 ≤ CrawlTask.priority t.
Proof.
  destruct (getTask_after_addTask 1000 1000 1000 (dashboardTask 5 3 1000)
              fresh wellFormed_fresh) as (t & Hget & _ & Hp & _).
  exists t. split; [exact Hget | exact Hp].
Defined.


End QueueOps.

(** ** incrementalSync.ts: the cache, the plan and a restart *)

Module SyncOps.
Import Sync SyncFacts.

Lemma map_sublist_of {A B} (f : A → B) l k :
  l `sublist_of` k → map f l `sublist_of` map f k.
Proof. induction 1; simpl; by constructor. Qed.

Lemma last_drop_lt {A} (l : list A) n :
  (n < length l)%nat → last (drop n l) = last l.
Proof.
  intros Hn. rewrite !last_lookup, lookup_drop, length_drop. f_equal. lia.
Qed.

Lemma Forall_sublist_of {A} (P : A → Prop) l k :
  l `sublist_of` k → Forall P k → Forall P l.
Proof.
  induction 1 as [|x l k _ IH|x l k _ IH]; intros Hk; [done|..].
  - apply Forall_cons in Hk as [? ?]. constructor; auto.
  - apply Forall_cons in Hk as [? ?]. auto.
Qed.

(** *** The map operations *)

Lemma mapGet_None {V} k (m : list (string * V)) :
  mapGet k m = None ↔ k ∉ map fst m.
Proof.
  induction m as [|[k' v] m IH]; simpl.
  - split; [intros _; apply not_elem_of_nil | done].
  - rewrite not_elem_of_cons. case_bool_decide; [naive_solver|].
    rewrite IH. naive_solver.
Qed.

Lemma mapGet_Some {V} k (v : V) (m : list (string * V)) :
  mapGet k m = Some v → (k, v) ∈ m.
Proof.
  induction m as [|[k' v'] m IH]; simpl; [done|].
  case_bool_decide as Hk; [intros [= ->]; subst; left|right; auto].
Qed.

Lemma mapGet_elem_of {V} k (v : V) (m : list (string * V)) :
  distinctKeys m → (k, v) ∈ m → mapGet k m = Some v.
Proof.
  unfold distinctKeys. induction m as [|[k' v'] m IH]; simpl.
  - by intros _ ?%elem_of_nil.
  - intros [Hk Hnd]%NoDup_cons [[= <- <-]|Hin]%elem_of_cons.
    + by rewrite bool_decide_eq_true_2.
    + case_bool_decide as E; [|auto]. subst k'. exfalso. apply Hk.
      apply list_elem_of_fmap. by exists (k, v).
Qed.

Lemma mapSet_keys_present {V} k (v : V) m :
  k ∈ map fst m → map fst (mapSet k v m) = map fst m.
Proof.
  induction m as [|[k' v'] m IH]; simpl; [by intros ?%elem_of_nil|].
  case_bool_decide as E; simpl; [by subst|].
  intros [?|Hin]%elem_of_cons; [done|]. by rewrite IH.
Qed.

Lemma mapSet_keys_absent {V} k (v : V) m :
  k ∉ map fst m → mapSet k v m = m ++ [(k, v)].
Proof.
  induction m as [|[k' v'] m IH]; simpl; [done|].
  intros [Hne Hnin]%not_elem_of_cons.
  rewrite bool_decide_eq_false_2 by done. by rewrite IH.
Qed.

Lemma mapSet_distinctKeys {V} k (v : V) m :
  distinctKeys m → distinctKeys (mapSet k v m).
Proof.
  unfold distinctKeys. intros Hnd.
  destruct (decide (k ∈ map fst m)) as [Hin|Hnin].
  - by rewrite mapSet_keys_present.
  - rewrite mapSet_keys_absent, map_app by done. simpl.
    apply NoDup_app. split; [done|]. split; [|apply NoDup_singleton].
    intros x Hx ->%list_elem_of_singleton. done.
Qed.

Lemma mapSet_length {V} k (v : V) m :
  length (mapSet k v m)
  = if decide (k ∈ map fst m) then length m else S (length m).
Proof.
  destruct (decide _) as [Hin|Hnin].
  - rewrite <- (length_map fst (mapSet k v m)), mapSet_keys_present by done.
    by rewrite length_map.
  - rewrite mapSet_keys_absent, length_app by done. simpl. lia.
Qed.

Lemma mapSet_length_le {V} k (v : V) m :
  (length (mapSet k v m) ≤ S (length m))%nat.
Proof. rewrite mapSet_length. destruct (decide _); lia. Qed.

Lemma mapGet_mapSet_ne {V} k k' (v : V) m :
  k' ≠ k → mapGet k' (mapSet k v m) = mapGet k' m.
Proof.
  intros Hne. induction m as [|[k0 v0] m IH]; simpl.
  - by rewrite bool_decide_eq_false_2.
  - case_bool_decide as E; simpl.
    + subst k0. by rewrite !bool_decide_eq_false_2 by done.
    + by rewrite IH.
Qed.

(** *** Eviction *)

Lemma insertByLastChecked_perm x l : insertByLastChecked x l ≡ₚ x :: l.
Proof.
  induction l as [|y l IH]; simpl; [done|].
  destruct (_ <=? _); [done|]. rewrite IH. apply Permutation_swap.
Qed.

Lemma byLastChecked_perm (c : list (string * CacheEntry)) :
  foldr insertByLastChecked [] c ≡ₚ c.
Proof.
  induction c as [|x c IH]; simpl; [done|].
  by rewrite insertByLastChecked_perm, IH.
Qed.

Lemma insertByLastChecked_sorted x l :
  StronglySorted checkedBefore l →
  StronglySorted checkedBefore (insertByLastChecked x l).
Proof.
  induction 1 as [|y l Hs IH Hy]; simpl; [repeat constructor|].
  destruct (lastChecked x.2 <=? lastChecked y.2) eqn:E.
  - apply Z.leb_le in E. constructor; [by constructor|].
    constructor; [done|]. eapply list.Forall_impl; [exact Hy|].
    intros z Hz. unfold checkedBefore in *. lia.
  - apply Z.leb_gt in E. constructor; [done|].
    rewrite insertByLastChecked_perm. constructor; [|done].
    unfold checkedBefore. lia.
Qed.

Lemma byLastChecked_sorted (c : list (string * CacheEntry)) :
  StronglySorted checkedBefore (foldr insertByLastChecked [] c).
Proof.
  induction c as [|x c IH]; simpl; [constructor|].
  by apply insertByLastChecked_sorted.
Qed.

Lemma elem_of_mapDelete {V} k (c : list (string * V)) kv :
  kv ∈ mapDelete k c ↔ kv.1 ≠ k ∧ kv ∈ c.
Proof.
  unfold mapDelete.
  exact (list_elem_of_filter (fun kv : string * V => kv.1 ≠ k) c kv).
Qed.

Lemma mapDelete_sublist {V} k (c : list (string * V)) :
  mapDelete k c `sublist_of` c.
Proof. unfold mapDelete. apply sublist_filter. Qed.

Lemma fold_mapDelete_sublist {V} (R c : list (string * V)) :
  fold_left (fun c kv => mapDelete kv.1 c) R c `sublist_of` c.
Proof.
  revert c. induction R as [|kv R IH]; intros c; simpl; [done|].
  etransitivity; [apply IH | apply mapDelete_sublist].
Qed.

Lemma elem_of_fold_mapDelete {V} (R c : list (string * V)) kv :
  kv ∈ fold_left (fun c kv => mapDelete kv.1 c) R c
  ↔ kv ∈ c ∧ kv.1 ∉ map fst R.
Proof.
  revert c. induction R as [|x R IH]; intros c; simpl.
  - split; [intros H; split; [done|apply not_elem_of_nil] | by intros []].
  - rewrite IH, elem_of_mapDelete, not_elem_of_cons. naive_solver.
Qed.

Lemma distinctKeys_NoDup {V} (c : list (string * V)) :
  distinctKeys c → NoDup c.
Proof. apply NoDup_fmap_1. Qed.

Lemma fold_mapDelete_perm {V} (R rest c : list (string * V)) :
  distinctKeys c → c ≡ₚ R ++ rest →
  fold_left (fun c kv => mapDelete kv.1 c) R c ≡ₚ rest.
Proof.
  intros Hd Hp.
  assert (Hd' : distinctKeys (R ++ rest)).
  { unfold distinctKeys in *. by rewrite <- Hp. }
  apply NoDup_Permutation.
  - eapply sublist_NoDup; [apply distinctKeys_NoDup, Hd|].
    apply fold_mapDelete_sublist.
  - apply distinctKeys_NoDup in Hd'. by apply NoDup_app in Hd' as (_ & _ & ?).
  - intros kv. rewrite elem_of_fold_mapDelete, Hp, elem_of_app.
    unfold distinctKeys in Hd'. rewrite map_app in Hd'.
    apply NoDup_app in Hd' as (_ & Hdisj & _). split.
    + intros [[Hin|Hin] Hk]; [|done]. exfalso. apply Hk.
      apply list_elem_of_fmap. by exists kv.
    + intros Hin. split; [by right|]. intros Hk.
      apply (Hdisj _ Hk). apply list_elem_of_fmap. by exists kv.
Qed.

Section Instance.
Variable config : IncrementalSyncConfig.

Lemma cleanupCache_run w :
  cleanupCache config w
  = (Returned tt,
     let entries := foldr insertByLastChecked [] (cache w) in
     let toRemove :=
       sliceTo (Z.of_nat (length entries) - maxCacheEntries config + 1000)
               entries in
     let c := fold_left (fun c kv => mapDelete kv.1 c) toRemove (cache w) in
     {| time := time w; tick := tick w; cache := c;
        changeSignals := changeSignals w;
        stored := {| incrementalSyncCache := Some (map snd c);
                     storedSignals := storedSignals (stored w) |} |}).
Proof. done. Qed.

Lemma cleanupCache_result (w : World) :
  distinctKeys (cache w) →
  maxCacheEntries config < Z.of_nat (length (cache w)) →
  let entries := foldr insertByLastChecked [] (cache w) in
  let n := Z.to_nat (Z.of_nat (length entries) - maxCacheEntries config
                     + 1000) in
  ∃ w', cleanupCache config w = (Returned tt, w') ∧
        cache w' `sublist_of` cache w ∧
        cache w' ≡ₚ drop n entries ∧
        incrementalSyncCache (stored w') = Some (map snd (cache w')) ∧
        storedSignals (stored w') = storedSignals (stored w) ∧
        changeSignals w' = changeSignals w ∧
        time w' = time w ∧ tick w' = tick w.
Proof.
  intros Hd Hlen entries n. rewrite cleanupCache_run. eexists.
  split; [done|]. simpl. fold entries.
  assert (Hp : entries ≡ₚ cache w) by apply byLastChecked_perm.
  assert (HL : length entries = length (cache w)) by by rewrite Hp.
  unfold sliceTo.
  replace (_ <? 0) with false by (symmetry; apply Z.ltb_ge; lia).
  fold n. split; [apply fold_mapDelete_sublist|]. split; [|done].
  apply fold_mapDelete_perm; [done|]. by rewrite take_drop.
Qed.

(** [cleanupCache], called as [updateCacheEntry] calls it, with more
    entries than the ceiling allows: it leaves [maxCacheEntries - 1000]
    entries, none when the ceiling is below 1000, in the order they had;
    every entry it evicts was last checked no later than every entry it
    keeps; and it saves what it keeps. *)
Theorem cleanupCache_evicts_oldest (w : World) :
  distinctKeys (cache w) →
  maxCacheEntries config < Z.of_nat (length (cache w)) →
  ∃ w', cleanupCache config w = (Returned tt, w') ∧
        cache w' `sublist_of` cache w ∧
        length (cache w') = Z.to_nat (maxCacheEntries config - 1000) ∧
        (∀ kept gone, kept ∈ cache w' → gone ∈ cache w → gone ∉ cache w' →
                      checkedBefore gone kept) ∧
        incrementalSyncCache (stored w') = Some (map snd (cache w')) ∧
        storedSignals (stored w') = storedSignals (stored w) ∧
        changeSignals w' = changeSignals w.
Proof.
  intros Hd Hlen.
  destruct (cleanupCache_result w Hd Hlen)
    as (w' & Hrun & Hsub & Hperm & Hst & Hss & Hsig & _).
  exists w'. split; [done|]. split; [done|].
  set (entries := foldr insertByLastChecked [] (cache w)) in *.
  set (n := Z.to_nat (Z.of_nat (length entries) - maxCacheEntries config
                      + 1000)) in *.
  assert (Hp : entries ≡ₚ cache w) by apply byLastChecked_perm.
  assert (Hs : StronglySorted checkedBefore entries)
    by apply byLastChecked_sorted.
  assert (HL : length entries = length (cache w)) by by rewrite Hp.
  split; [|split; [|done]].
  - rewrite Hperm, length_drop. unfold n. lia.
  - intros kept gone Hk Hg Hng.
    rewrite Hperm in Hk, Hng. rewrite <- Hp in Hg.
    rewrite <- (take_drop n entries) in Hg, Hs.
    apply elem_of_app in Hg as [Hg|Hg]; [|done].
    apply StronglySorted_app in Hs as (Hs & _ & _). by apply Hs.
Qed.

(** *** Writing an entry *)

Lemma updateCacheEntry_room url e w :
  Z.of_nat (length (mapSet url e (cache w))) ≤ maxCacheEntries config →
  updateCacheEntry config url e w
  = (Returned tt,
     {| time := time w; tick := tick w; cache := mapSet url e (cache w);
        changeSignals := changeSignals w;
        stored := {| incrementalSyncCache :=
                       Some (map snd (mapSet url e (cache w)));
                     storedSignals := storedSignals (stored w) |} |}).
Proof.
  intros Hsize. unfold updateCacheEntry, saveCache, putCache, getCache,
    getStored, putStored, mbind, M_bind, mret, M_ret. simpl.
  replace (_ >? _) with false
    by (symmetry; rewrite Z.gtb_ltb; apply Z.ltb_ge; lia).
  done.
Qed.

Lemma updateCacheEntry_full url e w :
  maxCacheEntries config < Z.of_nat (length (mapSet url e (cache w))) →
  updateCacheEntry config url e w
  = (Returned tt,
     (cleanupCache config
        {| time := time w; tick := tick w; cache := mapSet url e (cache w);
           changeSignals := changeSignals w; stored := stored w |}).2).
Proof.
  intros Hsize. unfold updateCacheEntry, saveCache, putCache, getCache,
    getStored, putStored, mbind, M_bind, mret, M_ret. simpl.
  replace (_ >? _) with true
    by (symmetry; rewrite Z.gtb_ltb; apply Z.ltb_lt; lia).
  rewrite cleanupCache_run. done.
Qed.

Lemma updateCacheEntry_within_ceiling_gen url e w :
  distinctKeys (cache w) →
  Z.of_nat (length (cache w)) ≤ maxCacheEntries config →
  ∃ w', updateCacheEntry config url e w = (Returned tt, w') ∧
        distinctKeys (cache w') ∧
        Z.of_nat (length (cache w')) ≤ maxCacheEntries config ∧
        cache w' `sublist_of` mapSet url e (cache w) ∧
        incrementalSyncCache (stored w') = Some (map snd (cache w')) ∧
        storedSignals (stored w') = storedSignals (stored w) ∧
        changeSignals w' = changeSignals w.
Proof.
  intros Hd Hlen.
  assert (Hd1 : distinctKeys (mapSet url e (cache w)))
    by (by apply mapSet_distinctKeys).
  destruct (Z_le_gt_dec (Z.of_nat (length (mapSet url e (cache w))))
                        (maxCacheEntries config)) as [Hroom|Hfull].
  - rewrite updateCacheEntry_room by done. eexists. split; [done|]. done.
  - rewrite updateCacheEntry_full by lia.
    set (v := {| time := time w; tick := tick w;
                 cache := mapSet url e (cache w);
                 changeSignals := changeSignals w; stored := stored w |}).
    destruct (cleanupCache_result v Hd1 ltac:(simpl; lia))
      as (w' & Hrun & Hsub & Hperm & Hst & Hss & Hsig & Htime & Htick).
    rewrite Hrun. simpl. exists w'. split; [done|].
    assert (Hl : length (cache w')
                 = Z.to_nat (maxCacheEntries config - 1000)).
    { rewrite Hperm, length_drop.
      rewrite (Permutation_length (byLastChecked_perm (cache v))).
      pose proof (mapSet_length_le url e (cache w)). simpl. lia. }
    split; [|split; [lia|done]].
    unfold distinctKeys in *. eapply sublist_NoDup; [exact Hd1|].
    by apply map_sublist_of.
Qed.

(** [updateCacheEntry] keeps the cache within its ceiling and its keys
    distinct, and leaves in storage the entries the cache then holds, in
    their order.  While there is room the entry is set in place, or at the
    end when its URL is new; when the new entry is one too many, the
    least recently checked entries are evicted. *)
Theorem updateCacheEntry_within_ceiling (url : string) (e : CacheEntry)
    (w : World) :
  distinctKeys (cache w) →
  Z.of_nat (length (cache w)) ≤ maxCacheEntries config →
  ∃ w', updateCacheEntry config url e w = (Returned tt, w') ∧
        distinctKeys (cache w') ∧
        Z.of_nat (length (cache w')) ≤ maxCacheEntries config ∧
        cache w' `sublist_of` mapSet url e (cache w) ∧
        (Z.of_nat (length (mapSet url e (cache w))) ≤ maxCacheEntries config →
         cache w' = mapSet url e (cache w)) ∧
        (maxCacheEntries config < Z.of_nat (length (mapSet url e (cache w))) →
         length (cache w') = Z.to_nat (maxCacheEntries config - 1000)) ∧
        incrementalSyncCache (stored w') = Some (map snd (cache w')) ∧
        storedSignals (stored w') = storedSignals (stored w) ∧
        changeSignals w' = changeSignals w ∧
        time w' = time w ∧ tick w' = tick w.
Proof.
  intros Hd Hlen.
  assert (Hd1 : distinctKeys (mapSet url e (cache w)))
    by (by apply mapSet_distinctKeys).
  destruct (Z_le_gt_dec (Z.of_nat (length (mapSet url e (cache w))))
                        (maxCacheEntries config)) as [Hroom|Hfull].
  - rewrite updateCacheEntry_room by done. eexists. split; [done|]. simpl.
    split; [done|]. split; [done|]. split; [done|]. split; [done|].
    split; [lia|done].
  - rewrite updateCacheEntry_full by lia.
    set (v := {| time := time w; tick := tick w;
                 cache := mapSet url e (cache w);
                 changeSignals := changeSignals w; stored := stored w |}).
    destruct (cleanupCache_result v Hd1 ltac:(simpl; lia))
      as (w' & Hrun & Hsub & Hperm & Hst & Hss & Hsig & Htime & Htick).
    rewrite Hrun. simpl. exists w'. split; [done|].
    assert (Hl : length (cache w')
                 = Z.to_nat (maxCacheEntries config - 1000)).
    { rewrite Hperm, length_drop.
      rewrite (Permutation_length (byLastChecked_perm (cache v))).
      pose proof (mapSet_length_le url e (cache w)). simpl. lia. }
    split; [|split; [lia|split; [done|split; [lia|done]]]].
    unfold distinctKeys in *. eapply sublist_NoDup; [exact Hd1|].
    by apply map_sublist_of.
Qed.


(** *** Change signals *)

Lemma recordChangeSignal_result url oldEntry newEntry w :
  ∃ signals signal,
    recordChangeSignal url oldEntry newEntry w
    = (Returned tt,
       {| time := time w; tick := S (tick w); cache := cache w;
          changeSignals := mapSet url signals (changeSignals w);
          stored :=
            {| incrementalSyncCache := incrementalSyncCache (stored w);
               storedSignals :=
                 Some (mapSet url signals (changeSignals w)) |} |}) ∧
    (length signals ≤ 100)%nat ∧ last signals = Some signal ∧
    changeType signal = (if oldEntry is Some _ then modified else added) ∧
    previousHash signal = contentHash <$> oldEntry ∧
    currentHash signal = Some (contentHash newEntry).
Proof.
  unfold recordChangeSignal, saveChangeSignals, putSignals, getSignals,
    getStored, putStored, now, mbind, M_bind, mret, M_ret. simpl.
  set (signal := {| sig_url := url |}).
  set (l := default [] (mapGet url (changeSignals w)) ++ [signal]).
  assert (Hl : last l = Some signal) by apply last_snoc.
  assert (Hlen : (1 ≤ length l)%nat).
  { unfold l. rewrite length_app. simpl. lia. }
  eexists _, signal. split; [reflexivity|].
  destruct (100 <? length l)%nat eqn:E.
  - apply Nat.ltb_lt in E. rewrite length_drop, last_drop_lt by lia.
    split; [lia|done].
  - apply Nat.ltb_ge in E. done.
Qed.

(** [recordChangeSignal] appends the signal to those of its URL and keeps
    the hundred newest of them, the new one last; the signals of other
    URLs stay, and storage receives the signals as they then are. *)
Theorem recordChangeSignal_keeps_newest (url : string)
    (oldEntry : option CacheEntry) (newEntry : CacheEntry) (w : World) :
  ∃ w' signal,
    recordChangeSignal url oldEntry newEntry w = (Returned tt, w') ∧
    let before := default [] (mapGet url (changeSignals w)) in
    let after := default [] (mapGet url (changeSignals w')) in
    after = drop (length (before ++ [signal]) - 100) (before ++ [signal]) ∧
    (length after ≤ 100)%nat ∧ last after = Some signal ∧
    sig_url signal = url ∧ detectedAt signal = time w (tick w) ∧
    changeType signal = (if oldEntry is Some _ then modified else added) ∧
    previousHash signal = contentHash <$> oldEntry ∧
    currentHash signal = Some (contentHash newEntry) ∧
    (∀ url', url' ≠ url →
             mapGet url' (changeSignals w') = mapGet url' (changeSignals w)) ∧
    storedSignals (stored w') = Some (changeSignals w') ∧
    incrementalSyncCache (stored w') = incrementalSyncCache (stored w) ∧
    cache w' = cache w ∧ tick w' = S (tick w) ∧ time w' = time w.
Proof.
  unfold recordChangeSignal, saveChangeSignals, putSignals, getSignals,
    getStored, putStored, now, mbind, M_bind, mret, M_ret. simpl.
  eexists _, {| sig_url := url;
                changeType := if oldEntry is Some _ then modified else added;
                detectedAt := time w (tick w);
                previousHash := contentHash <$> oldEntry;
                currentHash := Some (contentHash newEntry);
                sig_metadata :=
                  {| oldETag := oldEntry ≫= etag; newETag := etag newEntry;
                     oldLastModified := oldEntry ≫= lastModified;
                     newLastModified := lastModified newEntry |} |}.
  split; [reflexivity|]. simpl.
  rewrite mapGet_mapSet_eq. simpl.
  set (signal := {| sig_url := url |}).
  set (l := default [] (mapGet url (changeSignals w)) ++ [signal]).
  assert (Hl : last l = Some signal) by apply last_snoc.
  assert (Hlen : (1 ≤ length l)%nat).
  { unfold l. rewrite length_app. simpl. lia. }
  split; [|split; [|split; [|split; [done|split; [done|split; [done|]]]]]].
  - destruct (100 <? length l)%nat eqn:E; [done|].
    apply Nat.ltb_ge in E. replace (length l - 100)%nat with 0%nat by lia.
    done.
  - destruct (100 <? length l)%nat eqn:E.
    + rewrite length_drop. apply Nat.ltb_lt in E. lia.
    + by apply Nat.ltb_ge in E.
  - destruct (100 <? length l)%nat eqn:E; [|done].
    rewrite last_drop_lt; [done|]. lia.
  - split; [done|]. split; [done|]. split; [|done].
    intros url' Hne. by apply mapGet_mapSet_ne.
Qed.

End Instance.

(** *** Calls of [syncUrl] *)

Section Calls.
Variable sha256Hex : list ascii → option string.
Variable config : IncrementalSyncConfig.

Ltac exec := unfold mbind, M_bind, mret, M_ret, now, getCacheEntry,
               getCache, tryCatch, throw; simpl.

Ltac enter He Hnet :=
  unfold goesToNetwork in Hnet; rewrite He in Hnet;
  unfold syncUrl, shouldRefreshUrl, conditionalFetch, createCacheEntry;
  exec; rewrite He.

(** A call that finds a fresh entry answers from the cache: the network
    is not asked, the result says unchanged and served from cache with
    the entry's fingerprint and validators, and the entry gets one more
    hit and the time of this check; no change signal is recorded. *)
Theorem syncUrl_answers_from_cache (fetch fetch' : Request → FetchOutcome)
    (url : string) (force : bool) (w : World) (e : CacheEntry) :
  mapGet url (cache w) = Some e →
  goesToNetwork config url force w = false →
  Z.of_nat (length (cache w)) ≤ maxCacheEntries config →
  ∃ r w',
    syncUrl sha256Hex config fetch url force w = (Returned r, w') ∧
    syncUrl sha256Hex config fetch' url force w = (Returned r, w') ∧
    changed r = false ∧ cached r = true ∧
    res_contentHash r = contentHash e ∧ res_etag r = etag e ∧
    res_lastModified r = lastModified e ∧
    download (timing r) = 0 ∧ processing (timing r) = 0 ∧
    mapGet url (cache w') = Some (touch e (time w (4 + tick w))) ∧
    (∀ url', url' ≠ url → mapGet url' (cache w') = mapGet url' (cache w)) ∧
    changeSignals w' = changeSignals w.
Proof.
  intros He Hnet Hlen. enter He Hnet.
  destruct force; [done|]. simpl in Hnet |- *. exec.
  apply orb_false_iff in Hnet as [-> ->]. exec.
  rewrite !(updateCacheEntry_present config _ _ e) by done. simpl.
  eexists _, _. split; [reflexivity|]. split; [reflexivity|]. simpl.
  rewrite mapGet_mapSet_eq.
  repeat (split; [done|]). split; [|done].
  intros url' Hne. by apply mapGet_mapSet_ne.
Qed.


(** The part of [syncUrl] after a full download, from the hashing on. *)
Lemma syncUrl_tail url old fr h (w : World) startTime cacheCheckTime
    downloadTime :
  enableContentHashing config = true →
  sha256Hex (Normalize.normalizeContent (content fr)) = Some h →
  Z.of_nat (length (cache w)) < maxCacheEntries config →
  let e' := {| url := url; etag := fr_etag fr;
               lastModified := fr_lastModified fr; contentHash := h;
               lastChecked := time w (S (tick w));
               lastUpdated := time w (S (tick w)); hitCount := 0;
               metadata :=
                 Some {| contentLength := Z.of_nat (length (content fr));
                         responseETag := fr_etag fr;
                         responseLastModified := fr_lastModified fr |} |} in
  ∃ r w',
    (processingStart ← now;
     contentHash_ ← generateContentHash sha256Hex config (content fr);
     newCacheEntry ← createCacheEntry url fr contentHash_;
     processingEnd ← now;
     let processingTime := processingEnd - processingStart in
     let hasChanged := detectChanges old newCacheEntry in
     updateCacheEntry config url newCacheEntry;;
     (if hasChanged
      then recordChangeSignal url old newCacheEntry
      else mret tt);;
     finish ← now;
     mret {| res_url := url; changed := hasChanged; cached := false;
             res_etag := etag newCacheEntry;
             res_lastModified := lastModified newCacheEntry;
             res_contentHash := contentHash_;
             timing := {| cacheCheck := cacheCheckTime;
                          download := downloadTime;
                          processing := processingTime;
                          total := finish - startTime |} |}) w
    = (Returned r, w') ∧
    cached r = false ∧ res_contentHash r = h ∧
    changed r = detectChanges old e' ∧
    cache w' = mapSet url e' (cache w) ∧
    (changed r = false → changeSignals w' = changeSignals w) ∧
    (changed r = true →
     ∃ signal,
       last (default [] (mapGet url (changeSignals w'))) = Some signal ∧
       (length (default [] (mapGet url (changeSignals w'))) ≤ 100)%nat ∧
       changeType signal = (if old is Some _ then modified else added) ∧
       previousHash signal = contentHash <$> old ∧
       currentHash signal = Some h).
Proof.
  intros Hon Hh Hroom e'.
  unfold createCacheEntry. exec.
  rewrite (generateContentHash_hashed sha256Hex config _ h) by done. simpl.
  fold e'.
  rewrite updateCacheEntry_room
    by (simpl; pose proof (mapSet_length_le url e' (cache w)); lia).
  simpl. destruct (detectChanges old e') eqn:Hchg.
  - match goal with
    | |- context [recordChangeSignal url old e' ?v] =>
        destruct (recordChangeSignal_result url old e' v)
          as (signals & signal & -> & Hl & Hlast & Hty & Hprev & Hcur)
    end.
    simpl in *. eexists _, _. split; [reflexivity|]. simpl.
    rewrite mapGet_mapSet_eq. simpl.
    repeat (split; [done|]). intros _. by exists signal.
  - eexists _, _. split; [reflexivity|]. simpl.
    repeat (split; [done|]). done.
Qed.


Lemma bind_run {A B} (c : M A) (k : A → M B) w a w' :
  c w = (Returned a, w') → (c ≫= k) w = k a w'.
Proof. intros H. unfold mbind, M_bind. by rewrite H. Qed.

Lemma now_run w : now w = (Returned (time w (tick w)), advance 1 w).
Proof. done. Qed.

Lemma getCacheEntry_run url w :
  getCacheEntry url w = (Returned (mapGet url (cache w)), w).
Proof. done. Qed.

Lemma tryCatch_returned {A} (body : M A) handler w a w' :
  body w = (Returned a, w') → tryCatch body handler w = (Returned a, w').
Proof. intros H. unfold tryCatch. by rewrite H. Qed.

Lemma shouldRefreshUrl_run url force w :
  ∃ k, (k = 2%nat ∨ k = 3%nat) ∧
       shouldRefreshUrl config url (mapGet url (cache w)) force (advance 2 w)
       = (Returned (goesToNetwork config url force w), advance k w).
Proof.
  unfold shouldRefreshUrl, goesToNetwork.
  destruct (mapGet url (cache w)) as [e|];
    [|exists 2%nat; split; [by left | by destruct force]].
  destruct force; [exists 2%nat; split; [by left | reflexivity]|].
  exists 3%nat. split; [by right|].
  rewrite (bind_run _ _ _ _ _ (now_run _)). simpl.
  destruct (_ >? maxCacheAge config); [reflexivity|].
  destruct (_ >? forceRefreshInterval config); reflexivity.
Qed.

Lemma conditionalFetch_ok fetch url old resp text w :
  fetch (conditionalHeaders config url old) = Responded resp →
  status resp ≠ 304 → ok resp = true → body resp = Some text →
  conditionalFetch config fetch url old w
  = (Returned {| content := text; fr_etag := orUndefined (hdrETag resp);
                 fr_lastModified := orUndefined (hdrLastModified resp);
                 notModified := false |}, w).
Proof.
  intros Hfetch H304 Hok Hbody. apply Z.eqb_neq in H304.
  unfold conditionalFetch. rewrite Hfetch, H304, Hok. simpl.
  by rewrite Hbody.
Qed.

(** A call that downloads the content in full, with hashing on and room
    in the cache.  The result is not served from cache and carries the
    digest of the normalised content; the entry of the URL is replaced by
    one with that fingerprint, the validators of the response, no hits,
    and the same time as last check and last update.  The content counts
    as changed when there was no entry, when the fingerprints differ, or
    when two validators are present and differ; then one signal is put
    last among the at most hundred of the URL, [added] without an old
    entry and [modified] with one, with both fingerprints; otherwise the
    signals stay as they are. *)
Theorem syncUrl_full_download (fetch : Request → FetchOutcome)
    (url : string) (force : bool) (w : World) (resp : Response)
    (text : list ascii) (h : string) :
  enableContentHashing config = true →
  goesToNetwork config url force w = true →
  fetch (conditionalHeaders config url (mapGet url (cache w)))
  = Responded resp →
  status resp ≠ 304 → ok resp = true → body resp = Some text →
  sha256Hex (Normalize.normalizeContent text) = Some h →
  Z.of_nat (length (cache w)) < maxCacheEntries config →
  let old := mapGet url (cache w) in
  ∃ r w' e',
    syncUrl sha256Hex config fetch url force w = (Returned r, w') ∧
    cached r = false ∧ res_contentHash r = h ∧
    mapGet url (cache w') = Some e' ∧
    contentHash e' = h ∧ hitCount e' = 0 ∧
    lastChecked e' = lastUpdated e' ∧
    etag e' = orUndefined (hdrETag resp) ∧
    lastModified e' = orUndefined (hdrLastModified resp) ∧
    changed r = detectChanges old e' ∧
    (old = None → changed r = true) ∧
    (∀ e, old = Some e → contentHash e ≠ h → changed r = true) ∧
    (changed r = false → changeSignals w' = changeSignals w) ∧
    (changed r = true →
     ∃ signal,
       last (default [] (mapGet url (changeSignals w'))) = Some signal ∧
       (length (default [] (mapGet url (changeSignals w'))) ≤ 100)%nat ∧
       changeType signal = (if old is Some _ then modified else added) ∧
       previousHash signal = contentHash <$> old ∧
       currentHash signal = Some h).
Proof.
  intros Hon Hnet Hfetch H304 Hok Hbody Hh Hroom old.
  set (fr := {| content := text; fr_etag := orUndefined (hdrETag resp);
                fr_lastModified := orUndefined (hdrLastModified resp);
                notModified := false |}).
  destruct (shouldRefreshUrl_run url force w) as (k & Hk & Hrefresh).
  fold old in Hrefresh. rewrite Hnet in Hrefresh.
  assert (Hroom' : Z.of_nat (length (cache (advance (3 + k) w)))
                   < maxCacheEntries config) by done.
  destruct (syncUrl_tail url old fr h (advance (3 + k) w)
              (time w (tick w))
              (time w (k + tick w) - time w (1 + tick w))
              (time w (2 + k + tick w) - time w (1 + k + tick w))
              Hon Hh Hroom')
    as (r & w' & Htail & Hc & Hhash & Hchg & Hcache & Hsame & Hsig).
  eexists r, w', _. split.
  { unfold syncUrl.
    rewrite (bind_run _ _ _ _ _ (now_run _)).
    rewrite (bind_run _ _ _ _ _ (now_run _)).
    rewrite (bind_run _ _ _ _ _ (getCacheEntry_run _ _)).
    change (mapGet url (cache (advance 1 (advance 1 w)))) with old.
    change (advance 1 (advance 1 w)) with (advance 2 w).
    rewrite (bind_run _ _ _ _ _ Hrefresh).
    rewrite (bind_run _ _ _ _ _ (now_run _)).
    apply tryCatch_returned. cbv beta iota.
    rewrite (bind_run _ _ _ _ _ (now_run _)).
    rewrite (bind_run _ _ _ _ _
               (conditionalFetch_ok fetch url old resp text _
                  Hfetch H304 Hok Hbody)).
    rewrite (bind_run _ _ _ _ _ (now_run _)).
    cbv beta iota. fold fr.
    destruct Hk as [-> | ->]; exact Htail. }
  rewrite Hcache. simpl. rewrite mapGet_mapSet_eq.
  repeat (split; [done|]).
  split; [|split; [|done]].
  - intros Hold. rewrite Hchg. by rewrite Hold.
  - intros e Hold Hne. rewrite Hchg, Hold. simpl.
    apply String.eqb_neq in Hne. by rewrite Hne.
Qed.

End Calls.

(** *** The recrawl plan *)

Section Plan.
Variable config : IncrementalSyncConfig.

Lemma insertByPriority_sorted_list (l : list PlanItem) :
  StronglySorted (fun a b => plan_priority b ≤ plan_priority a) l →
  foldr insertByPriority [] l = l.
Proof.
  induction 1 as [|x l Hs IH Hx]; simpl; [done|].
  rewrite IH. destruct l as [|y l]; simpl; [done|].
  apply Forall_cons in Hx as [Hy _].
  replace (_ <=? 0) with true; [done|]. symmetry. apply Z.leb_le. lia.
Qed.

Lemma expiredItems_spec now_ c item :
  item ∈ expiredItems config now_ c ↔
  ∃ url e, (url, e) ∈ c ∧ maxCacheAge config < now_ - lastChecked e ∧
           item = {| plan_url := url; plan_priority := 5;
                     plan_reason :=
                       "Cache expired ("
                       ++ JS.show (roundDiv (now_ - lastChecked e)
                                     (60 * 60 * 1000))
                       ++ " hours old)" |}.
Proof.
  unfold expiredItems. rewrite list_elem_of_omap. split.
  - intros ([url e] & Hin & Hitem). simpl in Hitem.
    destruct (_ >? _) eqn:E; [|done]. injection Hitem as <-.
    exists url, e. split; [done|]. split; [|done].
    rewrite Z.gtb_ltb in E. by apply Z.ltb_lt in E.
  - intros (url & e & Hin & Hage & ->). exists (url, e). split; [done|].
    simpl. replace (_ >? _) with true; [done|].
    symmetry. rewrite Z.gtb_ltb. by apply Z.ltb_lt.
Qed.

(** [planTargetedRecrawl] reads the clock and nothing else moves. *)
Lemma planTargetedRecrawl_world (w : World) :
  ∃ k, (planTargetedRecrawl config w).2 = advance k w.
Proof.
  unfold planTargetedRecrawl, getChangedUrls.
  rewrite (bind_run _ _ _ _ _ (now_run _)).
  destruct (time w (tick w) - 60 * 60 * 1000 =? 0);
    unfold mbind, M_bind, mret, M_ret, now, getSignals, getCache; simpl.
  - by exists 3%nat.
  - by exists 2%nat.
Qed.

(** [planTargetedRecrawl] lists first, at priority 10, the URLs with a
    change signal of the last hour, in the order of the signal map, and
    then, at priority 5, the cache entries whose last check is older than
    [maxCacheAge], in the order of the cache: the final sort changes
    nothing.  The cache and the signals are only read.  When the first
    clock reading is exactly one hour, the bound of the last hour is zero,
    which is falsy, and the signals of the last 24 hours count instead. *)
Theorem planTargetedRecrawl_plan (w : World) :
  let t0 := time w (tick w) in
  let k := if t0 - 60 * 60 * 1000 =? 0 then 3%nat else 2%nat in
  let since := if t0 - 60 * 60 * 1000 =? 0
               then time w (1 + tick w) - 24 * 60 * 60 * 1000
               else t0 - 60 * 60 * 1000 in
  let now_ := time w (Nat.pred k + tick w) in
  let plan := map recentItem (changedSince since (changeSignals w))
              ++ expiredItems config now_ (cache w) in
  planTargetedRecrawl config w = (Returned plan, advance k w) ∧
  StronglySorted (fun a b => plan_priority b ≤ plan_priority a) plan ∧
  (∀ url, (∃ item, item ∈ plan ∧ plan_url item = url ∧
                   plan_priority item = 5) ↔
          ∃ e, (url, e) ∈ cache w ∧
               maxCacheAge config < now_ - lastChecked e) ∧
  (∀ url, (∃ item, item ∈ plan ∧ plan_url item = url ∧
                   plan_priority item = 10) ↔
          ∃ signals signal, (url, signals) ∈ changeSignals w ∧
                            signal ∈ signals ∧ since < detectedAt signal).
Proof.
  intros t0 k since now_ plan.
  assert (Hsorted : StronglySorted
                      (fun a b => plan_priority b ≤ plan_priority a) plan).
  { unfold plan. apply StronglySorted_app_2.
    - intros a b Ha Hb.
      apply list_elem_of_fmap in Ha as (? & -> & _).
      apply expiredItems_spec in Hb as (? & ? & _ & _ & ->). simpl. lia.
    - induction (changedSince since (changeSignals w)) as [|u l IH];
        simpl; constructor; [done|].
      apply list.Forall_forall. intros x Hx.
      apply list_elem_of_fmap in Hx as (? & -> & _). simpl. lia.
    - induction (cache w) as [|[u e] c IH]; simpl; [constructor|].
      destruct (_ >? _); [|done]. constructor; [done|].
      apply list.Forall_forall. intros x Hx.
      apply expiredItems_spec in Hx as (? & ? & _ & _ & ->). simpl. lia. }
  split; [|split; [done|split]].
  - unfold planTargetedRecrawl, getChangedUrls.
    rewrite (bind_run _ _ _ _ _ (now_run _)).
    fold t0. subst plan now_ since k.
    destruct (t0 - 60 * 60 * 1000 =? 0);
      unfold mbind, M_bind, mret, M_ret, now, getSignals, getCache; simpl;
      simpl in Hsorted; by rewrite insertByPriority_sorted_list.
  - intros url. unfold plan. split.
    + intros (item & Hin & Hu & Hp).
      apply elem_of_app in Hin as [Hin|Hin].
      * apply list_elem_of_fmap in Hin as (? & -> & _). done.
      * apply expiredItems_spec in Hin as (u & e & Hin & Hage & ->).
        simpl in Hu. subst u. by exists e.
    + intros (e & Hin & Hage).
      exists {| plan_url := url; plan_priority := 5;
                plan_reason :=
                  "Cache expired ("
                  ++ JS.show (roundDiv (now_ - lastChecked e)
                                (60 * 60 * 1000))
                  ++ " hours old)" |}.
      split; [|done]. apply elem_of_app. right. apply expiredItems_spec.
      by exists url, e.
  - intros url. unfold plan, changedSince. split.
    + intros (item & Hin & Hu & Hp).
      apply elem_of_app in Hin as [Hin|Hin].
      * apply list_elem_of_fmap in Hin as (u & -> & Hin). simpl in Hu.
        subst u. apply list_elem_of_fmap in Hin as ([u signals] & -> & Hin).
        apply list_elem_of_filter in Hin as [Hex Hin]. simpl in *.
        apply existsb_exists in Hex as (signal & Hs & Hd).
        exists signals, signal. split; [done|].
        split; [by apply list_elem_of_In|].
        rewrite Z.gtb_ltb in Hd. by apply Z.ltb_lt.
      * apply expiredItems_spec in Hin as (u & e & _ & _ & ->). done.
    + intros (signals & signal & Hin & Hs & Hd).
      exists (recentItem url). split; [|done].
      apply elem_of_app. left. apply list_elem_of_fmap. exists url.
      split; [done|]. apply list_elem_of_fmap. exists (url, signals).
      split; [done|]. apply list_elem_of_filter. split; [|done]. simpl.
      apply existsb_exists. exists signal.
      split; [by apply list_elem_of_In|].
      rewrite Z.gtb_ltb. by apply Z.ltb_lt.
Qed.

End Plan.

(** *** What every call keeps *)

Section Keeping.
Variable sha256Hex : list ascii → option string.
Variable config : IncrementalSyncConfig.

Lemma keeps_ret P {A} (a : A) : keeps P (mret a).
Proof. intros w o w' HP [= <- <-]. done. Qed.

Lemma keeps_throw P {A} e : keeps P (throw (A:=A) e).
Proof. intros w o w' HP [= <- <-]. done. Qed.

Lemma yields_bind P {A B} (c : M A) (k : A → M B) Q :
  yields P c Q → (∀ a, Q a → keeps P (k a)) → keeps P (c ≫= k).
Proof.
  intros Hc Hk w o w' HP. unfold mbind, M_bind.
  destruct (c w) as [[a|e] w1] eqn:Hcw.
  - destruct (Hc _ _ _ HP Hcw) as [HP1 HQ]. intros Hrun.
    eapply (Hk a); [by apply HQ | exact HP1 | exact Hrun].
  - intros [= <- <-]. by destruct (Hc _ _ _ HP Hcw).
Qed.

Lemma keeps_bind P {A B} (c : M A) (k : A → M B) :
  keeps P c → (∀ a, keeps P (k a)) → keeps P (c ≫= k).
Proof.
  intros Hc Hk. apply (yields_bind P c k (fun _ => True)); [|auto].
  intros w o w' HP Hcw. split; [by eapply Hc|done].
Qed.

Lemma keeps_tryCatch P {A} (body : M A) handler :
  keeps P body → (∀ e, keeps P (handler e)) → keeps P (tryCatch body handler).
Proof.
  intros Hb Hh w o w' HP. unfold tryCatch.
  destruct (body w) as [[a|e] w1] eqn:Hbw.
  - intros [= <- <-]. by eapply Hb.
  - apply Hh. by eapply Hb.
Qed.

Lemma coherent_ticks w n :
  coherent config w → coherent config (advance n w).
Proof. done. Qed.

Lemma keeps_now : keeps (coherent config) now.
Proof. intros w o w' HP [= <- <-]. done. Qed.

Lemma keeps_shouldRefreshUrl url e force :
  keeps (coherent config) (shouldRefreshUrl config url e force).
Proof.
  unfold shouldRefreshUrl. destruct force; [apply keeps_ret|].
  destruct e as [e|]; [|apply keeps_ret].
  apply keeps_bind; [apply keeps_now|]. intros a.
  repeat case_match; apply keeps_ret.
Qed.

Lemma yields_getCacheEntry url :
  yields (coherent config) (getCacheEntry url)
         (fun o => ∀ e, o = Some e → Sync.url e = url).
Proof.
  intros w o w' HP [= <- <-]. split; [done|]. intros a [= <-] e He.
  destruct HP as (_ & Hk & _). apply mapGet_Some in He.
  unfold keyedByUrl in Hk. rewrite list.Forall_forall in Hk.
  by apply (Hk (url, e)).
Qed.

Lemma keeps_conditionalFetch fetch url e :
  keeps (coherent config) (conditionalFetch config fetch url e).
Proof.
  unfold conditionalFetch. destruct (fetch _); [apply keeps_throw|].
  repeat case_match; try apply keeps_ret; apply keeps_throw.
Qed.

Lemma keeps_generateContentHash text :
  keeps (coherent config) (generateContentHash sha256Hex config text).
Proof.
  unfold generateContentHash. repeat case_match; try apply keeps_ret;
    (apply keeps_bind; [apply keeps_now|]; intros; apply keeps_ret).
Qed.

Lemma yields_createCacheEntry url fr h :
  yields (coherent config) (createCacheEntry url fr h)
         (fun e => Sync.url e = url).
Proof.
  intros w o w' HP [= <- <-]. split; [done|]. by intros a [= <-].
Qed.

Lemma mapSet_keyedByUrl url e c :
  Sync.url e = url → keyedByUrl c → keyedByUrl (mapSet url e c).
Proof.
  intros He. unfold keyedByUrl. induction 1 as [|[k v] c Hk Hc IH]; simpl.
  - by repeat constructor.
  - case_bool_decide; constructor; done.
Qed.

Lemma keeps_updateCacheEntry url e :
  Sync.url e = url → keeps (coherent config) (updateCacheEntry config url e).
Proof.
  intros He w o w' (Hd & Hk & Hlen & Hsd & Hsl & Hst & Hss) Hrun.
  destruct (updateCacheEntry_within_ceiling_gen config url e w Hd Hlen)
    as (v & Hv & Hd' & Hlen' & Hsub & Hst' & Hss' & Hsig').
  rewrite Hv in Hrun. injection Hrun as <- <-.
  split; [done|]. split.
  { eapply Forall_sublist_of; [exact Hsub|]. by apply mapSet_keyedByUrl. }
  split; [done|]. rewrite Hsig', Hss', Hst'. done.
Qed.

Lemma keeps_recordChangeSignal url old new :
  keeps (coherent config) (recordChangeSignal url old new).
Proof.
  intros w o w' (Hd & Hk & Hlen & Hsd & Hsl & Hst & Hss) Hrun.
  destruct (recordChangeSignal_result url old new w)
    as (signals & signal & Hv & Hl & _).
  rewrite Hv in Hrun. injection Hrun as <- <-. simpl.
  split; [done|]. split; [done|]. split; [done|].
  split; [by apply mapSet_distinctKeys|]. split; [|done].
  clear -Hsl Hl. induction Hsl as [|[k v] c Hkv Hc IH]; simpl.
  - constructor; [exact Hl | constructor].
  - case_bool_decide; constructor; done.
Qed.

Lemma keeps_syncUrl fetch url force :
  keeps (coherent config) (syncUrl sha256Hex config fetch url force).
Proof.
  unfold syncUrl.
  apply keeps_bind; [apply keeps_now|]; intros startTime.
  apply keeps_bind; [apply keeps_now|]; intros cacheStart.
  eapply yields_bind; [apply yields_getCacheEntry|]; intros cacheEntry Hurl.
  apply keeps_bind; [apply keeps_shouldRefreshUrl|]; intros refresh.
  apply keeps_bind; [apply keeps_now|]; intros cacheEnd.
  assert (Htouch : ∀ e t, cacheEntry = Some e →
                          keeps (coherent config)
                                (updateCacheEntry config url (touch e t))).
  { intros e t He. apply keeps_updateCacheEntry. simpl. by apply Hurl. }
  apply keeps_tryCatch;
    [|intros err; apply keeps_bind; [apply keeps_now|]; intros;
      apply keeps_ret].
  assert (Hnet : keeps (coherent config)
    (downloadStart ← now;
     fetchResult ← conditionalFetch config fetch url cacheEntry;
     downloadEnd ← now;
     let downloadTime := downloadEnd - downloadStart in
     match notModified fetchResult, cacheEntry with
     | true, Some cacheEntry =>
         checked ← now;
         let cacheEntry := touch cacheEntry checked in
         updateCacheEntry config url cacheEntry;;
         finish ← now;
         mret {| res_url := url; changed := false; cached := true;
                 res_etag := etag cacheEntry;
                 res_lastModified := lastModified cacheEntry;
                 res_contentHash := contentHash cacheEntry;
                 timing := {| cacheCheck := cacheEnd - cacheStart;
                              download := downloadTime;
                              processing := 0;
                              total := finish - startTime |} |}
     | _, _ =>
         processingStart ← now;
         contentHash_ ← generateContentHash sha256Hex config
                          (content fetchResult);
         newCacheEntry ← createCacheEntry url fetchResult contentHash_;
         processingEnd ← now;
         let processingTime := processingEnd - processingStart in
         let hasChanged := detectChanges cacheEntry newCacheEntry in
         updateCacheEntry config url newCacheEntry;;
         (if hasChanged
          then recordChangeSignal url cacheEntry newCacheEntry
          else mret tt);;
         finish ← now;
         mret {| res_url := url; changed := hasChanged; cached := false;
                 res_etag := etag newCacheEntry;
                 res_lastModified := lastModified newCacheEntry;
                 res_contentHash := contentHash_;
                 timing := {| cacheCheck := cacheEnd - cacheStart;
                              download := downloadTime;
                              processing := processingTime;
                              total := finish - startTime |} |}
     end)).
  { apply keeps_bind; [apply keeps_now|]; intros downloadStart.
    apply keeps_bind; [apply keeps_conditionalFetch|]; intros fr.
    apply keeps_bind; [apply keeps_now|]; intros downloadEnd.
    assert (Hfull : keeps (coherent config)
      (processingStart ← now;
       contentHash_ ← generateContentHash sha256Hex config (content fr);
       newCacheEntry ← createCacheEntry url fr contentHash_;
       processingEnd ← now;
       let processingTime := processingEnd - processingStart in
       let hasChanged := detectChanges cacheEntry newCacheEntry in
       updateCacheEntry config url newCacheEntry;;
       (if hasChanged
        then recordChangeSignal url cacheEntry newCacheEntry
        else mret tt);;
       finish ← now;
       mret {| res_url := url; changed := hasChanged; cached := false;
               res_etag := etag newCacheEntry;
               res_lastModified := lastModified newCacheEntry;
               res_contentHash := contentHash_;
               timing := {| cacheCheck := cacheEnd - cacheStart;
                            download := downloadEnd - downloadStart;
                            processing := processingTime;
                            total := finish - startTime |} |})).
    { apply keeps_bind; [apply keeps_now|]; intros processingStart.
      apply keeps_bind; [apply keeps_generateContentHash|]; intros h.
      eapply yields_bind; [apply yields_createCacheEntry|]; intros ne Hne.
      apply keeps_bind; [apply keeps_now|]; intros processingEnd.
      apply keeps_bind; [by apply keeps_updateCacheEntry|]; intros _.
      apply keeps_bind;
        [destruct (detectChanges _ _);
           [apply keeps_recordChangeSignal | apply keeps_ret]|]; intros _.
      apply keeps_bind; [apply keeps_now|]; intros finish.
      apply keeps_ret. }
    destruct (notModified fr); [|exact Hfull].
    destruct cacheEntry as [e|]; [|exact Hfull].
    apply keeps_bind; [apply keeps_now|]; intros checked.
    apply keeps_bind; [by apply Htouch|]; intros _.
    apply keeps_bind; [apply keeps_now|]; intros finish.
    apply keeps_ret. }
  destruct refresh; [exact Hnet|].
  destruct cacheEntry as [e|]; [|exact Hnet].
  apply keeps_bind; [apply keeps_now|]; intros checked.
  apply keeps_bind; [by apply Htouch|]; intros _.
  apply keeps_bind; [apply keeps_now|]; intros finish.
  apply keeps_ret.
Qed.


Lemma step_coherent w w' :
  step sha256Hex config w w' → coherent config w → coherent config w'.
Proof.
  intros [fetch url force| |since|] Hw.
  - eapply (keeps_syncUrl fetch url force w _ _ Hw).
    apply surjective_pairing.
  - destruct (planTargetedRecrawl_world config w) as [k ->].
    by apply coherent_ticks.
  - unfold getChangedUrls, mbind, M_bind, mret, M_ret, now, getSignals.
    destruct since as [t|]; [destruct (t =? 0)|]; exact Hw.
  - destruct Hw as (_ & _ & Hlen & _). unfold coherent. simpl.
    repeat split; try constructor. lia.
Qed.

(** From a state that is coherent, every sequence of calls of [syncUrl],
    [planTargetedRecrawl], [getChangedUrls] and [clearAll] leads to one
    that is: the keys of the cache stay distinct, each entry stays under
    its own URL, the cache stays within [maxCacheEntries], no URL has
    more than a hundred signals, and storage holds the entries and the
    signals of the instance. *)
Theorem calls_keep_coherent (w w' : World) :
  coherent config w → rtc (step sha256Hex config) w w' →
  coherent config w'.
Proof.
  intros Hw Hsteps. induction Hsteps as [|w1 w2 w3 Hstep _ IH]; [done|].
  apply IH. by apply (step_coherent w1).
Qed.

End Keeping.

(** *** Starting over *)

Lemma fold_mapSet_fresh {V} (l acc : list (string * V)) :
  distinctKeys (acc ++ l) →
  fold_left (fun c kv => mapSet kv.1 kv.2 c) l acc = acc ++ l.
Proof.
  revert acc. induction l as [|[k v] l IH]; intros acc Hd; simpl.
  - by rewrite app_nil_r.
  - unfold distinctKeys in Hd.
    rewrite mapSet_keys_absent.
    + rewrite IH; [by rewrite <- app_assoc|].
      unfold distinctKeys. by rewrite <- app_assoc.
    + rewrite map_app in Hd. apply NoDup_app in Hd as (_ & Hdisj & _).
      intros Hin. apply (Hdisj _ Hin). simpl. left.
Qed.

Lemma fold_entries_fresh (c : list (string * CacheEntry)) :
  distinctKeys c → keyedByUrl c →
  fold_left (fun c entry => mapSet (url entry) entry c) (map snd c) [] = c.
Proof.
  intros Hd Hk.
  rewrite <- (fold_mapSet_fresh c []) at 2 by done.
  generalize (@nil (string * CacheEntry)).
  induction Hk as [|[k e] c Hke _ IH]; intros acc; simpl; [done|].
  simpl in Hke. rewrite Hke. apply IH.
  unfold distinctKeys in *. simpl in Hd. by apply NoDup_cons in Hd as [_ ?].
Qed.

Lemma insertByIndex_perm {V} (x : Z * (string * V)) l :
  insertByIndex x l ≡ₚ x :: l.
Proof.
  induction l as [|y l IH]; simpl; [done|].
  destruct (_ <=? _); [done|]. rewrite IH. apply Permutation_swap.
Qed.

Lemma objectEntries_perm {V} (o : list (string * V)) :
  objectEntries o ≡ₚ o.
Proof.
  unfold objectEntries.
  rewrite <- (filter_app_complement
                (fun kv : string * V => is_Some (arrayIndex kv.1)) o) at 3.
  apply Permutation_app.
  - transitivity
      (map snd (omap (fun kv : string * V =>
                        (fun n => (n, kv)) <$> arrayIndex kv.1) o)).
    + apply fmap_Permutation.
      induction (omap _ o) as [|x l IH]; simpl; [done|].
      by rewrite insertByIndex_perm, IH.
    + match goal with |- ?a ≡ₚ ?b => enough (a = b) as -> by done end.
      induction o as [|kv o IH]; simpl; [done|].
      destruct (arrayIndex kv.1) eqn:E; simpl.
      * rewrite filter_cons_True by (by rewrite E). f_equal. exact IH.
      * rewrite filter_cons_False by (rewrite E; by intros [??]). exact IH.
  - match goal with |- ?a ≡ₚ ?b => enough (a = b) as -> by done end.
    apply list_filter_iff. intros kv. apply eq_None_not_Some.
Qed.

Lemma mapGet_perm {V} k (l l' : list (string * V)) :
  distinctKeys l → l ≡ₚ l' → mapGet k l = mapGet k l'.
Proof.
  intros Hd Hp.
  assert (Hd' : distinctKeys l') by (unfold distinctKeys in *; by rewrite <- Hp).
  destruct (mapGet k l) as [v|] eqn:E.
  - symmetry. apply mapGet_elem_of; [done|]. rewrite <- Hp.
    by apply mapGet_Some.
  - symmetry. apply mapGet_None. apply mapGet_None in E. by rewrite <- Hp.
Qed.

(** A new instance over the storage of a coherent one holds the same
    cache, entry for entry and in the same order, and the same signals
    for every URL; it is coherent in its turn.  The order of the signal
    map may differ, as [Object.entries] lists keys that are array indices
    first. *)
Theorem restart_recovers_cache (config : IncrementalSyncConfig)
    (w : World) (time' : nat → Z) :
  coherent config w →
  let w' := construct time' (stored w) in
  cache w' = cache w ∧
  changeSignals w' ≡ₚ changeSignals w ∧
  (∀ url, mapGet url (changeSignals w') = mapGet url (changeSignals w)) ∧
  stored w' = stored w ∧
  coherent config w'.
Proof.
  intros (Hd & Hk & Hlen & Hsd & Hsl & Hst & Hss) w'.
  assert (Hc : cache w' = cache w).
  { unfold w', construct, loadCache, mbind, M_bind, mret, M_ret, getStored,
      getCache, putCache, getSignals, putSignals. simpl.
    destruct (incrementalSyncCache (stored w)) as [entries|]; simpl in *.
    - destruct (storedSignals (stored w)); simpl; rewrite Hst;
        by apply fold_entries_fresh.
    - destruct (cache w); [|done]. by destruct (storedSignals (stored w)). }
  assert (Hs : changeSignals w'
               = objectEntries (default [] (storedSignals (stored w)))).
  { unfold w', construct, loadCache, mbind, M_bind, mret, M_ret, getStored,
      getCache, putCache, getSignals, putSignals. simpl.
    destruct (incrementalSyncCache (stored w)); simpl;
      (destruct (storedSignals (stored w)) as [o|] eqn:Ho; simpl; [|done]);
      (apply (fold_mapSet_fresh (objectEntries o) []); simpl;
       unfold distinctKeys in *;
       by rewrite objectEntries_perm, Hss). }
  assert (Hp : changeSignals w' ≡ₚ changeSignals w).
  { by rewrite Hs, objectEntries_perm. }
  assert (Hstored : stored w' = stored w).
  { unfold w', construct, loadCache, mbind, M_bind, mret, M_ret, getStored,
      getCache, putCache, getSignals, putSignals. simpl.
    destruct (incrementalSyncCache (stored w)); simpl;
      by destruct (storedSignals (stored w)). }
  assert (Hsd' : distinctKeys (changeSignals w')).
  { unfold distinctKeys in *. by rewrite Hp. }
  split; [done|]. split; [done|]. split; [|split; [done|]].
  - intros url. by apply mapGet_perm.
  - unfold coherent. rewrite Hc, Hstored.
    split; [done|]. split; [done|]. split; [done|]. split; [done|].
    split; [by rewrite Hp|]. split; [done|]. by rewrite Hp.
Qed.

(** *** The theorems above at concrete inputs *)

Lemma distinctKeys_afterFirstSync : distinctKeys (cache afterFirstSync).
Proof. unfold distinctKeys. vm_compute. apply NoDup_singleton. Qed.

Lemma coherent_empty time : coherent defaultConfig (emptyWorld time).
Proof.
  unfold coherent. simpl. repeat split; try constructor. done.
Qed.

Lemma empty_to_afterSecondSync :
  rtc (step sampleDigest defaultConfig) (emptyWorld clock3) afterSecondSync.
Proof.
  unfold afterSecondSync, afterFirstSync.
  exact (rtc_l _ _ _ _
           (step_syncUrl _ _ _ firstResponse url0 false)
           (rtc_once _ _ (step_syncUrl _ _ _ firstResponse url0 false))).
Qed.

Lemma coherent_afterFirstSync : coherent defaultConfig afterFirstSync.
Proof.
  unfold afterFirstSync.
  exact (step_coherent sampleDigest defaultConfig (emptyWorld clock3) _
           (step_syncUrl _ _ _ firstResponse url0 false)
           (coherent_empty clock3)).
Qed.

Lemma cleanupCache_evicts_oldest_witness :
  ∃ w', cleanupCache noRoom afterFirstSync = (Returned tt, w') ∧
        length (cache w') = 0%nat.
Proof.
  destruct (cleanupCache_evicts_oldest noRoom afterFirstSync)
    as (w' & Hrun & _ & Hl & _).
  - exact distinctKeys_afterFirstSync.
  - vm_compute. reflexivity.
  - exists w'. split; [exact Hrun | exact Hl].
Defined.

Lemma updateCacheEntry_within_ceiling_witness :
  ∃ w', updateCacheEntry defaultConfig url0
          (touch firstEntry (23 * hour)) afterFirstSync
        = (Returned tt, w') ∧
        Z.of_nat (length (cache w')) ≤ 10000.
Proof.
  destruct (updateCacheEntry_within_ceiling defaultConfig url0
              (touch firstEntry (23 * hour)) afterFirstSync)
    as (w' & Hrun & _ & Hlen & _).
  - exact distinctKeys_afterFirstSync.
  - vm_compute. discriminate.
  - exists w'. split; [exact Hrun | exact Hlen].
Defined.

Lemma syncUrl_answers_from_cache_witness :
  ∃ r w',
    syncUrl sampleDigest defaultConfig unreachable url0 false afterFirstSync
    = (Returned r, w') ∧
    changed r = false ∧ cached r = true.
Proof.
  destruct (syncUrl_answers_from_cache sampleDigest defaultConfig
              unreachable firstResponse url0 false afterFirstSync
              firstEntry)
    as (r & w' & Hrun & _ & Hch & Hca & _).
  - vm_compute. reflexivity.
  - vm_compute. reflexivity.
  - vm_compute. discriminate.
  - exists r, w'. split; [exact Hrun|]. split; [exact Hch | exact Hca].
Defined.

Lemma syncUrl_full_download_witness :
  ∃ r w' e',
    syncUrl sampleDigest defaultConfig firstResponse url0 false
      (emptyWorld clock3) = (Returned r, w') ∧
    changed r = true ∧ mapGet url0 (cache w') = Some e' ∧
    hitCount e' = 0.
Proof.
  destruct (syncUrl_full_download sampleDigest defaultConfig firstResponse
              url0 false (emptyWorld clock3)
              {| status := 200; statusText := "OK"; hdrETag := Some "v1";
                 hdrLastModified := None; body := Some page |}
              page "<html>hello</html>")
    as (r & w' & e' & Hrun & _ & _ & Hget & _ & Hhit & _ & _ & _ & _ & Hnew
        & _).
  - reflexivity.
  - reflexivity.
  - reflexivity.
  - vm_compute. discriminate.
  - reflexivity.
  - reflexivity.
  - vm_compute. reflexivity.
  - vm_compute. reflexivity.
  - exists r, w', e'. split; [exact Hrun|]. split; [exact (Hnew eq_refl)|].
    split; [exact Hget | exact Hhit].
Defined.

Lemma calls_keep_coherent_witness : coherent defaultConfig afterSecondSync.
Proof.
  exact (calls_keep_coherent sampleDigest defaultConfig (emptyWorld clock3)
           afterSecondSync (coherent_empty clock3) empty_to_afterSecondSync).
Defined.

Lemma restart_recovers_cache_witness :
  cache (construct clock3 (stored afterFirstSync)) = cache afterFirstSync.
Proof.
  destruct (restart_recovers_cache defaultConfig afterFirstSync clock3
              coherent_afterFirstSync) as [H _].
  exact H.
Defined.

End SyncOps.

(** ** Normalisation: white space and static content *)

Module NormalizeOps.
Import Normalize NormalizeFacts.

Lemma spanLen_drop_head p s c t :
  drop (spanLen p s) s = c :: t → p c = false.
Proof.
  induction s as [|x s IH]; simpl; [done|].
  destruct (p x) eqn:E; simpl; [done|]. by intros [= <- _].
Qed.

Lemma tidy_weaken s : tidy true s = true → tidy false s = true.
Proof.
  destruct s as [|c t]; simpl; [done|].
  destruct (JS.isSpace c); [|done]. by rewrite andb_false_r.
Qed.

Lemma tidy_after_space s :
  tidy false s = true →
  (∀ c t, s = c :: t → JS.isSpace c = false) → tidy true s = true.
Proof.
  destruct s as [|c t]; simpl; [done|]. intros H Hh.
  by rewrite (Hh c t eq_refl) in *.
Qed.

Lemma tidy_suffix b l s : tidy b (l ++ s) = true → tidy false s = true.
Proof.
  revert b. induction l as [|c l IH]; intros b; simpl.
  - destruct b; [apply tidy_weaken | done].
  - destruct (JS.isSpace c); [|apply IH].
    intros H. apply andb_true_iff in H as [_ H]. by apply IH in H.
Qed.

Lemma tidy_blank b s c :
  tidy b s = true → c ∈ s → JS.isSpace c = true → c = " "%char.
Proof.
  revert b. induction s as [|x s IH]; intros b H Hin Hc;
    [by apply elem_of_nil in Hin|].
  simpl in H. apply elem_of_cons in Hin as [->|Hin].
  - rewrite Hc in H. apply andb_true_iff in H as [H _].
    apply andb_true_iff in H as [H _]. by apply bool_decide_eq_true in H.
  - destruct (JS.isSpace x).
    + apply andb_true_iff in H as [_ H]. by apply (IH true).
    + by apply (IH false).
Qed.

Lemma tidy_no_pair b l1 x y l2 :
  tidy b (l1 ++ x :: y :: l2) = true →
  JS.isSpace x = true → JS.isSpace y = false.
Proof.
  intros H Hx. apply tidy_suffix in H. simpl in H. rewrite Hx in H.
  apply andb_true_iff in H as [_ H].
  destruct (JS.isSpace y); [|done].
  by rewrite andb_false_r in H.
Qed.

(** The seventh replacement leaves white space in normal form and keeps a
    first unit that is not white space. *)
Lemma pass7_tidy_head n s :
  (length s ≤ n)%nat →
  tidy false (pass7 s) = true ∧
  (∀ c t, pass7 s = c :: t → JS.isSpace c = true →
          ∃ c' t', s = c' :: t' ∧ JS.isSpace c' = true).
Proof.
  unfold pass7, replaceAll. revert s.
  induction n as [|n IH]; intros [|c t] Hlen; try done;
    try (simpl in Hlen; lia).
  simpl in Hlen. cbn [replaceFrom]. unfold spaces. simpl. destruct (JS.isSpace c) eqn:Ec; simpl.
  - set (k := spanLen JS.isSpace t).
    assert (Hk : (k ≤ length t)%nat) by apply spanLen_le.
    rewrite <- (take_drop k t) at 1.
    replace k with (length (take k t)) at 1
      by (rewrite length_take; lia).
    rewrite replaceFrom_skip.
    destruct (IH (drop k t)) as [Ht Hh]; [rewrite length_drop; lia|].
    split; [|intros ? ? _ _; by exists c, t].
    apply tidy_after_space; [done|].
    intros c' t' Hout. destruct (JS.isSpace c') eqn:Ec'; [|done].
    destruct (Hh c' t' Hout Ec') as (c'' & t'' & Hd & Hs).
    apply spanLen_drop_head in Hd. congruence.
  - destruct (IH t) as [Ht Hh]; [lia|]. split; [by rewrite Ec|].
    intros c' t' [= <- <-] Hs. congruence.
Qed.

Lemma pass7_tidy s : tidy false (pass7 s) = true.
Proof. by apply (pass7_tidy_head (length s)). Qed.

Lemma trimStart_suffix s : ∃ pre, s = pre ++ trimStart s.
Proof.
  induction s as [|c s [pre IH]]; simpl; [by exists []|].
  destruct (JS.isSpace c); [|by exists []].
  exists (c :: pre). simpl. by f_equal.
Qed.

Lemma trimStart_head s c t : trimStart s = c :: t → JS.isSpace c = false.
Proof.
  induction s as [|x s IH]; simpl; [done|].
  destruct (JS.isSpace x) eqn:E; [done|]. by intros [= <- _].
Qed.

Lemma trimStart_id s :
  (∀ c t, s = c :: t → JS.isSpace c = false) → trimStart s = s.
Proof.
  destruct s as [|c t]; simpl; [done|]. intros H.
  by rewrite (H c t eq_refl).
Qed.

(** [trim] keeps a middle part of the text. *)
Lemma trim_infix s : ∃ pre post, s = pre ++ trim s ++ post.
Proof.
  unfold trim. destruct (trimStart_suffix s) as [pre Hpre].
  destruct (trimStart_suffix (rev (trimStart s))) as [post Hpost].
  exists pre, (rev post). rewrite <- rev_app_distr, <- Hpost.
  by rewrite rev_involutive.
Qed.

Lemma trim_first s c t : trim s = c :: t → JS.isSpace c = false.
Proof.
  unfold trim. intros H.
  destruct (trimStart_suffix (rev (trimStart s))) as [post Hpost].
  set (X := trimStart (rev (trimStart s))) in *.
  assert (HX : X = rev t ++ [c]).
  { rewrite <- (rev_involutive X), H. done. }
  assert (HY : trimStart s = c :: t ++ rev post).
  { rewrite <- (rev_involutive (trimStart s)), Hpost, HX.
    rewrite !rev_app_distr, rev_involutive. done. }
  by apply trimStart_head in HY.
Qed.

Lemma trim_last s l c : trim s = l ++ [c] → JS.isSpace c = false.
Proof.
  unfold trim. intros H.
  set (X := trimStart (rev (trimStart s))) in *.
  assert (HX : X = c :: rev l).
  { rewrite <- (rev_involutive X), H, rev_app_distr. done. }
  by apply trimStart_head in HX.
Qed.

(** The result of [normalizeContent] has its white space in normal form:
    every white-space unit of it is a space, no two of them are adjacent,
    and it neither begins nor ends with one. *)
Theorem normalizeContent_whitespace (content : list ascii) :
  let out := normalizeContent content in
  (∀ c, c ∈ out → JS.isSpace c = true → c = " "%char) ∧
  (∀ l1 a b l2, out = l1 ++ a :: b :: l2 →
                JS.isSpace a = true → JS.isSpace b = false) ∧
  (∀ c t, out = c :: t → JS.isSpace c = false) ∧
  (∀ l c, out = l ++ [c] → JS.isSpace c = false).
Proof.
  intros out. unfold out. rewrite normalizeContent_passes.
  set (s := pass6 _).
  pose proof (pass7_tidy s) as Ht.
  destruct (trim_infix (pass7 s)) as (pre & post & Hs).
  rewrite Hs in Ht. apply tidy_suffix in Ht.
  split; [|split; [|split]].
  - intros c Hin. apply (tidy_blank false _ c Ht).
    apply elem_of_app. by left.
  - intros l1 a b l2 Hout. rewrite Hout in Ht.
    rewrite <- !app_assoc in Ht. simpl in Ht.
    exact (tidy_no_pair _ _ _ _ _ Ht).
  - apply trim_first.
  - apply trim_last.
Qed.

(** *** Static text *)

Lemma static_spec c :
  static c = true ↔ d c = false ∧ c ≠ "-"%char ∧ c ≠ "_"%char.
Proof.
  unfold static. rewrite !andb_true_iff, !negb_true_iff,
    !bool_decide_eq_false. tauto.
Qed.

Lemma replaceAll_static m rep s :
  (∀ s', allStatic s' → m s' = None) → allStatic s →
  replaceAll m rep s = s.
Proof.
  intros Hm Hs. unfold replaceAll.
  rewrite <- (app_nil_r s) at 1. rewrite replaceFrom_inert.
  - by rewrite app_nil_r.
  - intros a1 a2 Heq Hne. rewrite app_nil_r. apply Hm.
    by eapply Forall_suffix.
Qed.

Lemma static_not_iso s : allStatic s → isoTimestamp s = None.
Proof.
  intros Hs. apply isoTimestamp_fails, not_true_iff_false. intros Hm.
  destruct (matchSeq_item isoPattern s 0 d Hm eq_refl) as (c & Hc & Hd).
  apply list_elem_of_lookup_2 in Hc.
  unfold allStatic in Hs. rewrite list.Forall_forall in Hs.
  apply Hs, static_spec in Hc as [Hc _]. congruence.
Qed.

Lemma static_not_epoch s : allStatic s → epochRun s = None.
Proof.
  intros Hs. apply epochRun_fails, not_true_iff_false. intros Hm.
  destruct (matchSeq_item [d] s 0 d Hm eq_refl) as (c & Hc & Hd).
  apply list_elem_of_lookup_2 in Hc.
  unfold allStatic in Hs. rewrite list.Forall_forall in Hs.
  apply Hs, static_spec in Hc as [Hc _]. congruence.
Qed.

Lemma static_not_token w1 w2 s : allStatic s → token w1 w2 s = None.
Proof.
  intros Hs. apply token_fails, not_true_iff_false. intros Hm.
  unfold tokenPattern in Hm.
  destruct (matchSeq_item _ s (length (list_ascii_of_string w1))
              (fun c => bool_decide (c = "_"%char)
                        || bool_decide (c = "-"%char)) Hm)
    as (c & Hc & Hl).
  { rewrite lookup_app_r by (by rewrite length_map).
    by rewrite length_map, Nat.sub_diag. }
  apply list_elem_of_lookup_2 in Hc.
  unfold allStatic in Hs. rewrite list.Forall_forall in Hs.
  apply Hs, static_spec in Hc as (_ & Hc1 & Hc2).
  apply orb_true_iff in Hl as [Hl|Hl]; by apply bool_decide_eq_true in Hl.
Qed.

Lemma no_digits_no_run n run s :
  Forall (fun c => d c = false) s →
  hasDigitRunFrom n run s = (n <=? run)%nat.
Proof.
  intros Hs. revert run. induction Hs as [|c s Hc _ IH]; intros run; simpl.
  - apply orb_false_r.
  - rewrite Hc, IH. destruct (n <=? run)%nat eqn:E; simpl; [done|].
    destruct n; [by apply Nat.leb_gt in E; lia | done].
Qed.

Lemma static_not_dynamicId s : allStatic s → dynamicId s = None.
Proof.
  intros Hs. unfold dynamicId.
  destruct (matchSeq _ s); [|done].
  destruct (drop _ (drop 4 s)); [done|].
  rewrite no_digits_no_run; [done|].
  apply Forall_take, Forall_drop.
  eapply list.Forall_impl; [exact Hs|].
  intros c Hc. by apply static_spec in Hc as [Hc _].
Qed.

Lemma static_passes s :
  allStatic s → pass6 (pass5 (pass4 (pass3 (pass2 (pass1 s))))) = s.
Proof.
  intros Hs. unfold pass1, pass2, pass3, pass4, pass5, pass6.
  rewrite (replaceAll_static isoTimestamp) by (done || apply static_not_iso).
  rewrite (replaceAll_static epochRun) by (done || apply static_not_epoch).
  rewrite (replaceAll_static (token "session" "id"))
    by (done || apply static_not_token).
  rewrite (replaceAll_static (token "csrf" "token"))
    by (done || apply static_not_token).
  rewrite (replaceAll_static (token "authenticity" "token"))
    by (done || apply static_not_token).
  by rewrite (replaceAll_static dynamicId)
    by (done || apply static_not_dynamicId).
Qed.

Lemma pass7_static s : allStatic s → allStatic (pass7 s).
Proof.
  intros Hs. unfold pass7, replaceAll. apply replaceFrom_Forall; [|done].
  by repeat constructor.
Qed.

Lemma trim_static s : allStatic s → allStatic (trim s).
Proof.
  intros Hs. destruct (trim_infix s) as (pre & post & Heq).
  unfold allStatic in *. rewrite Heq in Hs.
  apply Forall_app in Hs as [_ Hs]. by apply Forall_app in Hs as [Hs _].
Qed.

Lemma pass7_id b s : tidy b s = true → pass7 s = s.
Proof.
  unfold pass7, replaceAll. revert b.
  induction s as [|c t IH]; intros b H; [done|].
  cbn [replaceFrom]. unfold spaces. simpl in H |- *.
  destruct (JS.isSpace c) eqn:Ec.
  - apply andb_true_iff in H as [H Ht].
    apply andb_true_iff in H as [H _]. apply bool_decide_eq_true in H.
    assert (Hz : spanLen JS.isSpace t = 0%nat).
    { destruct t as [|x t]; simpl in *; [done|].
      destruct (JS.isSpace x); [|done]. by rewrite andb_false_r in Ht. }
    rewrite Hz. simpl. subst c. f_equal. by apply (IH true).
  - simpl. f_equal. by apply (IH false).
Qed.

Lemma trim_id s :
  (∀ c t, s = c :: t → JS.isSpace c = false) →
  (∀ l c, s = l ++ [c] → JS.isSpace c = false) → trim s = s.
Proof.
  intros Hh Hl. unfold trim. rewrite (trimStart_id s) by done.
  rewrite trimStart_id; [apply rev_involutive|].
  intros c t Hr. apply (Hl (rev t)).
  by rewrite <- (rev_involutive s), Hr.
Qed.

(** Content with white space in normal form is a fixed point of the
    seventh replacement and of [trim]. *)
Lemma tidy_fixed s :
  tidy false s = true →
  (∀ c t, s = c :: t → JS.isSpace c = false) →
  (∀ l c, s = l ++ [c] → JS.isSpace c = false) →
  trim (pass7 s) = s.
Proof.
  intros Ht Hh Hl. rewrite (pass7_id false) by done. by apply trim_id.
Qed.

Lemma trim_pass7_tidy s : tidy false (trim (pass7 s)) = true.
Proof.
  pose proof (pass7_tidy s) as Ht.
  destruct (trim_infix (pass7 s)) as (pre & post & Hs).
  rewrite Hs in Ht. apply tidy_suffix in Ht.
  revert Ht. generalize (trim (pass7 s)). intros l. generalize false.
  induction l as [|c l IH]; intros b; simpl; [done|].
  destruct (JS.isSpace c); [|apply IH].
  intros H. apply andb_true_iff in H as [-> H]. simpl. by apply IH in H.
Qed.

(** Content without digits, hyphens and underscores holds nothing that the
    six replacements of volatile fields look for: [normalizeContent] only
    puts its white space in normal form. *)
Theorem normalizeContent_static (content : list ascii) :
  Forall (fun c => static c = true) content →
  normalizeContent content = trim (pass7 content).
Proof.
  intros Hs. rewrite normalizeContent_passes. by rewrite static_passes.
Qed.

(** On content without digits, hyphens and underscores [normalizeContent]
    is idempotent: what it returns it returns unchanged. *)
Theorem normalizeContent_static_idempotent (content : list ascii) :
  Forall (fun c => static c = true) content →
  normalizeContent (normalizeContent content) = normalizeContent content.
Proof.
  intros Hs.
  assert (Hout : normalizeContent content = trim (pass7 content)).
  { rewrite normalizeContent_passes. by rewrite static_passes. }
  rewrite Hout. rewrite normalizeContent_passes.
  rewrite static_passes by (by apply trim_static, pass7_static).
  apply tidy_fixed.
  - apply trim_pass7_tidy.
  - apply trim_first.
  - apply trim_last.
Qed.

Lemma forallb_static s :
  forallb static s = true → Forall (fun c => static c = true) s.
Proof.
  induction s as [|c s IH]; simpl; [constructor|].
  intros H. apply andb_true_iff in H as [Hc Hs]. constructor; auto.
Qed.

Lemma normalizeContent_static_witness :
  normalizeContent (list_ascii_of_string "  <p>Hello   world</p> ")
  = list_ascii_of_string "<p>Hello world</p>".
Proof.
  rewrite (normalizeContent_static
             (list_ascii_of_string "  <p>Hello   world</p> ")).
  - vm_compute. reflexivity.
  - apply forallb_static. vm_compute. reflexivity.
Defined.

Lemma normalizeContent_static_idempotent_witness :
  normalizeContent
    (normalizeContent (list_ascii_of_string "  <p>Hello   world</p> "))
  = normalizeContent (list_ascii_of_string "  <p>Hello   world</p> ").
Proof.
  apply (normalizeContent_static_idempotent
           (list_ascii_of_string "  <p>Hello   world</p> ")).
  apply forallb_static. vm_compute. reflexivity.
Defined.

End NormalizeOps.

(** ** The scheduler: sessions, the monitor loop and seeding *)

Module SchedulerOps.
Import Scheduler SchedulerFacts.

(** *** The end of a session *)

Lemma lastTen_drop {A} (l : list A) :
  (if (10 <? length l)%nat then drop (length l - 10) l else l)
  = drop (length l - 10) l.
Proof.
  destruct (10 <? length l)%nat eqn:E; [done|].
  apply Nat.ltb_ge in E. by replace (length l - 10)%nat with 0%nat by lia.
Qed.

Lemma endCrawlSession_some st err s c :
  currentSession s = Some c →
  let s' := endCrawlSession st err s in
  let saved :=
    {| id := id c; startTime := startTime c;
       endTime := Some (time s (tick s)); status := st;
       tasksScheduled := tasksScheduled c;
       tasksCompleted := tasksCompleted c;
       tasksFailed := tasksFailed c;
       error := if Sync.truthy err then err else error c |} in
  let all := history s ++ [saved] in
  crawlSessions s' = Some (drop (length all - 10) all) ∧
  last (history s') = Some saved ∧
  (length (history s') ≤ 10)%nat ∧
  currentSession s' = None ∧ isRunning s' = false ∧
  lastCrawl s' = Some (time s (S (tick s))) ∧
  tick s' = S (S (tick s)) ∧ time s' = time s ∧
  queueManager s' = queueManager s ∧ config s' = config s.
Proof.
  intros Hc. unfold endCrawlSession. rewrite Hc.
  cbv zeta. simpl. unfold history. simpl.
  set (saved := {| id := id c |}).
  rewrite (lastTen_drop (default [] (crawlSessions s) ++ [saved])).
  split; [done|]. split; [|split; [|done]].
  - rewrite <- (lastTen_drop (default [] (crawlSessions s) ++ [saved])).
    apply saved_last.
  - rewrite length_drop. lia.
Qed.

Lemma endCrawlSession_none st err s :
  currentSession s = None → endCrawlSession st err s = s.
Proof. intros Hc. unfold endCrawlSession. by rewrite Hc. Qed.

(** [endCrawlSession] without a current session does nothing, not even a
    reading of the clock.  With one, it stamps the session with the clock
    reading, the given status and the error if that is not empty, puts it
    last in the saved sessions and keeps the ten newest of them, lowers
    the guard, records the next clock reading as the time of the last
    crawl and forgets the session; the queue is not touched. *)
Theorem endCrawlSession_records (st : Status) (err : option string)
    (s : State) :
  match currentSession s with
  | None => endCrawlSession st err s = s
  | Some c =>
      let s' := endCrawlSession st err s in
      let saved :=
        {| id := id c; startTime := startTime c;
           endTime := Some (time s (tick s)); status := st;
           tasksScheduled := tasksScheduled c;
           tasksCompleted := tasksCompleted c;
           tasksFailed := tasksFailed c;
           error := if Sync.truthy err then err else error c |} in
      let all := history s ++ [saved] in
      crawlSessions s' = Some (drop (length all - 10) all) ∧
      last (history s') = Some saved ∧
      (length (history s') ≤ 10)%nat ∧
      currentSession s' = None ∧ isRunning s' = false ∧
      lastCrawl s' = Some (time s (S (tick s))) ∧
      tick s' = S (S (tick s)) ∧ time s' = time s ∧
      queueManager s' = queueManager s ∧ config s' = config s
  end.
Proof.
  destruct (currentSession s) as [c|] eqn:Hc.
  - by apply endCrawlSession_some.
  - by apply endCrawlSession_none.
Qed.

(** *** The saved sessions stay within ten *)

Lemma tame_refl s : tame s s.
Proof. split; [done|by left]. Qed.

Lemma tame_trans s1 s2 s3 : tame s1 s2 → tame s2 s3 → tame s1 s3.
Proof.
  intros [Hc1 H1] [Hc2 H2]. split; [congruence|].
  destruct H2 as [H2|H2]; [|by right]. rewrite H2. done.
Qed.

Lemma tame_same s s' :
  config s' = config s → crawlSessions s' = crawlSessions s → tame s s'.
Proof. intros Hc Hh. split; [done|]. left. unfold history. by rewrite Hh. Qed.

Lemma tame_endCrawlSession st err s : tame s (endCrawlSession st err s).
Proof.
  destruct (currentSession s) as [c|] eqn:Hc.
  - destruct (endCrawlSession_some st err s c Hc)
      as (_ & _ & Hlen & _ & _ & _ & _ & _ & _ & Hcfg).
    split; [done|by right].
  - rewrite endCrawlSession_none by done. apply tame_refl.
Qed.

Lemma tame_startFailed msg s : tame s (startFailed msg s).2.
Proof.
  unfold startFailed. simpl.
  destruct (currentSession s) as [c|]; [|by apply tame_same].
  eapply tame_trans; [|apply tame_endCrawlSession]. by apply tame_same.
Qed.

Lemma tame_scheduleInitialTasks hosts s :
  tame s (scheduleInitialTasks hosts s).2.
Proof.
  apply tame_same; [|apply scheduleInitialTasks_history].
  unfold scheduleInitialTasks.
  destruct (currentSession s) as [c|] eqn:Hc; [|done].
  destruct hosts as [|h hosts]; [done|]. simpl. rewrite Hc. simpl. done.
Qed.

Lemma tame_resumeStart auth hosts s : tame s (resumeStart auth hosts s).2.
Proof.
  unfold resumeStart. destruct auth as [| |msg].
  - simpl.
    match goal with
    | |- context [scheduleInitialTasks hosts ?x] =>
        pose proof (tame_scheduleInitialTasks hosts x) as Hs;
        destruct (scheduleInitialTasks hosts x) as [[msg|] s1]
    end; simpl in *.
    + eapply tame_trans; [|apply tame_startFailed].
      eapply tame_trans; [|exact Hs]. by apply tame_same.
    + eapply tame_trans; [|exact Hs]. by apply tame_same.
  - eapply tame_trans; [|apply tame_startFailed]. by apply tame_same.
  - apply tame_startFailed.
Qed.

Lemma tame_monitorTick monitorStart s : tame s (monitorTick monitorStart s).2.
Proof.
  unfold monitorTick. destruct (isRunning s); simpl; [|apply tame_refl].
  destruct (_ <? _); simpl; [|by apply tame_same].
  destruct (currentSession s) as [c|] eqn:Hc; simpl.
  - destruct (_ && _); simpl.
    + eapply tame_trans; [|apply tame_endCrawlSession]. by apply tame_same.
    + destruct (_ >=? _); simpl; [|by apply tame_same].
      eapply tame_trans; [|apply tame_endCrawlSession]. by apply tame_same.
  - by apply tame_same.
Qed.

Lemma step_tame s s' : step s s' → tame s s'.
Proof.
  intros [|auth hosts|monitorStart| |q Hq].
  - unfold enterStart. destruct (isRunning s); by apply tame_same.
  - apply tame_resumeStart.
  - apply tame_monitorTick.
  - unfold cancelCrawl. destruct (currentSession s);
      [apply tame_endCrawlSession | apply tame_refl].
  - by apply tame_same.
Qed.

(** Whatever is called and however the calls interleave, the scheduler
    never saves more than ten sessions, provided it did not find more
    when it started, and it never changes its configuration. *)
Theorem history_within_ten (s s' : State) :
  (length (history s) ≤ 10)%nat → rtc step s s' →
  (length (history s') ≤ 10)%nat ∧ config s' = config s.
Proof.
  intros Hlen Hsteps.
  induction Hsteps as [|s1 s2 s3 Hstep _ IH]; [done|].
  destruct (step_tame _ _ Hstep) as [Hcfg Hh].
  rewrite <- Hcfg. apply IH. destruct Hh as [-> | Hh]; done.
Qed.

(** *** The monitor loop *)

(** A turn of the monitor loop that finds the time already up at the test
    of the [while] ends the loop and nothing else: the session stays
    current and is not saved, the guard stays up, and a
    [startCrawlSession] that follows is refused. *)
Theorem monitor_timeout_at_loop_head (monitorStart : Z) (s : State) :
  isRunning s = true →
  maxCrawlDurationMs (config s) ≤ time s (tick s) - monitorStart →
  let r := monitorTick monitorStart s in
  r.1 = false ∧ r.2 = later 1 s ∧
  currentSession r.2 = currentSession s ∧ isRunning r.2 = true ∧
  crawlSessions r.2 = crawlSessions s ∧ lastCrawl r.2 = lastCrawl s ∧
  ∀ auth hosts,
    startCrawlSession auth hosts r.2
    = (Sync.Thrown "Crawl session already running", r.2).
Proof.
  intros Hrun Hlate r. unfold r, monitorTick. rewrite Hrun. simpl.
  replace (_ <? _) with false by (symmetry; apply Z.ltb_ge; lia).
  simpl. repeat (split; [done|]).
  intros auth hosts. unfold startCrawlSession, enterStart. simpl.
  by rewrite Hrun.
Qed.

(** A turn of the monitor loop within the time allowed that finds the
    queue empty and nothing running ends the session as completed: the
    saved record carries the counts of completed and failed tasks of the
    queue manager and the clock reading after the test as its end, the
    guard goes down and no session is current. *)
Theorem monitor_completes_when_drained (monitorStart : Z) (s : State)
    (c : CrawlSession) :
  isRunning s = true → currentSession s = Some c →
  time s (tick s) - monitorStart < maxCrawlDurationMs (config s) →
  let stats := Queue.getStats (Queue.mgr (queueManager s)) in
  Queue.pending stats = 0 → Queue.stat_running stats = 0 →
  let r := monitorTick monitorStart s in
  r.1 = false ∧ isRunning r.2 = false ∧ currentSession r.2 = None ∧
  last (history r.2)
  = Some {| id := id c; startTime := startTime c;
            endTime := Some (time s (S (tick s))); status := completed;
            tasksScheduled := tasksScheduled c;
            tasksCompleted := Queue.stat_completed stats;
            tasksFailed := Queue.stat_failed stats;
            error := error c |} ∧
  lastCrawl r.2 = Some (time s (S (S (tick s)))) ∧
  queueManager r.2 = queueManager s.
Proof.
  intros Hrun Hc Hearly stats Hp Hr r. unfold r, monitorTick.
  rewrite Hrun. simpl.
  replace (_ <? _) with true by (symmetry; apply Z.ltb_lt; lia).
  simpl. rewrite Hc.
  pose proof Hp as Hp'. pose proof Hr as Hr'.
  unfold stats in Hp', Hr'. simpl in Hp', Hr'. rewrite Hp', Hr'. simpl.
  match goal with
  | |- context [endCrawlSession completed None ?x] =>
      destruct (endCrawlSession_some completed None x
                  {| id := id c; startTime := startTime c;
                     endTime := endTime c; status := status c;
                     tasksScheduled := tasksScheduled c;
                     tasksCompleted := Queue.stat_completed stats;
                     tasksFailed := Queue.stat_failed stats;
                     error := error c |} eq_refl)
        as (_ & Hlast & _ & Hnone & Hdown & Hcrawl & _ & _ & Hq & _)
  end.
  split; [done|]. split; [exact Hdown|]. split; [exact Hnone|].
  split; [exact Hlast|]. split; [exact Hcrawl|exact Hq].
Qed.

(** *** Seeding the queue *)

(** The type of a task is part of its identifier: tasks of two types
    never share one. *)
Lemma generateTaskId_type t1 t2 ty1 ty2 u1 u2 :
  Queue.generateTaskId t1 ty1 u1 = Queue.generateTaskId t2 ty2 u2 →
  ty1 = ty2.
Proof.
  unfold Queue.generateTaskId.
  destruct ty1, ty2; try done;
    cbn [append Queue.typeName]; intros H; congruence.
Qed.

Lemma queue_addTask_fresh tId tC tS task w :
  Queue.wellFormed (Queue.mgr w) →
  let id := Queue.generateTaskId tId (Queue.TaskInput.type task)
              (Queue.TaskInput.url task) in
  id ∉ Queue.queuedIds (Queue.mgr w) →
  let w' := (Queue.addTask tId tC tS task w).2 in
  Queue.tasks (Queue.mgr w')
  = Queue.tasks (Queue.mgr w) ++ [Queue.newCrawlTask id tC task] ∧
  Queue.wellFormed (Queue.mgr w') ∧
  Queue.crawlQueue (Queue.store w') = Some (Queue.tasks (Queue.mgr w')).
Proof.
  intros Hwf id Hid w'.
  assert (Hq : ¬ Queue.queued (Queue.mgr w)
                 (Queue.CrawlTask.id (Queue.newCrawlTask id tC task))).
  { by rewrite QueueOps.queued_queuedIds. }
  assert (Ht : Queue.tasks (Queue.mgr w')
               = Queue.tasks (Queue.mgr w)
                 ++ [Queue.newCrawlTask id tC task]).
  { unfold w'. rewrite QueueFacts.tasks_addTask. fold id.
    rewrite QueueFacts.enqueue_fresh by done.
    by rewrite QueueFacts.tasks_withQueue, QueueFacts.derefs_push. }
  split; [done|]. split; [|done].
  unfold w', Queue.wellFormed. simpl.
  by apply (QueueOps.wellFormed_enqueue (Queue.mgr w)).
Qed.

Lemma addTask_run task s :
  addTask task s
  = withQueue (later 3 s)
      (Queue.addTask (time s (tick s)) (time s (S (tick s)))
         (time s (S (S (tick s)))) task (queueManager s)).2.
Proof. done. Qed.

Lemma scheduledMore_more a b c :
  scheduledMore a (scheduledMore b c) = scheduledMore (b + a) c.
Proof. unfold scheduledMore. simpl. f_equal. lia. Qed.

Lemma bumpScheduled_session s :
  currentSession (bumpScheduled s) = scheduledMore 1 <$> currentSession s.
Proof.
  unfold bumpScheduled. destruct (currentSession s) eqn:E; simpl;
    rewrite ?E; reflexivity.
Qed.

Lemma bumpScheduled_rest s :
  isRunning (bumpScheduled s) = isRunning s ∧
  crawlSessions (bumpScheduled s) = crawlSessions s ∧
  queueManager (bumpScheduled s) = queueManager s ∧
  time (bumpScheduled s) = time s ∧ tick (bumpScheduled s) = tick s ∧
  config (bumpScheduled s) = config s ∧ lastCrawl (bumpScheduled s) = lastCrawl s.
Proof. unfold bumpScheduled. by destruct (currentSession s) eqn:E. Qed.

Lemma createdTasks_ids tasks time tick t :
  t ∈ createdTasks tasks time tick →
  ∃ ts task, task ∈ tasks ∧
    Queue.CrawlTask.id t
    = Queue.generateTaskId ts (Queue.TaskInput.type task)
        (Queue.TaskInput.url task).
Proof.
  revert tick. induction tasks as [|task rest IH]; intros tick Hin; simpl in *.
  - by apply elem_of_nil in Hin.
  - apply elem_of_cons in Hin as [-> | Hin].
    + exists (time tick), task. split; [left|done].
    + destruct (IH _ Hin) as (ts & task' & Hin' & Hid).
      exists ts, task'. split; [by right|done].
Qed.

Lemma createdTasks_NoDup tasks time tick :
  NoDup (map Queue.TaskInput.type tasks) →
  NoDup (map Queue.CrawlTask.id (createdTasks tasks time tick)).
Proof.
  revert tick. induction tasks as [|task rest IH]; intros tick Hnd; simpl.
  - constructor.
  - apply NoDup_cons in Hnd as [Hnotin Hnd]. apply NoDup_cons.
    split; [|by apply IH].
    intros Hin. apply list_elem_of_fmap in Hin as (t & Hid & Hin).
    apply createdTasks_ids in Hin as (ts & task' & Hin' & Hid').
    rewrite Hid' in Hid. apply generateTaskId_type in Hid.
    apply Hnotin. rewrite Hid. apply list_elem_of_fmap. by exists task'.
Qed.

(** One turn of the loop of [scheduleCourseTasks], and each of the two
    submissions of [scheduleInitialTasks]. *)
Lemma addTask_counted task s :
  Queue.wellFormed (Queue.mgr (queueManager s)) →
  let id := Queue.generateTaskId (time s (tick s))
              (Queue.TaskInput.type task) (Queue.TaskInput.url task) in
  id ∉ Queue.queuedIds (Queue.mgr (queueManager s)) →
  let s1 := bumpScheduled (addTask task s) in
  Queue.tasks (Queue.mgr (queueManager s1))
  = Queue.tasks (Queue.mgr (queueManager s))
    ++ [Queue.newCrawlTask id (time s (S (tick s))) task] ∧
  Queue.wellFormed (Queue.mgr (queueManager s1)) ∧
  Queue.crawlQueue (Queue.store (queueManager s1))
  = Some (Queue.tasks (Queue.mgr (queueManager s1))) ∧
  currentSession s1 = scheduledMore 1 <$> currentSession s ∧
  isRunning s1 = isRunning s ∧ crawlSessions s1 = crawlSessions s ∧
  time s1 = time s ∧ tick s1 = (3 + tick s)%nat.
Proof.
  intros Hwf id Hid s1.
  destruct (queue_addTask_fresh (time s (tick s)) (time s (S (tick s)))
              (time s (S (S (tick s)))) task (queueManager s) Hwf Hid)
    as (Ht1 & Hwf1 & Hst1).
  destruct (bumpScheduled_rest (addTask task s))
    as (Hr1 & Hh1 & Hq1 & Htime1 & Htick1 & _ & _).
  fold s1 in Hr1, Hh1, Hq1, Htime1, Htick1.
  assert (Hq : queueManager s1
               = (Queue.addTask (time s (tick s)) (time s (S (tick s)))
                    (time s (S (S (tick s)))) task (queueManager s)).2).
  { rewrite Hq1. by rewrite addTask_run. }
  rewrite Hq. split; [exact Ht1|]. split; [exact Hwf1|].
  split; [exact Hst1|]. split; [|split; [|split; [|split]]].
  - unfold s1. by rewrite bumpScheduled_session.
  - by rewrite Hr1.
  - by rewrite Hh1.
  - by rewrite Htime1.
  - by rewrite Htick1.
Qed.

Lemma addCourseTasks_fresh tasks s :
  Queue.wellFormed (Queue.mgr (queueManager s)) →
  let created := createdTasks tasks (time s) (tick s) in
  NoDup (map Queue.CrawlTask.id created) →
  (∀ t, t ∈ created →
        Queue.CrawlTask.id t ∉ Queue.queuedIds (Queue.mgr (queueManager s))) →
  let s' := addCourseTasks tasks s in
  Queue.tasks (Queue.mgr (queueManager s'))
  = Queue.tasks (Queue.mgr (queueManager s)) ++ created ∧
  currentSession s'
  = scheduledMore (Z.of_nat (length tasks)) <$> currentSession s ∧
  isRunning s' = isRunning s ∧ crawlSessions s' = crawlSessions s ∧
  (tasks ≠ [] →
   Queue.crawlQueue (Queue.store (queueManager s'))
   = Some (Queue.tasks (Queue.mgr (queueManager s')))).
Proof.
  revert s. induction tasks as [|task rest IH]; intros s Hwf created Hnd Hnew s'.
  - simpl in *. unfold created, s'. rewrite app_nil_r.
    split; [done|]. split; [|by repeat split].
    destruct (currentSession s) as [c|]; [|done]. simpl. f_equal.
    unfold scheduledMore. destruct c; simpl. f_equal. lia.
  - unfold s', addCourseTasks. cbn [fold_left].
    set (s1 := bumpScheduled (addTask task s)).
    change (fold_left _ rest s1) with (addCourseTasks rest s1).
    unfold created in *. cbn [createdTasks map] in Hnd, Hnew |- *.
    apply NoDup_cons in Hnd as [Hhead Hnd].
    set (id := Queue.generateTaskId (time s (tick s))
                 (Queue.TaskInput.type task) (Queue.TaskInput.url task)) in *.
    set (new := Queue.newCrawlTask id (time s (S (tick s))) task) in *.
    destruct (addTask_counted task s Hwf) as
      (Ht1 & Hwf1 & Hst1 & Hs1 & Hr1 & Hh1 & Htime1 & Htick1).
    { apply (Hnew new). by left. }
    fold s1 id new in Ht1, Hwf1, Hst1, Hs1, Hr1, Hh1, Htime1, Htick1.
    destruct (IH s1 Hwf1) as (Ht & Hc & Hr & Hh & Hst).
    { by rewrite Htime1, Htick1. }
    { rewrite Htime1, Htick1. intros t Hin.
      unfold Queue.queuedIds. rewrite Ht1, map_app.
      intros Hx. apply elem_of_app in Hx as [Hx|Hx].
      - apply (Hnew t); [by right|done].
      - apply list_elem_of_singleton in Hx. apply Hhead.
        unfold Queue.CrawlTask.id at 1 in Hhead. fold new in Hhead.
        rewrite <- Hx. apply list_elem_of_fmap. by exists t. }
    rewrite Htime1, Htick1 in Ht.
    split; [|split; [|split; [congruence|split; [congruence|]]]].
    + rewrite Ht, Ht1. by rewrite <- app_assoc.
    + rewrite Hc, Hs1. destruct (currentSession s) as [c|]; [|done].
      simpl. rewrite scheduledMore_more. do 2 f_equal. lia.
    + intros _. destruct rest as [|task' rest'].
      * exact Hst1.
      * by apply Hst.
Qed.

(** [scheduleCourseTasks] on a queue that holds none of the identifiers
    it generates appends ten tasks, one of each course type and no two
    with the same identifier, in the order and with the priorities of the
    array literal, and saves the queue; the count of scheduled tasks of
    the current session goes up by ten, and without a current session
    nothing is counted. *)
Theorem scheduleCourseTasks_adds_ten (courseId courseUrl : string)
    (s : State) :
  Queue.wellFormed (Queue.mgr (queueManager s)) →
  let created :=
    createdTasks
      (courseTasks courseId courseUrl (fun k => time s (k + tick s)%nat))
      (time s) (10 + tick s) in
  (∀ t, t ∈ created →
        Queue.CrawlTask.id t ∉ Queue.queuedIds (Queue.mgr (queueManager s))) →
  let s' := scheduleCourseTasks courseId courseUrl s in
  Queue.tasks (Queue.mgr (queueManager s'))
  = Queue.tasks (Queue.mgr (queueManager s)) ++ created ∧
  Queue.crawlQueue (Queue.store (queueManager s'))
  = Some (Queue.tasks (Queue.mgr (queueManager s'))) ∧
  NoDup (map Queue.CrawlTask.id created) ∧
  map Queue.CrawlTask.type created
  = [Queue.announcements; Queue.assignments; Queue.discussions;
     Queue.pages; Queue.files; Queue.quizzes; Queue.modules; Queue.grades;
     Queue.people; Queue.syllabus] ∧
  map Queue.CrawlTask.priority created = [8; 8; 7; 6; 5; 5; 6; 7; 4; 8] ∧
  Forall (fun t => Queue.CrawlTask.courseId t = Some courseId ∧
                   Queue.CrawlTask.retryCount t = 0 ∧
                   Queue.CrawlTask.maxRetries t = 3) created ∧
  currentSession s' = scheduledMore 10 <$> currentSession s ∧
  isRunning s' = isRunning s ∧ crawlSessions s' = crawlSessions s.
Proof.
  intros Hwf created Hnew s'.
  assert (Hnd : NoDup (map Queue.CrawlTask.id created)).
  { apply createdTasks_NoDup. simpl.
    repeat (apply NoDup_cons; split;
            [rewrite ?elem_of_cons, elem_of_nil; naive_solver|]).
    constructor. }
  destruct (addCourseTasks_fresh
              (courseTasks courseId courseUrl
                 (fun k => time s (k + tick s)%nat))
              (later 10 s) Hwf Hnd Hnew)
    as (Ht & Hc & Hr & Hh & Hst).
  split; [exact Ht|]. split; [by apply Hst|]. split; [exact Hnd|].
  split; [done|]. split; [done|]. split; [by repeat constructor|].
  split; [exact Hc|]. split; [exact Hr|exact Hh].
Qed.

Lemma scheduleInitialTasks_run host hosts s c :
  currentSession s = Some c →
  scheduleInitialTasks (host :: hosts) s
  = (None,
     let s1 := bumpScheduled
                 (addTask (seed Queue.dashboard (host ++ "/dashboard")%string
                             10 (time s (tick s))) (later 1 s)) in
     bumpScheduled
       (addTask (seed Queue.course_list (host ++ "/courses")%string 9
                   (time s1 (tick s1) + 1000)) (later 1 s1))).
Proof. intros Hc. unfold scheduleInitialTasks. by rewrite Hc. Qed.

(** A start call that finds the guard down, is authenticated and has a
    host raises the guard, opens a session named after the clock reading
    and submits two tasks for the first host: its dashboard at priority
    10, due at once, and its course list at priority 9, due a second
    later.  On a queue that holds neither identifier both are appended, in
    that order, the queue is saved, and the session counts two scheduled
    tasks. *)
Theorem startCrawlSession_seeds (host : string) (hosts : list string)
    (s : State) :
  isRunning s = false →
  Queue.wellFormed (Queue.mgr (queueManager s)) →
  let t k := time s (k + tick s)%nat in
  let first :=
    Queue.newCrawlTask
      (Queue.generateTaskId (t 3%nat) Queue.dashboard
         (host ++ "/dashboard")%string)
      (t 4%nat)
      (seed Queue.dashboard (host ++ "/dashboard")%string 10 (t 2%nat)) in
  let second :=
    Queue.newCrawlTask
      (Queue.generateTaskId (t 7%nat) Queue.course_list
         (host ++ "/courses")%string)
      (t 8%nat)
      (seed Queue.course_list (host ++ "/courses")%string 9
         (t 6%nat + 1000)) in
  Queue.CrawlTask.id first ∉ Queue.queuedIds (Queue.mgr (queueManager s)) →
  Queue.CrawlTask.id second ∉ Queue.queuedIds (Queue.mgr (queueManager s)) →
  let r := startCrawlSession Authenticated (host :: hosts) s in
  r.1 = Sync.Returned ("crawl_" ++ JS.show (t 0%nat))%string ∧
  isRunning r.2 = true ∧
  currentSession r.2
  = Some {| id := ("crawl_" ++ JS.show (t 0%nat))%string;
            startTime := t 1%nat; endTime := None; status := running;
            tasksScheduled := 2; tasksCompleted := 0; tasksFailed := 0;
            error := None |} ∧
  crawlSessions r.2 = crawlSessions s ∧
  Queue.tasks (Queue.mgr (queueManager r.2))
  = Queue.tasks (Queue.mgr (queueManager s)) ++ [first; second] ∧
  Queue.crawlQueue (Queue.store (queueManager r.2))
  = Some (Queue.tasks (Queue.mgr (queueManager r.2))).
Proof.
  intros Hdown Hwf t first second Hfirst Hsecond r.
  unfold r, startCrawlSession, enterStart. rewrite Hdown.
  unfold resumeStart. cbn [now time tick withRunning].
  set (session := {| id := ("crawl_" ++ JS.show (time s (tick s)))%string |}).
  set (s0 := withSession _ (Some session)).
  rewrite (scheduleInitialTasks_run host hosts s0 session eq_refl).
  cbv zeta.
  set (s1 := bumpScheduled (addTask _ (later 1 s0))).
  destruct (addTask_counted
              (seed Queue.dashboard (host ++ "/dashboard")%string 10
                 (time s0 (tick s0))) (later 1 s0) Hwf Hfirst)
    as (Ht1 & Hwf1 & _ & Hs1 & Hr1 & Hh1 & Htime1 & Htick1).
  fold s1 in Ht1, Hwf1, Hs1, Hr1, Hh1, Htime1, Htick1.
  assert (Hsecond' :
            Queue.generateTaskId (time (later 1 s1) (tick (later 1 s1)))
              Queue.course_list (host ++ "/courses")%string
            ∉ Queue.queuedIds (Queue.mgr (queueManager (later 1 s1)))).
  { cbn [later time tick queueManager]. rewrite Htime1, Htick1.
    unfold Queue.queuedIds. rewrite Ht1, map_app.
    intros Hx. apply elem_of_app in Hx as [Hx|Hx]; [by apply Hsecond|].
    apply list_elem_of_singleton in Hx.
    by apply generateTaskId_type in Hx. }
  destruct (addTask_counted
              (seed Queue.course_list (host ++ "/courses")%string 9
                 (time s1 (tick s1) + 1000)) (later 1 s1) Hwf1 Hsecond')
    as (Ht2 & _ & Hst2 & Hs2 & Hr2 & Hh2 & _ & _).
  cbn [later time tick queueManager currentSession isRunning crawlSessions]
    in Ht2, Hs2, Hr2, Hh2.
  cbn [fst snd].
  split; [done|]. split; [by rewrite Hr2, Hr1|].
  split; [by rewrite Hs2, Hs1|]. split; [by rewrite Hh2, Hh1|].
  split; [|exact Hst2].
  rewrite Ht2, Ht1, <- app_assoc. rewrite Htime1, Htick1. done.
Qed.

(** *** The theorems above at concrete inputs *)

Lemma history_within_ten_witness :
  (length (history (cancelCrawl (enterStart initial).2)) ≤ 10)%nat.
Proof.
  refine (proj1 (history_within_ten initial
                   (cancelCrawl (enterStart initial).2) _ _)).
  - vm_compute. lia.
  - eapply rtc_l; [apply step_enter|]. apply rtc_once, step_cancel.
Defined.

Lemma monitor_timeout_at_loop_head_witness :
  (monitorTick 1000 (monitored 6)).1 = false ∧
  isRunning (monitorTick 1000 (monitored 6)).2 = true ∧
  currentSession (monitorTick 1000 (monitored 6)).2
  = currentSession (monitored 6).
Proof.
  destruct (monitor_timeout_at_loop_head 1000 (monitored 6))
    as (Hend & _ & Hsession & Hup & _).
  - reflexivity.
  - vm_compute. discriminate.
  - split; [exact Hend|]. split; [exact Hup|exact Hsession].
Defined.

Lemma monitor_completes_when_drained_witness :
  isRunning (monitorTick 1000 (monitored 1)).2 = false ∧
  currentSession (monitorTick 1000 (monitored 1)).2 = None.
Proof.
  destruct (monitor_completes_when_drained 1000 (monitored 1)
              {| id := "crawl_1000"; startTime := 1000; endTime := None;
                 status := running; tasksScheduled := 2;
                 tasksCompleted := 0; tasksFailed := 0; error := None |})
    as (_ & Hdown & Hnone & _).
  - reflexivity.
  - reflexivity.
  - vm_compute. reflexivity.
  - reflexivity.
  - reflexivity.
  - split; [exact Hdown|exact Hnone].
Defined.

Lemma scheduleCourseTasks_adds_ten_witness :
  length (Queue.tasks
            (Queue.mgr
               (queueManager
                  (scheduleCourseTasks "7" "https://canvas.example/courses/7"
                     initial)))) = 10%nat.
Proof.
  destruct (scheduleCourseTasks_adds_ten "7"
              "https://canvas.example/courses/7" initial) as (Ht & _).
  - constructor.
  - intros t _. apply not_elem_of_nil.
  - rewrite Ht. reflexivity.
Defined.

Lemma startCrawlSession_seeds_witness :
  isRunning (startCrawlSession Authenticated ["https://canvas.example"]
               initial).2 = true ∧
  length (Queue.tasks
            (Queue.mgr
               (queueManager
                  (startCrawlSession Authenticated ["https://canvas.example"]
                     initial).2))) = 2%nat.
Proof.
  destruct (startCrawlSession_seeds "https://canvas.example" [] initial)
    as (_ & Hup & _ & _ & Ht & _).
  - reflexivity.
  - constructor.
  - apply not_elem_of_nil.
  - apply not_elem_of_nil.
  - split; [exact Hup|]. rewrite Ht. reflexivity.
Defined.

End SchedulerOps.
